(** * Huffman coding: a shallow embedding of [huffman.c] and its properties

    The C program counts the bytes of a NUL-terminated message, builds a
    Huffman tree by repeatedly merging the two lightest nodes of an array
    that is re-sorted with [qsort] after every merge, derives one code per
    byte, encodes the message as a string of ['0']/['1'] characters and
    decodes it again by walking the tree.

    Conventions of the embedding.
    - A C string is the list of its characters before the terminating NUL,
      each character given by its byte value (a [Z] in [1..255]).
    - [size_t] is 64 bits wide; its arithmetic wraps modulo [2^64].
    - Plain [char] is signed or unsigned depending on the platform: the
      model takes that choice as a parameter, [char_signed].
    - A pointer that may be [NULL] is an [option]; dereferencing [NULL],
      using the result of a refused allocation, and storing into a buffer
      at an index that is not below its capacity end the run in [Fault].
    - [qsort] belongs to the C library: the builder is stated for any
      function that returns a sorted permutation, and [stable_qsort] is the
      instance that keeps equal elements in their order. *)

From Stdlib Require Import ZArith List Bool Lia String Ascii.
From Stdlib Require Import Permutation Sorted.
Import ListNotations.

Open Scope Z_scope.

(** ** Machine integers and characters *)

Definition SIZE_WIDTH : Z := 64.
Definition SIZE_MAX : Z := 2 ^ SIZE_WIDTH - 1.
Definition PTRDIFF_MAX : Z := 2 ^ (SIZE_WIDTH - 1) - 1.

(** Reduction of an integer to [size_t]. *)
Definition size_t (z : Z) : Z := z mod 2 ^ SIZE_WIDTH.

Definition MAX_CHAR : Z := 256.

(** [sizeof(Node * )]. *)
Definition SIZEOF_PTR : Z := 8.

(** Conversion of an integer to [unsigned char]. *)
Definition to_uchar (z : Z) : Z := z mod 256.

(** Conversion of an integer in [0..255] to plain [char]: the value itself
    where [char] is unsigned, the value folded into [-128..127] where it is
    signed. *)
Definition to_char (char_signed : bool) (z : Z) : Z :=
  if char_signed && (128 <=? z mod 256) then z mod 256 - 256 else z mod 256.

Definition CHAR_0 : Z := 48.
Definition CHAR_1 : Z := 49.

(** The byte values of a string literal. *)
Definition bytes_of_string (s : string) : list Z :=
  map (fun a => Z.of_N (N_of_ascii a)) (list_ascii_of_string s).

(** ** Outcomes of a run *)

(** A function of the program either returns, or the run is undefined
    (a [NULL] pointer is dereferenced, or memory that was not obtained is
    written). *)
Inductive outcome (A : Type) : Type :=
| Done (a : A)
| Fault.

Arguments Done {A} a.
Arguments Fault {A}.

Definition bind {A B : Type} (m : outcome A) (f : A -> outcome B) : outcome B :=
  match m with
  | Done a => f a
  | Fault => Fault
  end.

Notation "x <- m ;; k" := (bind m (fun x => k))
  (at level 61, m at next level, right associativity).

(** [malloc] is the C library's.  A request of more than [PTRDIFF_MAX]
    bytes is refused; any other request is taken to be served, running out
    of memory being outside the properties studied here. *)
Definition malloc_refuses (bytes : Z) : bool := PTRDIFF_MAX <? bytes.

(** Update of an array cell; the index is always in range where it is used. *)
Fixpoint array_set {A : Type} (l : list A) (i : nat) (v : A) : list A :=
  match l, i with
  | [], _ => []
  | _ :: t, O => v :: t
  | h :: t, S j => h :: array_set t j v
  end.

(** ** The frequency table *)

(** [count_frequencies]: one increment per character of the message, at the
    index given by the character read as [unsigned char]. *)
Fixpoint count_frequencies (message : list Z) (frequencies : list Z) : list Z :=
  match message with
  | [] => frequencies
  | b :: rest =>
      let index := Z.to_nat (to_uchar b) in
      count_frequencies rest
        (array_set frequencies index (size_t (nth index frequencies 0 + 1)))
  end.

(** ** Tree nodes *)

#[warnings="-register-all"]
Inductive Node : Type :=
  mkNode {
    n_left : option Node;
    n_right : option Node;
    n_c : Z;
    n_freq : Z;
    n_code : option (list Z)
  }.

(** [create_node]: the [code] field is left unset. *)
Definition create_node (c : Z) (freq : Z) : Node :=
  {| n_left := None; n_right := None; n_c := to_uchar c; n_freq := size_t freq;
     n_code := None |}.

Definition create_default_node : Node := create_node 0 0.

(** [create_parent_node]: NUL character, frequency the [size_t] sum. *)
Definition create_parent_node (left_node right_node : Node) : Node :=
  let parent_node := create_node 0 (n_freq left_node + n_freq right_node) in
  {| n_left := Some left_node; n_right := Some right_node; n_c := n_c parent_node;
     n_freq := n_freq parent_node; n_code := n_code parent_node |}.

(** [node_compare], on two cells of the node array. *)
Definition node_compare (first second : option Node) : Z :=
  match first, second with
  | None, None => 0
  | Some _, None => -1
  | None, Some _ => 1
  | Some first_node, Some second_node =>
      let first_freq := n_freq first_node in
      let second_freq := n_freq second_node in
      Z.b2z (first_freq >? second_freq) - Z.b2z (first_freq <? second_freq)
  end.

(** ** The message information *)

Record MessageChar : Type :=
  mkMessageChar {
    mc_c : Z;
    mc_freq : Z;
    mc_code : option (list Z)
  }.

(** [MessageInfo]: the array [chars]; its [length] field is the length of
    the list. *)
Record MessageInfo : Type :=
  mkMessageInfo { chars : list MessageChar }.

Definition mi_length (message_info : MessageInfo) : Z :=
  Z.of_nat (List.length (chars message_info)).

(** A sort that keeps equal elements in their order: each element is put in
    front of the first element of the sorted rest that is not smaller. *)
Fixpoint stable_insert {A : Type} (compar : A -> A -> Z) (x : A) (l : list A) : list A :=
  match l with
  | [] => [x]
  | y :: t => if compar x y <=? 0 then x :: y :: t else y :: stable_insert compar x t
  end.

Fixpoint stable_qsort {A : Type} (compar : A -> A -> Z) (base : list A) : list A :=
  match base with
  | [] => []
  | x :: t => stable_insert compar x (stable_qsort compar t)
  end.

Section Program.

(** Whether plain [char] is a signed type. *)
Variable char_signed : bool.

(** The C library's [qsort] on an array of node pointers. *)
Variable qsort : (option Node -> option Node -> Z) -> list (option Node) -> list (option Node).

(** [sort_nodes]: the first [nb_nodes] cells are sorted, the others stay. *)
Definition sort_nodes (nodes : list (option Node)) (nb_nodes : nat) : list (option Node) :=
  qsort node_compare (firstn nb_nodes nodes) ++ skipn nb_nodes nodes.

(** The loop of [create_message] over the indices [i, i+1, ...] of the
    frequency array: one entry per positive count, in index order. *)
Fixpoint collect_chars (frequencies : list Z) (i : Z) : list MessageChar :=
  match frequencies with
  | [] => []
  | f :: rest =>
      if f >? 0
      then {| mc_c := to_char char_signed (to_uchar i); mc_freq := f; mc_code := None |}
             :: collect_chars rest (i + 1)
      else collect_chars rest (i + 1)
  end.

(** [create_message]. *)
Definition create_message (message : list Z) : MessageInfo :=
  let frequencies := count_frequencies message (repeat 0 (Z.to_nat MAX_CHAR)) in
  {| chars := collect_chars frequencies 0 |}.

(** The merging loop of [generate_tree]: while more than one node is left,
    the first two cells are replaced by their parent and [NULL], the live
    part of the array is sorted, and its last cell is given up. *)
Fixpoint merge_nodes (current_nb_nodes : nat) (nodes : list (option Node))
  : outcome (list (option Node)) :=
  match current_nb_nodes with
  | S (S _ as remaining) =>
      match nth 0 nodes None, nth 1 nodes None with
      | Some left_node, Some right_node =>
          let parent := create_parent_node left_node right_node in
          let nodes := array_set nodes 0 (Some parent) in
          let nodes := array_set nodes 1 None in
          let nodes := sort_nodes nodes current_nb_nodes in
          merge_nodes remaining nodes
      | _, _ => Fault
      end
  | _ => Done nodes
  end.

(** The first loop of [generate_tree]: one leaf per entry. *)
Fixpoint fill_nodes (entries : list MessageChar) (nodes : list (option Node)) (current_nb_nodes : nat)
  : list (option Node) :=
  match entries with
  | [] => nodes
  | e :: rest =>
      fill_nodes rest
        (array_set nodes current_nb_nodes (Some (create_node (mc_c e) (mc_freq e))))
        (S current_nb_nodes)
  end.

(** [generate_tree].  The array of [max_nodes] cells is requested without a
    check and cleared with [memset]; the root is cell 0 after the merging. *)
Definition generate_tree (message_info : MessageInfo) : outcome (option Node) :=
  let max_nodes := size_t (2 * mi_length message_info - 1) in
  if malloc_refuses (size_t (max_nodes * SIZEOF_PTR)) then Fault
  else
    let nodes := repeat None (Z.to_nat max_nodes) in
    let nodes := fill_nodes (chars message_info) nodes 0 in
    let current_nb_nodes := List.length (chars message_info) in
    let nodes := sort_nodes nodes current_nb_nodes in
    nodes <- merge_nodes current_nb_nodes nodes ;;
    Done (nth 0 nodes None).

(** The search loop of [_generate_huffman]: the first entry whose [char]
    equals the node's [unsigned char] (both promoted to [int]) receives a
    copy of the code. *)
Fixpoint store_code (entries : list MessageChar) (node_c : Z) (code : list Z) : list MessageChar :=
  match entries with
  | [] => []
  | e :: rest =>
      if mc_c e =? node_c
      then {| mc_c := mc_c e; mc_freq := mc_freq e; mc_code := Some code |} :: rest
      else e :: store_code rest node_c code
  end.

(** A store into a buffer of characters; outside the buffer the run is
    undefined. *)
Definition buffer_store (code_buffer : list Z) (i : nat) (ch : Z) : outcome (list Z) :=
  if (i <? List.length code_buffer)%nat then Done (array_set code_buffer i ch) else Fault.

(** [_generate_huffman].  The code of the node is the first [depth]
    characters of [code_buffer]; the buffer is shared by all the calls, so
    it is passed on and returned.  The call stores the code of every node in
    the node, and the code of every leaf in the message information. *)
Fixpoint _generate_huffman (message_info : MessageInfo) (node : Node) (code_buffer : list Z)
  (depth : nat) : outcome (MessageInfo * Node * list Z) :=
  match node with
  | mkNode left_node right_node c freq _ =>
      let code := firstn depth code_buffer in
      let message_info :=
        match left_node, right_node with
        | None, None => {| chars := store_code (chars message_info) c code |}
        | _, _ => message_info
        end in
      r <- match left_node with
           | Some l =>
               code_buffer <- buffer_store code_buffer depth CHAR_0 ;;
               code_buffer <- buffer_store code_buffer (depth + 1) 0 ;;
               r <- _generate_huffman message_info l code_buffer (depth + 1) ;;
               Done (fst (fst r), Some (snd (fst r)), snd r)
           | None => Done (message_info, None, code_buffer)
           end ;;
      let message_info := fst (fst r) in
      let left_node := snd (fst r) in
      let code_buffer := snd r in
      r <- match right_node with
           | Some r =>
               code_buffer <- buffer_store code_buffer depth CHAR_1 ;;
               code_buffer <- buffer_store code_buffer (depth + 1) 0 ;;
               r <- _generate_huffman message_info r code_buffer (depth + 1) ;;
               Done (fst (fst r), Some (snd (fst r)), snd r)
           | None => Done (message_info, None, code_buffer)
           end ;;
      let message_info := fst (fst r) in
      let right_node := snd (fst r) in
      let code_buffer := snd r in
      Done (message_info, mkNode left_node right_node c freq (Some code), code_buffer)
  end.

(** [generate_huffman]: the buffer has [length + 1] characters; a [NULL]
    root leaves everything as it is.  What the fresh buffer holds does not
    matter, a cell being read only after it is written. *)
Definition generate_huffman (message_info : MessageInfo) (root : option Node)
  : outcome (MessageInfo * option Node) :=
  let code_buffer := repeat 0 (Z.to_nat (size_t (mi_length message_info + 1))) in
  match root with
  | None => Done (message_info, None)
  | Some node =>
      r <- _generate_huffman message_info node code_buffer 0 ;;
      Done (fst (fst r), Some (snd (fst r)))
  end.

(** ** Encoding *)

(** The state of an output buffer: its capacity, the next index, and the
    characters stored so far (cell [i] holds the [i]-th of them). *)
Record buffer : Type :=
  mkBuffer {
    capacity : Z;
    current_idx : Z;
    written : list Z
  }.

(** The buffer obtained for a string as long as [s] and its terminator:
    [malloc(strlen(s) + 1)], nothing written yet. *)
Definition output_buffer (s : list Z) : buffer :=
  {| capacity := size_t (Z.of_nat (List.length s) + 1); current_idx := 0; written := [] |}.

(** One pass of the innermost loop: grow when full, store one character.
    The store is within the buffer when the index is below the capacity. *)
Definition put_char (b : buffer) (ch : Z) : outcome buffer :=
  let capacity := if current_idx b >=? capacity b then size_t (2 * capacity b) else capacity b in
  if current_idx b <? capacity
  then Done {| capacity := capacity; current_idx := size_t (current_idx b + 1);
               written := written b ++ [ch] |}
  else Fault.

(** The characters of a string stored one after the other. *)
Fixpoint put_chars (s : list Z) (b : buffer) : outcome buffer :=
  match s with
  | [] => Done b
  | ch :: rest => b <- put_char b ch ;; put_chars rest b
  end.

(** The store of the terminating NUL at [current_idx], which no growth
    precedes. *)
Definition store_terminator (b : buffer) : outcome buffer :=
  if current_idx b <? capacity b then Done b else Fault.

(** The loop over [j]: the first entry with the character of the message;
    its code is copied character by character.  A code that was never set
    is a [NULL] pointer. *)
Fixpoint encode_char (entries : list MessageChar) (c : Z) (b : buffer) : outcome buffer :=
  match entries with
  | [] => Done b
  | e :: rest =>
      if mc_c e =? c
      then match mc_code e with
           | Some code => put_chars code b
           | None => Fault
           end
      else encode_char rest c b
  end.

Fixpoint encode_loop (message : list Z) (message_info : MessageInfo) (b : buffer) : outcome buffer :=
  match message with
  | [] => Done b
  | byte :: rest =>
      let c := to_char char_signed byte in
      b <- encode_char (chars message_info) c b ;;
      encode_loop rest message_info b
  end.

(** [huffman_encode]: the loop over the message, then the terminator. *)
Definition huffman_encode (message : list Z) (message_info : MessageInfo) : outcome buffer :=
  b <- encode_loop message message_info (output_buffer message) ;;
  store_terminator b.

End Program.

(** ** Decoding *)

(** The test [node->left == NULL && node->right == NULL]. *)
Definition is_leaf (node : Node) : bool :=
  match n_left node, n_right node with
  | None, None => true
  | _, _ => false
  end.

(** The cursor of the decoder: [None] stands for the pointer [root] itself
    (which may be [NULL]), [Some n] for a node strictly below the root, a
    pointer different from [root]. *)
Definition cursor_node (root : option Node) (cursor : option Node) : option Node :=
  match cursor with
  | None => root
  | Some n => Some n
  end.

Fixpoint decode_loop (encoded_message : list Z) (root : option Node) (cursor : option Node)
  (b : buffer) : outcome (option Node * buffer) :=
  match encoded_message with
  | [] => Done (cursor, b)
  | bit :: rest =>
      match cursor_node root cursor with
      | None => Fault
      | Some current_node =>
          match (if bit =? CHAR_0 then n_left current_node else n_right current_node) with
          | None => Fault
          | Some next =>
              if is_leaf next
              then b <- put_char b (n_c next) ;; decode_loop rest root None b
              else decode_loop rest root (Some next) b
          end
      end
  end.

(** [huffman_decode]: [Done None] is the [NULL] result, given when the
    cursor is not at the root after the loop; otherwise the terminator is
    stored and the characters written are returned. *)
Definition huffman_decode (encoded_message : list Z) (root : option Node)
  : outcome (option (list Z)) :=
  r <- decode_loop encoded_message root None (output_buffer encoded_message) ;;
  match fst r with
  | Some _ => Done None
  | None => b <- store_terminator (snd r) ;; Done (Some (written b))
  end.

(** ** Releasing the tree *)

(** A block given back with [free]: the code of a node, or the node. *)
Inductive block : Type :=
| CodeBlock (code : list Z)
| NodeBlock (c : Z) (freq : Z).

(** [free_node] on a node: the blocks released, in the order of the calls to
    [free]; a [NULL] child releases nothing.  The field [code] is read at
    every node; [create_node] does not set it, so where [_generate_huffman]
    has not stored a code its value is indeterminate and the run is
    undefined. *)
Fixpoint free_node (node : Node) : outcome (list block) :=
  match node with
  | mkNode left_node right_node c freq code =>
      match code with
      | None => Fault
      | Some code =>
          l <- match left_node with
               | Some l => free_node l
               | None => Done []
               end ;;
          r <- match right_node with
               | Some r => free_node r
               | None => Done []
               end ;;
          Done (CodeBlock code :: NodeBlock c freq :: l ++ r)
      end
  end.

(** ** The driver *)

(** The steps of [main] up to the encoded message: the message information
    with its codes, the root, and the output buffer of the encoder. *)
Definition main_encode (char_signed : bool)
  (qsort : (option Node -> option Node -> Z) -> list (option Node) -> list (option Node))
  (message : list Z) : outcome (MessageInfo * option Node * buffer) :=
  let message_info := create_message char_signed message in
  root <- generate_tree qsort message_info ;;
  r <- generate_huffman message_info root ;;
  let message_info := fst r in
  let root := snd r in
  encoded <- huffman_encode char_signed message message_info ;;
  Done (message_info, root, encoded).

(** The steps of [main] up to the decoded message. *)
Definition main_decode (char_signed : bool)
  (qsort : (option Node -> option Node -> Z) -> list (option Node) -> list (option Node))
  (message : list Z) : outcome (option (list Z)) :=
  r <- main_encode char_signed qsort message ;;
  huffman_decode (written (snd r)) (snd (fst r)).

(** The message and the reference encoding of [main]. *)
Definition ref_message : list Z :=
  bytes_of_string "aabbccddbbeaebdddfffdbffddabbbbbcdefaabbcccccaabbddfffdcecc".

Definition ref_encoded : list Z :=
  bytes_of_string "001001101011111101011010000001000100101011101101100110110110010100110101010101110100011000100110101111111111111110010011010010111011011001111000111111".

(** ** Notions used in the statements *)

(** A C string held in memory: no NUL among its characters, every character
    a byte, and fewer than [SIZE_MAX] characters (the terminator is part of
    the object). *)
Definition c_string (message : list Z) : Prop :=
  Forall (fun b => 1 <= b <= 255) message /\ Z.of_nat (List.length message) < SIZE_MAX.

(** The characters of the message have the same value as [char] and as
    [unsigned char]: [char] is unsigned, or every character is ASCII. *)
Definition plain_chars (char_signed : bool) (message : list Z) : Prop :=
  char_signed = false \/ Forall (fun b => b < 128) message.

(** The message has at least two distinct characters. *)
Definition two_symbols (message : list Z) : Prop :=
  exists a b, In a message /\ In b message /\ a <> b.

(** [is_prefix p q]: the string [p] is a prefix of [q]. *)
Definition is_prefix (p q : list Z) : Prop := exists s, q = p ++ s.

(** What [qsort] promises for [node_compare]: the result is a permutation
    of the array and is in order. *)
Definition sorts (qsort : (option Node -> option Node -> Z) -> list (option Node) -> list (option Node))
  : Prop :=
  forall base,
    Permutation (qsort node_compare base) base /\
    Sorted (fun a b => node_compare a b <= 0) (qsort node_compare base).

(** All the nodes of a tree in the order [_generate_huffman] visits them,
    each with the path that leads to it: ['0'] to the left, ['1'] to the
    right. *)
Fixpoint subtrees (node : Node) (path : list Z) : list (list Z * Node) :=
  match node with
  | mkNode left_node right_node _ _ _ =>
      (path, node)
        :: match left_node with
           | Some l => subtrees l (path ++ [CHAR_0])
           | None => []
           end
        ++ match right_node with
           | Some r => subtrees r (path ++ [CHAR_1])
           | None => []
           end
  end.

(** The leaves of a tree with their paths: character and code. *)
Definition leaf_codes (node : Node) (path : list Z) : list (Z * list Z) :=
  map (fun x => (n_c (snd x), fst x)) (filter (fun x => is_leaf (snd x)) (subtrees node path)).

(** The leaves of a tree. *)
Definition leaf_nodes (node : Node) : list Node :=
  filter is_leaf (map snd (subtrees node [])).

(** The nodes of a tree that are not leaves. *)
Definition inner_nodes (node : Node) : list Node :=
  filter (fun n => negb (is_leaf n)) (map snd (subtrees node [])).

(** The children of a node. *)
Definition children (node : Node) : list Node :=
  match n_left node with Some l => [l] | None => [] end
  ++ match n_right node with Some r => [r] | None => [] end.

(** The tree with the path of every node stored in it, as
    [_generate_huffman] leaves it. *)
Fixpoint annotate (node : Node) (path : list Z) : Node :=
  match node with
  | mkNode left_node right_node c freq _ =>
      mkNode
        match left_node with Some l => Some (annotate l (path ++ [CHAR_0])) | None => None end
        match right_node with Some r => Some (annotate r (path ++ [CHAR_1])) | None => None end
        c freq (Some path)
  end.

(** The number of steps from a node down to its deepest leaf. *)
Fixpoint height (node : Node) : nat :=
  match node with
  | mkNode left_node right_node _ _ _ =>
      match left_node, right_node with
      | None, None => O
      | _, _ =>
          S (Nat.max
               match left_node with Some l => height l | None => O end
               match right_node with Some r => height r | None => O end)
      end
  end.

(** The codes of a list of leaves stored one after the other. *)
Definition store_codes (entries : list MessageChar) (codes : list (Z * list Z)) : list MessageChar :=
  fold_left (fun es x => store_code es (fst x) (snd x)) codes entries.

(** The code of the first entry for a character, when there is one. *)
Fixpoint lookup_code (entries : list MessageChar) (c : Z) : option (option (list Z)) :=
  match entries with
  | [] => None
  | e :: rest => if mc_c e =? c then Some (mc_code e) else lookup_code rest c
  end.

(** The array of node pointers that holds the trees of [forest] followed by
    [k] [NULL] cells. *)
Definition forest_cells (forest : list Node) (k : nat) : list (option Node) :=
  map Some forest ++ repeat None k.

(** The leaves [generate_tree] creates for the entries. *)
Definition initial_leaves (message_info : MessageInfo) : list Node :=
  map (fun e => create_node (mc_c e) (mc_freq e)) (chars message_info).

(** The roots of the trees are in order of frequency. *)
Definition freq_sorted (forest : list Node) : Prop :=
  StronglySorted (fun a b => n_freq a <= n_freq b) forest.

(** A node has no child, or two children with its frequency the sum of
    theirs. *)
Definition sum_node (node : Node) : Prop :=
  match n_left node, n_right node with
  | Some l, Some r => n_freq node = n_freq l + n_freq r
  | None, None => True
  | _, _ => False
  end.

(** A tree all of whose nodes are such, with frequencies that are not
    negative. *)
Definition weighted (node : Node) : Prop :=
  Forall (fun n => sum_node n /\ 0 <= n_freq n) (map snd (subtrees node [])).

(** A node has no child, or two. *)
Definition two_or_none (node : Node) : Prop :=
  match n_left node, n_right node with
  | Some _, Some _ => True
  | None, None => True
  | _, _ => False
  end.

(** A tree all of whose nodes are such. *)
Definition full_tree (node : Node) : Prop :=
  Forall two_or_none (map snd (subtrees node [])).

(** The sum of the frequencies of a list of nodes. *)
Definition total_freq (nodes : list Node) : Z :=
  fold_right (fun n acc => n_freq n + acc) 0 nodes.

(** The number of occurrences of a character in a message. *)
Definition occurrences (message : list Z) (b : Z) : Z :=
  Z.of_nat (count_occ Z.eq_dec message b).

(** The integers [start], [start + 1], ... ([n] of them). *)
Fixpoint zseq (start : Z) (n : nat) : list Z :=
  match n with
  | O => []
  | S k => start :: zseq (start + 1) k
  end.

(** The characters that occur in a message, in increasing order. *)
Definition present (message : list Z) : list Z :=
  filter (fun j => occurrences message j >? 0) (zseq 0 (Z.to_nat MAX_CHAR)).

(** The sum of a list of integers. *)
Definition zsum (l : list Z) : Z := fold_right Z.add 0 l.

(** An output buffer is in order when the index is the number of characters
    stored and the capacity is a [size_t]. *)
Definition buffer_ok (b : buffer) : Prop :=
  current_idx b = Z.of_nat (List.length (written b)) /\ 0 <= capacity b <= SIZE_MAX.

(** The code the encoder copies for a character: the code of the first
    entry for it, nothing when there is no entry. *)
Definition copied_code (entries : list MessageChar) (c : Z) : list Z :=
  match lookup_code entries c with
  | Some (Some code) => code
  | _ => []
  end.

(** The table of [main]: the message information after [generate_huffman]. *)
Definition main_table (char_signed : bool)
  (qsort : (option Node -> option Node -> Z) -> list (option Node) -> list (option Node))
  (message : list Z) : outcome MessageInfo :=
  let message_info := create_message char_signed message in
  root <- generate_tree qsort message_info ;;
  r <- generate_huffman message_info root ;;
  Done (fst r).


(** Two nodes with children are in merge order when a lighter child goes
    with a lighter parent. *)
Definition merge_order (n n' : Node) : Prop :=
  forall u v, In u (children n) -> In v (children n') ->
    (n_freq u < n_freq v -> n_freq n < n_freq n')
    /\ (n_freq v < n_freq u -> n_freq n' < n_freq n).

(** The state of the list of trees during the merging: the leaves are those
    created at the start, every node carries the sum of its children, the
    roots add up to [total], no merged node is heavier than a root, and the
    nodes with children are pairwise in merge order. *)
Record forest_inv (leaves0 : list Node) (total : Z) (forest : list Node) : Prop :=
  mkForestInv {
    inv_leaves : Permutation (flat_map leaf_nodes forest) leaves0;
    inv_weighted : Forall weighted forest;
    inv_total : total_freq forest = total;
    inv_below : forall n u t,
        In n (flat_map inner_nodes forest) -> In u (children n) -> In t forest ->
        n_freq u <= n_freq t;
    inv_order : ForallOrdPairs merge_order (flat_map inner_nodes forest)
  }.

(** * Properties *)

(** ** Machine integers and characters *)

Lemma size_t_small (z : Z) : 0 <= z <= SIZE_MAX -> size_t z = z.
Proof.
  unfold size_t, SIZE_MAX, SIZE_WIDTH. intros H. apply Z.mod_small. lia.
Qed.

Lemma size_t_range (z : Z) : 0 <= size_t z <= SIZE_MAX.
Proof.
  unfold size_t, SIZE_MAX, SIZE_WIDTH.
  pose proof (Z.mod_pos_bound z (2 ^ 64) ltac:(lia)). lia.
Qed.

Lemma to_uchar_byte (b : Z) : 0 <= b <= 255 -> to_uchar b = b.
Proof. intros H. unfold to_uchar. apply Z.mod_small. lia. Qed.

Lemma to_uchar_to_char (sg : bool) (b : Z) : 0 <= b <= 255 -> to_uchar (to_char sg b) = b.
Proof.
  intros H. unfold to_char, to_uchar. rewrite (Z.mod_small b 256) by lia.
  destruct (sg && (128 <=? b)) eqn:E.
  - apply andb_prop in E. destruct E as [_ E]. apply Z.leb_le in E.
    replace (b - 256) with (b + (-1) * 256) by lia.
    rewrite Z.mod_add by lia. apply Z.mod_small. lia.
  - apply Z.mod_small. lia.
Qed.

Lemma to_char_injective (sg : bool) (a b : Z) :
  0 <= a <= 255 -> 0 <= b <= 255 -> to_char sg a = to_char sg b -> a = b.
Proof.
  intros Ha Hb H. rewrite <- (to_uchar_to_char sg a Ha), <- (to_uchar_to_char sg b Hb).
  now rewrite H.
Qed.

Lemma to_char_plain (sg : bool) (b : Z) :
  0 <= b <= 255 -> sg = false \/ b < 128 -> to_char sg b = b.
Proof.
  intros Hb H. unfold to_char. rewrite (Z.mod_small b 256) by lia.
  destruct H as [-> | H]; [reflexivity|].
  destruct (128 <=? b) eqn:E; [apply Z.leb_le in E; lia|].
  now rewrite andb_false_r.
Qed.

(** ** Induction on trees *)

Lemma Node_induction (P : Node -> Prop) :
  (forall c f code, P (mkNode None None c f code)) ->
  (forall l c f code, P l -> P (mkNode (Some l) None c f code)) ->
  (forall r c f code, P r -> P (mkNode None (Some r) c f code)) ->
  (forall l r c f code, P l -> P r -> P (mkNode (Some l) (Some r) c f code)) ->
  forall n, P n.
Proof.
  intros H0 H1 H2 H3. fix IH 1.
  intros [[l|] [r|] c f code].
  - apply H3; apply IH.
  - apply H1; apply IH.
  - apply H2; apply IH.
  - apply H0.
Qed.

(** ** The comparison and the sort *)

Lemma node_compare_trans (a b c : option Node) :
  node_compare a b <= 0 -> node_compare b c <= 0 -> node_compare a c <= 0.
Proof.
  destruct a as [a|], b as [b|], c as [c|]; simpl; try lia.
  destruct (n_freq a >? n_freq b) eqn:E1, (n_freq a <? n_freq b) eqn:E2,
    (n_freq b >? n_freq c) eqn:E3, (n_freq b <? n_freq c) eqn:E4,
    (n_freq a >? n_freq c) eqn:E5, (n_freq a <? n_freq c) eqn:E6; simpl; lia.
Qed.

Lemma node_compare_total (a b : option Node) :
  node_compare a b <= 0 \/ node_compare b a <= 0.
Proof.
  destruct a as [a|], b as [b|]; simpl; try lia.
  destruct (n_freq a >? n_freq b) eqn:E1, (n_freq a <? n_freq b) eqn:E2,
    (n_freq b >? n_freq a) eqn:E3, (n_freq b <? n_freq a) eqn:E4; simpl; lia.
Qed.

Lemma node_compare_some (a b : Node) :
  node_compare (Some a) (Some b) <= 0 <-> n_freq a <= n_freq b.
Proof.
  simpl. destruct (n_freq a >? n_freq b) eqn:E1, (n_freq a <? n_freq b) eqn:E2; simpl; lia.
Qed.

Lemma node_compare_none (b : option Node) : node_compare None b <= 0 -> b = None.
Proof. destruct b; simpl; [lia | reflexivity]. Qed.

Lemma stable_insert_perm {A : Type} (cmp : A -> A -> Z) (x : A) (l : list A) :
  Permutation (stable_insert cmp x l) (x :: l).
Proof.
  induction l as [|y t IH]; simpl.
  - apply Permutation_refl.
  - destruct (cmp x y <=? 0).
    + apply Permutation_refl.
    + eapply perm_trans; [apply perm_skip, IH | apply perm_swap].
Qed.

Lemma stable_qsort_perm {A : Type} (cmp : A -> A -> Z) (l : list A) :
  Permutation (stable_qsort cmp l) l.
Proof.
  induction l as [|x t IH]; simpl.
  - apply perm_nil.
  - eapply perm_trans; [apply stable_insert_perm | apply perm_skip, IH].
Qed.

Lemma stable_insert_sorted (x : option Node) (l : list (option Node)) :
  Sorted (fun a b => node_compare a b <= 0) l ->
  Sorted (fun a b => node_compare a b <= 0) (stable_insert node_compare x l).
Proof.
  induction l as [|y t IH]; simpl; intros HS.
  - repeat constructor.
  - destruct (node_compare x y <=? 0) eqn:E.
    + apply Z.leb_le in E. constructor; [assumption | constructor; assumption].
    + apply Z.leb_gt in E. inversion HS as [|? ? HS' HR]; subst.
      constructor; [apply IH; assumption|].
      destruct t as [|z t']; simpl.
      * constructor. destruct (node_compare_total x y); lia.
      * destruct (node_compare x z <=? 0).
        -- constructor. destruct (node_compare_total x y); lia.
        -- inversion HR; subst. constructor. assumption.
Qed.

Lemma stable_qsort_sorts : sorts stable_qsort.
Proof.
  intros base. split; [apply stable_qsort_perm|].
  induction base as [|x t IH]; simpl.
  - constructor.
  - apply stable_insert_sorted, IH.
Qed.

Lemma sorts_strongly qsort (base : list (option Node)) :
  sorts qsort -> StronglySorted (fun a b => node_compare a b <= 0) (qsort node_compare base).
Proof.
  intros H. apply Sorted_StronglySorted.
  - intros a b c. apply node_compare_trans.
  - apply H.
Qed.

(** A sorted array of node pointers with a single [NULL] has it last. *)
Lemma sorted_null_last (l : list (option Node)) :
  StronglySorted (fun a b => node_compare a b <= 0) l ->
  forall g, Permutation l (None :: map Some g) ->
  exists f, l = map Some f ++ [None] /\ Permutation f g /\ freq_sorted f.
Proof.
  induction l as [|x l IH]; intros HS g HP.
  - apply Permutation_nil in HP. discriminate.
  - inversion HS as [|? ? HS' HF]; subst. destruct x as [t|].
    + assert (Hin : In (Some t) (None :: map Some g)).
      { eapply Permutation_in; [exact HP | left; reflexivity]. }
      destruct Hin as [Hin | Hin]; [discriminate|].
      apply in_map_iff in Hin. destruct Hin as (t' & Heq & Hin). injection Heq as ->.
      apply in_split in Hin. destruct Hin as (g1 & g2 & ->).
      assert (HP' : Permutation l (None :: map Some (g1 ++ g2))).
      { apply Permutation_cons_inv with (a := Some t).
        eapply perm_trans; [exact HP|].
        rewrite !map_app. simpl.
        eapply perm_trans; [|apply perm_swap].
        apply perm_skip. symmetry. apply Permutation_middle. }
      destruct (IH HS' _ HP') as (f & -> & Hf & Hs).
      exists (t :: f). split; [reflexivity|]. split.
      * eapply perm_trans; [apply perm_skip, Hf | apply Permutation_middle].
      * constructor; [assumption|].
        apply Forall_forall. intros y Hy.
        rewrite Forall_forall in HF.
        apply node_compare_some. apply HF. apply in_or_app. left.
        apply in_map. assumption.
    + apply Permutation_cons_inv in HP.
      destruct l as [|y l].
      * apply Permutation_nil in HP. destruct g; [|discriminate].
        exists []. repeat split; constructor.
      * exfalso. inversion HF as [|? ? Hy _]; subst.
        apply node_compare_none in Hy. subst y.
        assert (Hin : In None (map Some g)).
        { eapply Permutation_in; [exact HP | left; reflexivity]. }
        apply in_map_iff in Hin. destruct Hin as (? & ? & _). discriminate.
Qed.

(** A sorted array of node pointers without [NULL]. *)
Lemma sorted_no_null (l : list (option Node)) :
  StronglySorted (fun a b => node_compare a b <= 0) l ->
  forall g, Permutation l (map Some g) ->
  exists f, l = map Some f /\ Permutation f g /\ freq_sorted f.
Proof.
  intros HS g HP.
  destruct (Permutation_map_inv _ _ HP) as (f & -> & Hf).
  exists f. split; [reflexivity|]. split; [symmetry; assumption|].
  clear HP Hf. induction f as [|t f IH].
  - constructor.
  - inversion HS as [|? ? HS' HF]; subst. constructor; [apply IH; assumption|].
    apply Forall_forall. intros y Hy. rewrite Forall_forall in HF.
    apply node_compare_some, HF, in_map, Hy.
Qed.

Lemma firstn_forest_cells (f : list Node) (k : nat) :
  firstn (List.length f) (forest_cells f k) = map Some f.
Proof.
  unfold forest_cells. rewrite firstn_app, length_map, Nat.sub_diag. simpl.
  rewrite app_nil_r. apply firstn_all2. rewrite length_map. lia.
Qed.

Lemma skipn_forest_cells (f : list Node) (k : nat) :
  skipn (List.length f) (forest_cells f k) = repeat None k.
Proof.
  unfold forest_cells. rewrite skipn_app, length_map, Nat.sub_diag. simpl.
  rewrite skipn_all2 by (rewrite length_map; lia). reflexivity.
Qed.

Lemma array_set_app_repeat (pre : list (option Node)) (k : nat) (v : option Node) :
  array_set (pre ++ repeat None (S k)) (List.length pre) v = (pre ++ [v]) ++ repeat None k.
Proof.
  induction pre as [|x pre IH]; simpl.
  - reflexivity.
  - f_equal. exact IH.
Qed.

Lemma fill_nodes_cells (entries : list MessageChar) :
  forall (pre : list Node) (k : nat),
    (List.length entries <= k)%nat ->
    fill_nodes entries (forest_cells pre k) (List.length pre)
    = forest_cells (pre ++ map (fun e => create_node (mc_c e) (mc_freq e)) entries)
        (k - List.length entries).
Proof.
  induction entries as [|e rest IH]; intros pre k Hk; simpl.
  - now rewrite app_nil_r, Nat.sub_0_r.
  - simpl in Hk. destruct k as [|k]; [lia|].
    unfold forest_cells at 1.
    replace (List.length pre) with (List.length (map Some pre)) at 1 by apply length_map.
    rewrite array_set_app_repeat.
    replace (map Some pre ++ [Some (create_node (mc_c e) (mc_freq e))])
      with (map Some (pre ++ [create_node (mc_c e) (mc_freq e)]))
      by (rewrite map_app; reflexivity).
    fold (forest_cells (pre ++ [create_node (mc_c e) (mc_freq e)]) k).
    replace (S (List.length pre))
      with (List.length (pre ++ [create_node (mc_c e) (mc_freq e)]))
      by (rewrite length_app; simpl; lia).
    rewrite IH by lia. rewrite <- app_assoc. reflexivity.
Qed.

Lemma fill_nodes_initial (message_info : MessageInfo) (k : nat) :
  (List.length (chars message_info) <= k)%nat ->
  fill_nodes (chars message_info) (repeat None k) 0
  = forest_cells (initial_leaves message_info) (k - List.length (chars message_info)).
Proof.
  intros Hk. apply (fill_nodes_cells (chars message_info) [] k Hk).
Qed.

Section Builder.

Variable qsort : (option Node -> option Node -> Z) -> list (option Node) -> list (option Node).
Hypothesis qsort_sorts : sorts qsort.

Lemma sort_nodes_forest (f : list Node) (k : nat) :
  exists f', sort_nodes qsort (forest_cells f k) (List.length f) = forest_cells f' k
             /\ Permutation f' f /\ freq_sorted f'.
Proof.
  unfold sort_nodes. rewrite firstn_forest_cells, skipn_forest_cells.
  destruct (sorted_no_null _ (sorts_strongly qsort (map Some f) qsort_sorts) f)
    as (f' & Heq & Hp & Hs).
  - apply qsort_sorts.
  - exists f'. rewrite Heq. auto.
Qed.

Lemma merge_nodes_step (n : nat) (t1 t2 : Node) (cells : list (option Node)) :
  merge_nodes qsort (S (S n)) (Some t1 :: Some t2 :: cells)
  = merge_nodes qsort (S n)
      (sort_nodes qsort (Some (create_parent_node t1 t2) :: None :: cells) (S (S n))).
Proof. reflexivity. Qed.

(** The rule of the merging loop: a property of the list of trees that does
    not depend on their order and that survives the merge of the two first
    trees of a sorted list holds of the single tree that is left. *)
Lemma merge_nodes_rule (P : list Node -> Prop) :
  (forall f f', Permutation f f' -> P f -> P f') ->
  (forall t1 t2 rest, freq_sorted (t1 :: t2 :: rest) -> P (t1 :: t2 :: rest) ->
                      P (create_parent_node t1 t2 :: rest)) ->
  forall (n : nat) (f : list Node) (k : nat),
    List.length f = S n -> freq_sorted f -> P f ->
    exists root k', merge_nodes qsort (S n) (forest_cells f k) = Done (forest_cells [root] k')
                    /\ P [root].
Proof.
  intros Hperm Hstep. induction n as [|n IH]; intros f k Hlen Hs HP.
  - destruct f as [|t [|? ?]]; try discriminate. exists t, k. auto.
  - destruct f as [|t1 [|t2 rest]]; try discriminate.
    simpl in Hlen.
    unfold forest_cells at 1. cbn [map app]. rewrite merge_nodes_step.
    set (p := create_parent_node t1 t2).
    assert (Hsort : exists f', sort_nodes qsort (Some p :: None :: map Some rest ++ repeat None k)
                                 (S (S n)) = forest_cells f' (S k)
                               /\ Permutation f' (p :: rest) /\ freq_sorted f').
    { unfold sort_nodes.
      assert (Hl : List.length (map Some rest) = n) by (rewrite length_map; lia).
      cbn [firstn skipn]. rewrite <- Hl.
      rewrite firstn_app, Nat.sub_diag, firstn_all. cbn [firstn]. rewrite app_nil_r.
      rewrite skipn_app, Nat.sub_diag, skipn_all. cbn [skipn app].
      destruct (sorted_null_last _
                  (sorts_strongly qsort (Some p :: None :: map Some rest) qsort_sorts)
                  (p :: rest)) as (f' & Heq & Hp & Hs').
      - eapply perm_trans; [apply qsort_sorts | apply perm_swap].
      - exists f'. rewrite Heq. unfold forest_cells. rewrite <- app_assoc. auto. }
    destruct Hsort as (f' & -> & Hp & Hs').
    apply IH.
    + apply Permutation_length in Hp. simpl in Hp. lia.
    + assumption.
    + apply Hperm with (f := p :: rest); [symmetry; assumption|].
      apply Hstep; assumption.
Qed.

(** The rule of [generate_tree]: for at least one entry the builder returns
    a tree, of which every property kept by the merging loop holds. *)
Lemma generate_tree_rule (P : list Node -> Prop) (message_info : MessageInfo) :
  (forall f f', Permutation f f' -> P f -> P f') ->
  (forall t1 t2 rest, freq_sorted (t1 :: t2 :: rest) -> P (t1 :: t2 :: rest) ->
                      P (create_parent_node t1 t2 :: rest)) ->
  1 <= mi_length message_info <= 2 ^ 59 ->
  P (initial_leaves message_info) ->
  exists root, generate_tree qsort message_info = Done (Some root) /\ P [root].
Proof.
  intros Hperm Hstep Hlen HP. unfold generate_tree.
  assert (Hmax : size_t (2 * mi_length message_info - 1) = 2 * mi_length message_info - 1).
  { apply size_t_small. unfold SIZE_MAX, SIZE_WIDTH. lia. }
  rewrite Hmax.
  assert (Hreq : malloc_refuses (size_t ((2 * mi_length message_info - 1) * SIZEOF_PTR)) = false).
  { unfold malloc_refuses, SIZEOF_PTR. rewrite size_t_small.
    - apply Z.ltb_ge. unfold PTRDIFF_MAX, SIZE_WIDTH. lia.
    - unfold SIZE_MAX, SIZE_WIDTH. lia. }
  rewrite Hreq.
  unfold mi_length in *.
  set (L := List.length (chars message_info)) in *.
  replace (Z.to_nat (2 * Z.of_nat L - 1)) with (2 * L - 1)%nat by lia.
  rewrite fill_nodes_initial by (fold L; lia). fold L.
  assert (HL : List.length (initial_leaves message_info) = L).
  { unfold initial_leaves. apply length_map. }
  destruct (sort_nodes_forest (initial_leaves message_info) (2 * L - 1 - L))
    as (f0 & Hsort & Hp0 & Hs0).
  rewrite HL in Hsort. rewrite Hsort.
  assert (Hl0 : List.length f0 = S (L - 1)).
  { apply Permutation_length in Hp0. lia. }
  destruct (merge_nodes_rule P Hperm Hstep (L - 1) f0 (2 * L - 1 - L) Hl0 Hs0)
    as (root & k' & Hm & Hroot).
  - apply Hperm with (f := initial_leaves message_info); [symmetry|]; assumption.
  - replace (S (L - 1)) with L in Hm by lia. rewrite Hm. exists root. auto.
Qed.

End Builder.

(** ** The nodes of a tree *)

Lemma subtrees_nodes (node : Node) :
  forall p q, map snd (subtrees node p) = map snd (subtrees node q).
Proof.
  induction node as [c f code | l c f code IHl | r c f code IHr | l r c f code IHl IHr]
    using Node_induction; intros p q; simpl.
  - reflexivity.
  - rewrite app_nil_r. f_equal. rewrite app_nil_r. apply IHl.
  - f_equal. apply IHr.
  - f_equal. rewrite !map_app. f_equal; [apply IHl | apply IHr].
Qed.

Lemma subtrees_root (node : Node) (p : list Z) : In (p, node) (subtrees node p).
Proof. destruct node. left. reflexivity. Qed.

Lemma leaf_nodes_parent (t1 t2 : Node) :
  leaf_nodes (create_parent_node t1 t2) = leaf_nodes t1 ++ leaf_nodes t2.
Proof.
  unfold leaf_nodes. simpl. rewrite map_app, filter_app.
  now rewrite (subtrees_nodes t1 [CHAR_0] []), (subtrees_nodes t2 [CHAR_1] []).
Qed.

Lemma inner_nodes_parent (t1 t2 : Node) :
  inner_nodes (create_parent_node t1 t2)
  = create_parent_node t1 t2 :: inner_nodes t1 ++ inner_nodes t2.
Proof.
  unfold inner_nodes. simpl. rewrite map_app, filter_app.
  now rewrite (subtrees_nodes t1 [CHAR_0] []), (subtrees_nodes t2 [CHAR_1] []).
Qed.

Lemma leaf_nodes_leaf (c f : Z) : leaf_nodes (create_node c f) = [create_node c f].
Proof. reflexivity. Qed.

Lemma inner_nodes_leaf (c f : Z) : inner_nodes (create_node c f) = [].
Proof. reflexivity. Qed.

Lemma leaf_codes_leaf (c f : Z) (code : option (list Z)) (p : list Z) :
  leaf_codes (mkNode None None c f code) p = [(c, p)].
Proof. reflexivity. Qed.

Lemma leaf_codes_left (l : Node) (c f : Z) (code : option (list Z)) (p : list Z) :
  leaf_codes (mkNode (Some l) None c f code) p = leaf_codes l (p ++ [CHAR_0]).
Proof. unfold leaf_codes. simpl. now rewrite app_nil_r. Qed.

Lemma leaf_codes_right (r : Node) (c f : Z) (code : option (list Z)) (p : list Z) :
  leaf_codes (mkNode None (Some r) c f code) p = leaf_codes r (p ++ [CHAR_1]).
Proof. reflexivity. Qed.

Lemma leaf_codes_both (l r : Node) (c f : Z) (code : option (list Z)) (p : list Z) :
  leaf_codes (mkNode (Some l) (Some r) c f code) p
  = leaf_codes l (p ++ [CHAR_0]) ++ leaf_codes r (p ++ [CHAR_1]).
Proof. unfold leaf_codes. simpl. now rewrite filter_app, map_app. Qed.

Lemma is_leaf_annotate (node : Node) (p : list Z) : is_leaf (annotate node p) = is_leaf node.
Proof. destruct node as [[l|] [r|] c f code]; reflexivity. Qed.

Lemma n_c_annotate (node : Node) (p : list Z) : n_c (annotate node p) = n_c node.
Proof. destruct node as [[l|] [r|] c f code]; reflexivity. Qed.

Lemma leaf_codes_annotate (node : Node) :
  forall p q, leaf_codes (annotate node q) p = leaf_codes node p.
Proof.
  induction node as [c f code | l c f code IHl | r c f code IHr | l r c f code IHl IHr]
    using Node_induction; intros p q; simpl.
  - reflexivity.
  - rewrite !leaf_codes_left. apply IHl.
  - rewrite !leaf_codes_right. apply IHr.
  - rewrite !leaf_codes_both. now rewrite IHl, IHr.
Qed.

Lemma buffer_store_inv (code_buffer : list Z) (i : nat) (ch : Z) (result : list Z) :
  buffer_store code_buffer i ch = Done result ->
  (i < List.length code_buffer)%nat /\ result = array_set code_buffer i ch.
Proof.
  unfold buffer_store. destruct (Nat.ltb_spec i (List.length code_buffer)) as [Hlt | Hge];
    intros Heq.
  - injection Heq as <-. auto.
  - discriminate.
Qed.

Lemma buffer_store_done (code_buffer : list Z) (i : nat) (ch : Z) :
  (i < List.length code_buffer)%nat ->
  buffer_store code_buffer i ch = Done (array_set code_buffer i ch).
Proof.
  unfold buffer_store. destruct (Nat.ltb_spec i (List.length code_buffer)); [reflexivity | lia].
Qed.

Lemma length_array_set {A : Type} (l : list A) (i : nat) (v : A) :
  List.length (array_set l i v) = List.length l.
Proof.
  revert i. induction l as [|x l IH]; intros [|i]; simpl; auto.
Qed.

Lemma firstn_array_set_above {A : Type} (l : list A) (i j : nat) (v : A) :
  (j <= i)%nat -> firstn j (array_set l i v) = firstn j l.
Proof.
  revert i j. induction l as [|x l IH]; intros [|i] [|j] Hij; simpl; try reflexivity; try lia.
  f_equal. apply IH. lia.
Qed.

Lemma firstn_array_set_last {A : Type} (l : list A) (i : nat) (v : A) :
  (i < List.length l)%nat -> firstn (S i) (array_set l i v) = firstn i l ++ [v].
Proof.
  revert i. induction l as [|x l IH]; intros [|i] Hi; simpl in *; try lia.
  - reflexivity.
  - f_equal. apply IH. lia.
Qed.

(** The two stores made before a child is visited: the code of the child is
    the code of the node followed by the bit. *)
Lemma child_code_buffer (code_buffer : list Z) (depth : nat) (bit : Z) :
  (depth + 1 < List.length code_buffer)%nat ->
  firstn (depth + 1) (array_set (array_set code_buffer depth bit) (depth + 1) 0)
  = firstn depth code_buffer ++ [bit].
Proof.
  intros H. rewrite firstn_array_set_above by lia.
  rewrite Nat.add_1_r. apply firstn_array_set_last. lia.
Qed.

(** The visit of a child by [_generate_huffman]. *)
Lemma visit_child_done (child : Node) :
  (forall message_info code_buffer depth r,
      _generate_huffman message_info child code_buffer depth = Done r ->
      fst (fst r) = {| chars := store_codes (chars message_info)
                                  (leaf_codes child (firstn depth code_buffer)) |}
      /\ snd (fst r) = annotate child (firstn depth code_buffer)
      /\ List.length (snd r) = List.length code_buffer
      /\ firstn depth (snd r) = firstn depth code_buffer) ->
  forall message_info code_buffer depth bit r,
    (code_buffer <- buffer_store code_buffer depth bit ;;
     code_buffer <- buffer_store code_buffer (depth + 1) 0 ;;
     r <- _generate_huffman message_info child code_buffer (depth + 1) ;;
     Done (fst (fst r), Some (snd (fst r)), snd r)) = Done r ->
    fst (fst r) = {| chars := store_codes (chars message_info)
                                (leaf_codes child (firstn depth code_buffer ++ [bit])) |}
    /\ snd (fst r) = Some (annotate child (firstn depth code_buffer ++ [bit]))
    /\ List.length (snd r) = List.length code_buffer
    /\ firstn depth (snd r) = firstn depth code_buffer.
Proof.
  intros IH message_info code_buffer depth bit r H.
  destruct (buffer_store code_buffer depth bit) as [b1|] eqn:E1; [|discriminate].
  cbn [bind] in H.
  destruct (buffer_store b1 (depth + 1) 0) as [b2|] eqn:E2; [|discriminate].
  cbn [bind] in H.
  destruct (_generate_huffman message_info child b2 (depth + 1)) as [r'|] eqn:E3;
    [|discriminate].
  cbn [bind] in H. injection H as <-. cbn [fst snd].
  apply buffer_store_inv in E1, E2. destruct E1 as [H1 ->], E2 as [H2 ->].
  rewrite length_array_set in H2.
  destruct (IH _ _ _ _ E3) as (Hi & Hn & Hl & Hf).
  rewrite (child_code_buffer code_buffer depth bit H2) in Hi, Hn.
  rewrite !length_array_set in Hl.
  split; [exact Hi|]. split; [now rewrite Hn|]. split; [exact Hl|].
  assert (Hf' : firstn depth (firstn (depth + 1) (snd r'))
                = firstn depth (firstn (depth + 1)
                    (array_set (array_set code_buffer depth bit) (depth + 1) 0)))
    by now rewrite Hf.
  rewrite !firstn_firstn, Nat.min_l in Hf' by lia.
  rewrite Hf', !firstn_array_set_above by lia. reflexivity.
Qed.

(** When [_generate_huffman] returns, it has stored the codes of the leaves
    in the order of the traversal, it returns the tree with every code
    stored, and the first [depth] characters of the buffer are unchanged. *)
Lemma generate_huffman_nodes (node : Node) :
  forall message_info code_buffer depth r,
    _generate_huffman message_info node code_buffer depth = Done r ->
    fst (fst r) = {| chars := store_codes (chars message_info)
                                (leaf_codes node (firstn depth code_buffer)) |}
    /\ snd (fst r) = annotate node (firstn depth code_buffer)
    /\ List.length (snd r) = List.length code_buffer
    /\ firstn depth (snd r) = firstn depth code_buffer.
Proof.
  induction node as [c f code | l c f code IHl | r0 c f code IHr | l r0 c f code IHl IHr]
    using Node_induction; intros [es] code_buffer depth r H; cbn [_generate_huffman] in H.
  - cbn [bind] in H. injection H as <-. cbn [fst snd]. auto.
  - match type of H with bind ?m _ = _ => destruct m as [r1|] eqn:E1 end; [|discriminate].
    cbn [bind] in H. injection H as <-. cbn [fst snd].
    destruct (visit_child_done l IHl _ _ _ _ _ E1) as (Hi & Hn & Hl & Hf).
    rewrite Hi, Hn, leaf_codes_left. auto.
  - cbn [bind fst snd] in H.
    match type of H with bind ?m _ = _ => destruct m as [r2|] eqn:E2 end; [|discriminate].
    cbn [bind] in H. injection H as <-. cbn [fst snd].
    destruct (visit_child_done r0 IHr _ _ _ _ _ E2) as (Hi & Hn & Hl & Hf).
    rewrite Hi, Hn, leaf_codes_right. auto.
  - match type of H with bind ?m _ = _ => destruct m as [r1|] eqn:E1 end; [|discriminate].
    cbn [bind] in H.
    match type of H with bind ?m _ = _ => destruct m as [r2|] eqn:E2 end; [|discriminate].
    cbn [bind] in H. injection H as <-. cbn [fst snd].
    destruct (visit_child_done l IHl _ _ _ _ _ E1) as (Hi1 & Hn1 & Hl1 & Hf1).
    destruct (visit_child_done r0 IHr _ _ _ _ _ E2) as (Hi2 & Hn2 & Hl2 & Hf2).
    rewrite Hf1 in Hi2, Hn2. rewrite Hi2, Hn1, Hn2, Hi1, leaf_codes_both. cbn [chars].
    unfold store_codes. rewrite fold_left_app.
    split; [reflexivity|]. split; [reflexivity|]. split; congruence.
Qed.

(** [_generate_huffman] returns when the buffer is longer than the depth of
    the deepest leaf. *)
Lemma generate_huffman_returns (node : Node) :
  forall message_info code_buffer depth,
    (depth + height node < List.length code_buffer)%nat ->
    exists r, _generate_huffman message_info node code_buffer depth = Done r.
Proof.
  assert (Hchild : forall child,
    (forall message_info code_buffer depth,
        (depth + height child < List.length code_buffer)%nat ->
        exists r, _generate_huffman message_info child code_buffer depth = Done r) ->
    forall message_info code_buffer depth bit,
      (depth + 1 + height child < List.length code_buffer)%nat ->
      exists r,
        (code_buffer <- buffer_store code_buffer depth bit ;;
         code_buffer <- buffer_store code_buffer (depth + 1) 0 ;;
         r <- _generate_huffman message_info child code_buffer (depth + 1) ;;
         Done (fst (fst r), Some (snd (fst r)), snd r)) = Done r
        /\ List.length (snd r) = List.length code_buffer).
  { intros child IH message_info code_buffer depth bit Hb.
    rewrite buffer_store_done by lia. cbn [bind].
    rewrite buffer_store_done by (rewrite length_array_set; lia). cbn [bind].
    destruct (IH message_info (array_set (array_set code_buffer depth bit) (depth + 1) 0)
                (depth + 1)%nat) as (r & Hr).
    { rewrite !length_array_set. lia. }
    rewrite Hr. cbn [bind]. eexists. split; [reflexivity|]. cbn [snd].
    destruct (generate_huffman_nodes _ _ _ _ _ Hr) as (_ & _ & Hl & _).
    now rewrite Hl, !length_array_set. }
  induction node as [c f code | l c f code IHl | r0 c f code IHr | l r0 c f code IHl IHr]
    using Node_induction; intros message_info code_buffer depth Hb;
    cbn [_generate_huffman]; cbn [height] in Hb.
  - cbn [bind]. eauto.
  - destruct (Hchild l IHl message_info code_buffer depth CHAR_0) as (r1 & -> & _); [lia|].
    cbn [bind]. eauto.
  - cbn [bind fst snd].
    destruct (Hchild r0 IHr message_info code_buffer depth CHAR_1) as (r2 & -> & _); [lia|].
    cbn [bind]. eauto.
  - destruct (Hchild l IHl message_info code_buffer depth CHAR_0) as (r1 & -> & Hl1); [lia|].
    cbn [bind].
    destruct (Hchild r0 IHr (fst (fst r1)) (snd r1) depth CHAR_1) as (r2 & -> & _); [lia|].
    cbn [bind]. eauto.
Qed.

(** ** The decoder along the paths of the tree *)

Lemma leaf_codes_prefix (node : Node) :
  forall p c code, In (c, code) (leaf_codes node p) -> exists s, code = p ++ s.
Proof.
  induction node as [c0 f code0 | l c0 f code0 IHl | r c0 f code0 IHr | l r c0 f code0 IHl IHr]
    using Node_induction; intros p c code Hin.
  - rewrite leaf_codes_leaf in Hin. destruct Hin as [Heq | []]. injection Heq as <- <-.
    exists []. now rewrite app_nil_r.
  - rewrite leaf_codes_left in Hin. destruct (IHl _ _ _ Hin) as (s & ->).
    exists (CHAR_0 :: s). now rewrite <- app_assoc.
  - rewrite leaf_codes_right in Hin. destruct (IHr _ _ _ Hin) as (s & ->).
    exists (CHAR_1 :: s). now rewrite <- app_assoc.
  - rewrite leaf_codes_both in Hin. apply in_app_or in Hin. destruct Hin as [Hin | Hin].
    + destruct (IHl _ _ _ Hin) as (s & ->). exists (CHAR_0 :: s). now rewrite <- app_assoc.
    + destruct (IHr _ _ _ Hin) as (s & ->). exists (CHAR_1 :: s). now rewrite <- app_assoc.
Qed.

(** A leaf code of [node] below the path [p] is [p] followed by [CHAR_0] and
    a leaf code of the left child, or by [CHAR_1] and one of the right. *)
Lemma leaf_codes_child (node : Node) (p : list Z) (c : Z) (code : list Z) :
  In (c, code) (leaf_codes node p) -> is_leaf node = false ->
  exists bit child,
    (if bit =? CHAR_0 then n_left node else n_right node) = Some child
    /\ In (c, code) (leaf_codes child (p ++ [bit])).
Proof.
  destruct node as [[l|] [r|] c0 f code0]; intros Hin Hl; try discriminate.
  - rewrite leaf_codes_both in Hin. apply in_app_or in Hin. destruct Hin as [Hin | Hin].
    + exists CHAR_0, l. auto.
    + exists CHAR_1, r. auto.
  - rewrite leaf_codes_left in Hin. exists CHAR_0, l. auto.
  - rewrite leaf_codes_right in Hin. exists CHAR_1, r. auto.
Qed.

Lemma leaf_codes_is_leaf (node : Node) (p : list Z) (c : Z) (code : list Z) :
  In (c, code) (leaf_codes node p) -> is_leaf node = true -> c = n_c node /\ code = p.
Proof.
  destruct node as [[l|] [r|] c0 f code0]; intros Hin Hl; try discriminate.
  rewrite leaf_codes_leaf in Hin. destruct Hin as [Heq | []]. injection Heq as <- <-. auto.
Qed.

Lemma decode_loop_step (bit : Z) (rest : list Z) (root cursor : option Node)
  (node child : Node) (b : buffer) :
  cursor_node root cursor = Some node ->
  (if bit =? CHAR_0 then n_left node else n_right node) = Some child ->
  decode_loop (bit :: rest) root cursor b
  = if is_leaf child
    then b <- put_char b (n_c child) ;; decode_loop rest root None b
    else decode_loop rest root (Some child) b.
Proof.
  intros Hc Hch. cbn [decode_loop]. rewrite Hc, Hch. reflexivity.
Qed.

(** From a node that is not a leaf, the rest of a leaf code takes the
    cursor to the leaf: its character is emitted and the cursor is back at
    the root. *)
Lemma decode_loop_code (node : Node) :
  forall p c code,
    In (c, code) (leaf_codes node p) -> is_leaf node = false ->
    exists s, code = p ++ s /\ s <> []
      /\ forall root cursor rest b,
           cursor_node root cursor = Some node ->
           decode_loop (s ++ rest) root cursor b
           = b' <- put_char b c ;; decode_loop rest root None b'.
Proof.
  assert (Hchild : forall child,
    (forall p c code, In (c, code) (leaf_codes child p) -> is_leaf child = false ->
       exists s, code = p ++ s /\ s <> []
         /\ forall root cursor rest b,
              cursor_node root cursor = Some child ->
              decode_loop (s ++ rest) root cursor b
              = b' <- put_char b c ;; decode_loop rest root None b') ->
    forall node bit p c code,
      (if bit =? CHAR_0 then n_left node else n_right node) = Some child ->
      In (c, code) (leaf_codes child (p ++ [bit])) ->
      exists s, code = p ++ s /\ s <> []
        /\ forall root cursor rest b,
             cursor_node root cursor = Some node ->
             decode_loop (s ++ rest) root cursor b
             = b' <- put_char b c ;; decode_loop rest root None b').
  { intros child IH nd bit p c code Hch Hin.
    destruct (is_leaf child) eqn:El.
    - destruct (leaf_codes_is_leaf _ _ _ _ Hin El) as [-> ->].
      exists [bit]. split; [reflexivity|]. split; [discriminate|].
      intros root cursor rest b Hc. cbn [app].
      rewrite (decode_loop_step _ _ _ _ _ _ _ Hc Hch), El. reflexivity.
    - destruct (IH _ _ _ Hin eq_refl) as (s & -> & Hs & Hdec).
      exists (bit :: s). split; [now rewrite <- app_assoc|]. split; [discriminate|].
      intros root cursor rest b Hc. cbn [app].
      rewrite (decode_loop_step _ _ _ _ _ _ _ Hc Hch), El.
      apply Hdec. reflexivity. }
  induction node as [c0 f code0 | l c0 f code0 IHl | r c0 f code0 IHr | l r c0 f code0 IHl IHr]
    using Node_induction; intros p c code Hin Hl; try discriminate.
  - rewrite leaf_codes_left in Hin. apply (Hchild l IHl _ CHAR_0); auto.
  - rewrite leaf_codes_right in Hin. apply (Hchild r IHr _ CHAR_1); auto.
  - rewrite leaf_codes_both in Hin. apply in_app_or in Hin. destruct Hin as [Hin | Hin].
    + apply (Hchild l IHl _ CHAR_0); auto.
    + apply (Hchild r IHr _ CHAR_1); auto.
Qed.

(** A proper, non-empty part of the rest of a leaf code leaves the cursor
    on a node below the root, and nothing is emitted. *)
Lemma decode_loop_cut (node : Node) :
  forall p c q q',
    In (c, p ++ q ++ q') (leaf_codes node p) -> q <> [] -> q' <> [] ->
    forall root cursor b,
      cursor_node root cursor = Some node ->
      exists m, decode_loop q root cursor b = Done (Some m, b).
Proof.
  assert (Hchild : forall child,
    (forall p c q q',
       In (c, p ++ q ++ q') (leaf_codes child p) -> q <> [] -> q' <> [] ->
       forall root cursor b, cursor_node root cursor = Some child ->
       exists m, decode_loop q root cursor b = Done (Some m, b)) ->
    forall node bit p c q q',
      (if bit =? CHAR_0 then n_left node else n_right node) = Some child ->
      In (c, p ++ q ++ q') (leaf_codes child (p ++ [bit])) -> q <> [] -> q' <> [] ->
      forall root cursor b, cursor_node root cursor = Some node ->
      exists m, decode_loop q root cursor b = Done (Some m, b)).
  { intros child IH nd bit p c q q' Hch Hin Hq Hq' root cursor b Hc.
    destruct (leaf_codes_prefix _ _ _ _ Hin) as (s & Hs).
    rewrite <- app_assoc in Hs. apply app_inv_head in Hs.
    destruct q as [|x q1]; [contradiction|]. cbn [app] in Hs. injection Hs as -> Hs.
    rewrite (decode_loop_step _ _ _ _ _ _ _ Hc Hch).
    destruct (is_leaf child) eqn:El.
    - destruct (leaf_codes_is_leaf _ _ _ _ Hin El) as [_ Heq].
      apply app_inv_head in Heq. cbn [app] in Heq. injection Heq as Heq.
      destruct q1; [|discriminate]. simpl in Heq. contradiction.
    - destruct q1 as [|y q2].
      + exists child. reflexivity.
      + apply (IH (p ++ [bit]) c (y :: q2) q'); auto; [|discriminate].
        rewrite <- app_assoc. exact Hin. }
  induction node as [c0 f code0 | l c0 f code0 IHl | r c0 f code0 IHr | l r c0 f code0 IHl IHr]
    using Node_induction; intros p c q q' Hin Hq Hq' root cursor b Hc.
  - rewrite leaf_codes_leaf in Hin. destruct Hin as [Heq | []]. injection Heq as _ Heq.
    rewrite <- (app_nil_r p) in Heq at 1. apply app_inv_head in Heq.
    destruct q; [contradiction | discriminate].
  - rewrite leaf_codes_left in Hin.
    apply (Hchild l IHl (mkNode (Some l) None c0 f code0) CHAR_0 p c q q'); auto.
  - rewrite leaf_codes_right in Hin.
    apply (Hchild r IHr (mkNode None (Some r) c0 f code0) CHAR_1 p c q q'); auto.
  - rewrite leaf_codes_both in Hin. apply in_app_or in Hin. destruct Hin as [Hin | Hin].
    + apply (Hchild l IHl (mkNode (Some l) (Some r) c0 f code0) CHAR_0 p c q q'); auto.
    + apply (Hchild r IHr (mkNode (Some l) (Some r) c0 f code0) CHAR_1 p c q q'); auto.
Qed.

(** ** The table of codes *)

Lemma lookup_store_same (entries : list MessageChar) (c : Z) (code : list Z) :
  lookup_code entries c <> None ->
  lookup_code (store_code entries c code) c = Some (Some code).
Proof.
  induction entries as [|e rest IH]; simpl; intros H.
  - contradiction.
  - destruct (mc_c e =? c) eqn:E; simpl; rewrite E; [reflexivity | apply IH, H].
Qed.

Lemma lookup_store_other (entries : list MessageChar) (c c' : Z) (code : list Z) :
  c' <> c -> lookup_code (store_code entries c code) c' = lookup_code entries c'.
Proof.
  intros Hne. induction entries as [|e rest IH]; simpl.
  - reflexivity.
  - destruct (mc_c e =? c) eqn:E; simpl.
    + apply Z.eqb_eq in E. rewrite E.
      destruct (c =? c') eqn:E'; [apply Z.eqb_eq in E'; congruence | reflexivity].
    + now rewrite IH.
Qed.

Lemma lookup_store_none (entries : list MessageChar) (c c' : Z) (code : list Z) :
  lookup_code (store_code entries c code) c' = None <-> lookup_code entries c' = None.
Proof.
  induction entries as [|e rest IH]; simpl.
  - tauto.
  - destruct (mc_c e =? c) eqn:E; simpl.
    + destruct (mc_c e =? c'); [split; discriminate | tauto].
    + destruct (mc_c e =? c'); [split; discriminate | exact IH].
Qed.

(** After the codes of the leaves are stored, a character that has an entry
    and a leaf has one of the codes of its leaves. *)
Lemma lookup_store_codes (codes : list (Z * list Z)) :
  forall entries c,
    lookup_code entries c <> None ->
    (exists code, In (c, code) codes) ->
    exists code, In (c, code) codes
                 /\ lookup_code (store_codes entries codes) c = Some (Some code).
Proof.
  induction codes as [|[c0 code0] codes IH] using rev_ind; intros entries c Hl [code Hin].
  - contradiction.
  - unfold store_codes. rewrite fold_left_app. cbn [fold_left fst snd].
    fold (store_codes entries codes).
    assert (Hl' : lookup_code (store_codes entries codes) c <> None).
    { clear -Hl. revert entries Hl. induction codes as [|[c1 code1] codes IH]; intros entries Hl.
      - exact Hl.
      - cbn [store_codes fold_left fst snd]. apply IH. intros H. apply Hl.
        now apply lookup_store_none in H. }
    destruct (Z.eq_dec c c0) as [-> | Hne].
    + exists code0. split; [apply in_or_app; right; left; reflexivity|].
      apply lookup_store_same, Hl'.
    + rewrite lookup_store_other by assumption.
      apply in_app_or in Hin. destruct Hin as [Hin | [Heq | []]].
      * destruct (IH entries c Hl (ex_intro _ code Hin)) as (code' & Hin' & Hlk).
        exists code'. split; [apply in_or_app; left; assumption | assumption].
      * injection Heq as Heq _. congruence.
Qed.

(** Every code found in the table after the codes of the leaves are stored
    was there before or is the code of a leaf with that character. *)
Lemma store_codes_origin (codes : list (Z * list Z)) :
  forall entries e code,
    In e (store_codes entries codes) -> mc_code e = Some code ->
    In (mc_c e, code) codes
    \/ exists e0, In e0 entries /\ mc_c e0 = mc_c e /\ mc_code e0 = Some code.
Proof.
  assert (Hone : forall entries c code0 e,
             In e (store_code entries c code0) ->
             In e entries
             \/ exists e0, In e0 entries /\ mc_c e0 = c
                           /\ e = {| mc_c := mc_c e0; mc_freq := mc_freq e0; mc_code := Some code0 |}).
  { induction entries as [|e1 rest IH]; simpl; intros c code0 e Hin.
    - contradiction.
    - destruct (mc_c e1 =? c) eqn:E.
      + destruct Hin as [<- | Hin].
        * right. exists e1. apply Z.eqb_eq in E. auto.
        * auto.
      + destruct Hin as [<- | Hin]; [auto|].
        destruct (IH _ _ _ Hin) as [H | (e0 & H0 & H1 & H2)]; [auto|].
        right. exists e0. auto. }
  induction codes as [|[c0 code0] codes IH] using rev_ind; intros entries e code Hin Hcode.
  - right. exists e. auto.
  - unfold store_codes in Hin. rewrite fold_left_app in Hin. cbn [fold_left fst snd] in Hin.
    fold (store_codes entries codes) in Hin.
    destruct (Hone _ _ _ _ Hin) as [H | (e0 & H0 & H1 & ->)].
    + destruct (IH _ _ _ H Hcode) as [H' | H']; [left; apply in_or_app; auto | auto].
    + cbn [mc_c mc_code] in *. injection Hcode as <-.
      left. apply in_or_app. right. left. now rewrite H1.
Qed.

(** Storing codes changes neither the characters nor the frequencies. *)
Lemma store_codes_keys (codes : list (Z * list Z)) (entries : list MessageChar) :
  map (fun e => (mc_c e, mc_freq e)) (store_codes entries codes)
  = map (fun e => (mc_c e, mc_freq e)) entries.
Proof.
  revert entries. induction codes as [|[c0 code0] codes IH]; intros entries.
  - reflexivity.
  - cbn [store_codes fold_left fst snd]. fold (store_codes (store_code entries c0 code0) codes).
    rewrite IH. clear IH. induction entries as [|e rest IH]; simpl.
    + reflexivity.
    + destruct (mc_c e =? c0); simpl; [reflexivity | now rewrite IH].
Qed.

(** ** The output buffers *)

Lemma output_buffer_ok (s : list Z) : buffer_ok (output_buffer s).
Proof.
  split; [reflexivity | apply size_t_range].
Qed.

(** A store that succeeds appends the character; in a buffer in order the
    index does not wrap, and the buffer stays in order. *)
Lemma put_char_done (b b' : buffer) (ch : Z) :
  put_char b ch = Done b' ->
  written b' = written b ++ [ch]
  /\ (buffer_ok b -> buffer_ok b' /\ current_idx b' = current_idx b + 1).
Proof.
  unfold put_char.
  set (cap := if current_idx b >=? capacity b then size_t (2 * capacity b) else capacity b).
  destruct (Z.ltb_spec (current_idx b) cap) as [Hlt | Hge]; [|discriminate].
  intros H. injection H as <-. cbn [written current_idx capacity].
  split; [reflexivity|]. intros [Hidx Hcap].
  assert (Hc : 0 <= cap <= SIZE_MAX).
  { unfold cap. destruct (current_idx b >=? capacity b); [apply size_t_range | exact Hcap]. }
  assert (Hs : size_t (current_idx b + 1) = current_idx b + 1) by (apply size_t_small; lia).
  split; [|exact Hs]. split; [|exact Hc].
  cbn [written current_idx]. rewrite Hs, Hidx, length_app. simpl. lia.
Qed.

Lemma put_chars_done (s : list Z) :
  forall b b',
    put_chars s b = Done b' ->
    written b' = written b ++ s /\ (buffer_ok b -> buffer_ok b').
Proof.
  induction s as [|ch s IH]; intros b b' H; simpl in H.
  - injection H as <-. rewrite app_nil_r. auto.
  - destruct (put_char b ch) as [b1|] eqn:E; [|discriminate]. cbn [bind] in H.
    destruct (put_char_done _ _ _ E) as [Hw1 Hok1].
    destruct (IH _ _ H) as [Hw Hok]. rewrite Hw, Hw1, <- app_assoc.
    split; [reflexivity|]. intros Hb. apply Hok, Hok1, Hb.
Qed.

(** With room for them all, the characters are stored without any growth. *)
Lemma put_chars_room (s : list Z) :
  forall b,
    0 <= current_idx b ->
    current_idx b + Z.of_nat (List.length s) < capacity b ->
    capacity b <= SIZE_MAX ->
    put_chars s b
    = Done {| capacity := capacity b; current_idx := current_idx b + Z.of_nat (List.length s);
              written := written b ++ s |}.
Proof.
  induction s as [|ch s IH]; intros b H0 Hroom Hmax.
  - simpl. rewrite Z.add_0_r, app_nil_r. destruct b; reflexivity.
  - cbn [put_chars List.length] in *. unfold put_char.
    destruct (Z.geb_spec (current_idx b) (capacity b)) as [Hge | Hlt]; [lia|].
    destruct (Z.ltb_spec (current_idx b) (capacity b)) as [_ | Hge]; [|lia].
    cbn [bind]. rewrite size_t_small by lia. rewrite IH; cbn [capacity current_idx written];
      try lia.
    f_equal. f_equal; [lia | now rewrite <- app_assoc].
Qed.

(** ** The encoder *)

Lemma encode_char_lookup (entries : list MessageChar) (c : Z) (b : buffer) :
  encode_char entries c b
  = match lookup_code entries c with
    | None => Done b
    | Some None => Fault
    | Some (Some code) => put_chars code b
    end.
Proof.
  induction entries as [|e rest IH]; simpl.
  - reflexivity.
  - destruct (mc_c e =? c); [reflexivity | exact IH].
Qed.

(** When the loop of the encoder ends, the codes of the characters of the
    message are stored one after the other, no code that was read is
    [NULL], and a buffer in order stays in order. *)
Lemma encode_loop_written (sg : bool) (message : list Z) (message_info : MessageInfo) :
  forall b b',
    encode_loop sg message message_info b = Done b' ->
    written b' = written b
                 ++ List.concat (map (fun x => copied_code (chars message_info) (to_char sg x)) message)
    /\ Forall (fun x => lookup_code (chars message_info) (to_char sg x) <> Some None) message
    /\ (buffer_ok b -> buffer_ok b').
Proof.
  induction message as [|x rest IH]; intros b b' H; simpl in H.
  - injection H as <-. simpl. rewrite app_nil_r. auto.
  - rewrite encode_char_lookup in H. cbn [map List.concat].
    unfold copied_code at 1.
    destruct (lookup_code (chars message_info) (to_char sg x)) as [[code|]|] eqn:E;
      simpl in H; try discriminate.
    + destruct (put_chars code b) as [b1|] eqn:E1; [|discriminate]. cbn [bind] in H.
      destruct (put_chars_done _ _ _ E1) as [Hw1 Hok1].
      destruct (IH _ _ H) as (Hw & Hf & Hok). rewrite Hw, Hw1, <- app_assoc.
      split; [reflexivity|]. split; [|intros Hb; apply Hok, Hok1, Hb].
      constructor; [rewrite E; discriminate | assumption].
    + destruct (IH _ _ H) as (Hw & Hf & Hok). rewrite Hw. simpl.
      split; [reflexivity|]. split; [|exact Hok].
      constructor; [rewrite E; discriminate | assumption].
Qed.

(** The loop of the encoder on two messages one after the other. *)
Lemma encode_loop_app (sg : bool) (m1 m2 : list Z) (message_info : MessageInfo) :
  forall b,
    encode_loop sg (m1 ++ m2) message_info b
    = b1 <- encode_loop sg m1 message_info b ;; encode_loop sg m2 message_info b1.
Proof.
  induction m1 as [|x m1 IH]; intros b; simpl.
  - reflexivity.
  - destruct (encode_char (chars message_info) (to_char sg x) b); simpl; [apply IH | reflexivity].
Qed.

(** When [huffman_encode] returns, the string has room for its terminator
    in a [size_t]. *)
Lemma huffman_encode_done (sg : bool) (message : list Z) (message_info : MessageInfo)
  (encoded : buffer) :
  huffman_encode sg message message_info = Done encoded ->
  encode_loop sg message message_info (output_buffer message) = Done encoded
  /\ Z.of_nat (List.length (written encoded)) < SIZE_MAX.
Proof.
  unfold huffman_encode. intros H.
  destruct (encode_loop sg message message_info (output_buffer message)) as [b|] eqn:E;
    [|discriminate].
  cbn [bind] in H. unfold store_terminator in H.
  destruct (Z.ltb_spec (current_idx b) (capacity b)) as [Hlt | Hge]; [|discriminate].
  injection H as <-. split; [reflexivity|].
  destruct (encode_loop_written _ _ _ _ _ E) as (_ & _ & Hok).
  destruct (Hok (output_buffer_ok message)) as [Hidx Hcap]. lia.
Qed.

(** ** The frequency table *)

Lemma nth_array_set {A : Type} (l : list A) (i j : nat) (v d : A) :
  (i < List.length l)%nat ->
  nth j (array_set l i v) d = if (j =? i)%nat then v else nth j l d.
Proof.
  revert i j. induction l as [|x l IH]; intros [|i] [|j] H; simpl in *; try lia; auto.
  apply IH. lia.
Qed.

Lemma length_zseq (n : nat) : forall start, List.length (zseq start n) = n.
Proof. induction n as [|n IH]; intros start; simpl; auto. Qed.

Lemma nth_zseq (n : nat) :
  forall start k d, (k < n)%nat -> nth k (zseq start n) d = start + Z.of_nat k.
Proof.
  induction n as [|n IH]; intros start [|k] d H; simpl; try lia.
  rewrite IH by lia. lia.
Qed.

Lemma in_zseq (n : nat) : forall start j, In j (zseq start n) <-> start <= j < start + Z.of_nat n.
Proof.
  induction n as [|n IH]; intros start j; simpl.
  - lia.
  - rewrite IH. lia.
Qed.

Lemma NoDup_zseq (n : nat) : forall start, NoDup (zseq start n).
Proof.
  induction n as [|n IH]; intros start; simpl; constructor.
  - rewrite in_zseq. lia.
  - apply IH.
Qed.

Lemma occurrences_cons (x : Z) (message : list Z) (j : Z) :
  occurrences (x :: message) j = occurrences message j + (if x =? j then 1 else 0).
Proof.
  unfold occurrences. simpl. destruct (Z.eq_dec x j) as [-> | Hne].
  - rewrite Z.eqb_refl. lia.
  - destruct (x =? j) eqn:E; [apply Z.eqb_eq in E; contradiction | lia].
Qed.

Lemma occurrences_nonneg (message : list Z) (j : Z) : 0 <= occurrences message j.
Proof. unfold occurrences. lia. Qed.

Lemma occurrences_le (message : list Z) (j : Z) :
  occurrences message j <= Z.of_nat (List.length message).
Proof.
  unfold occurrences. pose proof (count_occ_bound Z.eq_dec j message). lia.
Qed.

Lemma occurrences_pos (message : list Z) (j : Z) : 0 < occurrences message j <-> In j message.
Proof.
  unfold occurrences. rewrite (count_occ_In Z.eq_dec). lia.
Qed.

Lemma count_frequencies_nth (message : list Z) :
  forall frequencies bound,
    List.length frequencies = 256%nat ->
    Forall (fun b => 0 <= b <= 255) message ->
    (forall i, (i < 256)%nat -> 0 <= nth i frequencies 0 <= bound) ->
    bound + Z.of_nat (List.length message) <= SIZE_MAX ->
    List.length (count_frequencies message frequencies) = 256%nat
    /\ forall i, (i < 256)%nat ->
         nth i (count_frequencies message frequencies) 0
         = nth i frequencies 0 + occurrences message (Z.of_nat i).
Proof.
  induction message as [|x rest IH]; intros fr bound Hlen Hb Hfr Hbound.
  - simpl. split; [assumption|]. intros i Hi. unfold occurrences. simpl. lia.
  - inversion Hb as [|? ? Hx Hrest]; subst. cbn [count_frequencies].
    rewrite (to_uchar_byte x Hx).
    assert (Hidx : (Z.to_nat x < 256)%nat) by lia.
    set (fr' := array_set fr (Z.to_nat x) (size_t (nth (Z.to_nat x) fr 0 + 1))).
    assert (Hlen' : List.length fr' = 256%nat).
    { unfold fr'. now rewrite length_array_set. }
    assert (Hnth : forall i, (i < 256)%nat ->
              nth i fr' 0 = nth i fr 0 + (if x =? Z.of_nat i then 1 else 0)).
    { intros i Hi. unfold fr'. rewrite nth_array_set by lia.
      destruct (Nat.eqb_spec i (Z.to_nat x)) as [-> | Hne].
      - rewrite Z2Nat.id by lia. rewrite Z.eqb_refl.
        apply size_t_small. specialize (Hfr _ Hidx). simpl in Hbound. lia.
      - destruct (x =? Z.of_nat i) eqn:E; [apply Z.eqb_eq in E; lia | lia]. }
    destruct (IH fr' (bound + 1) Hlen' Hrest) as [Hl Hn].
    + intros i Hi. rewrite (Hnth i Hi). specialize (Hfr i Hi).
      destruct (x =? Z.of_nat i); lia.
    + simpl in Hbound. lia.
    + split; [assumption|]. intros i Hi.
      rewrite (Hn i Hi), (Hnth i Hi), occurrences_cons. lia.
Qed.

Lemma count_frequencies_table (message : list Z) :
  Forall (fun b => 0 <= b <= 255) message ->
  Z.of_nat (List.length message) <= SIZE_MAX ->
  count_frequencies message (repeat 0 (Z.to_nat MAX_CHAR))
  = map (occurrences message) (zseq 0 (Z.to_nat MAX_CHAR)).
Proof.
  intros Hb Hlen.
  change (Z.to_nat MAX_CHAR) with 256%nat.
  destruct (count_frequencies_nth message (repeat 0 256) 0) as [Hl Hn]; auto.
  - intros i Hi. rewrite nth_repeat. lia.
  - apply nth_ext with (d := 0) (d' := 0).
    + now rewrite Hl, length_map, length_zseq.
    + intros i Hi. rewrite Hl in Hi. rewrite (Hn i Hi), nth_repeat.
      rewrite (nth_indep _ 0 (occurrences message 0))
        by (now rewrite length_map, length_zseq).
      rewrite map_nth. rewrite nth_zseq by assumption. reflexivity.
Qed.

Lemma collect_chars_table (sg : bool) (g : Z -> Z) (n : nat) :
  forall i,
    collect_chars sg (map g (zseq i n)) i
    = map (fun j => {| mc_c := to_char sg (to_uchar j); mc_freq := g j; mc_code := None |})
        (filter (fun j => g j >? 0) (zseq i n)).
Proof.
  induction n as [|n IH]; intros i; simpl.
  - reflexivity.
  - destruct (g i >? 0); simpl; now rewrite IH.
Qed.

Lemma in_present (message : list Z) (j : Z) :
  In j (present message) <-> 0 <= j <= 255 /\ In j message.
Proof.
  unfold present. rewrite filter_In, in_zseq, <- occurrences_pos.
  change (Z.of_nat (Z.to_nat MAX_CHAR)) with 256. rewrite Z.gtb_lt. lia.
Qed.

Lemma NoDup_present (message : list Z) : NoDup (present message).
Proof. apply NoDup_filter, NoDup_zseq. Qed.

(** The entries of [create_message]: one per character that occurs, in
    increasing order, with the number of its occurrences and no code. *)
Lemma create_message_chars (sg : bool) (message : list Z) :
  c_string message ->
  chars (create_message sg message)
  = map (fun j => {| mc_c := to_char sg j; mc_freq := occurrences message j; mc_code := None |})
      (present message).
Proof.
  intros [Hb Hlen]. unfold create_message. cbn [chars].
  rewrite count_frequencies_table.
  - rewrite collect_chars_table. unfold present.
    assert (Hall : forall j, In j (zseq 0 (Z.to_nat MAX_CHAR)) -> 0 <= j <= 255).
    { intros j Hj. apply in_zseq in Hj.
      change (Z.of_nat (Z.to_nat MAX_CHAR)) with 256 in Hj. lia. }
    revert Hall. generalize (zseq 0 (Z.to_nat MAX_CHAR)). intros all Hall.
    induction all as [|j all IH]; [reflexivity|].
    cbn [filter]. destruct (occurrences message j >? 0).
    + cbn [map]. rewrite to_uchar_byte by (apply Hall; left; reflexivity).
      f_equal. apply IH. intros k Hk. apply Hall. right. exact Hk.
    + apply IH. intros k Hk. apply Hall. right. exact Hk.
  - eapply Forall_impl; [|exact Hb]. simpl. lia.
  - lia.
Qed.

Lemma length_present (message : list Z) : (List.length (present message) <= 256)%nat.
Proof.
  unfold present. eapply Nat.le_trans; [apply filter_length_le|].
  now rewrite length_zseq.
Qed.

(** ** What the merging loop keeps *)

Lemma merge_order_sym (n n' : Node) : merge_order n n' -> merge_order n' n.
Proof.
  intros H u v Hu Hv. destruct (H v u Hv Hu). auto.
Qed.

Lemma ForallOrdPairs_perm {A : Type} (R : A -> A -> Prop) (l l' : list A) :
  (forall x y, R x y -> R y x) ->
  Permutation l l' -> ForallOrdPairs R l -> ForallOrdPairs R l'.
Proof.
  intros Hsym HP. induction HP as [|x l l' HP IH|x y l|l l' l'' HP1 IH1 HP2 IH2]; intros H.
  - constructor.
  - inversion H as [|? ? HF HO]; subst. constructor.
    + eapply Permutation_Forall; eassumption.
    + apply IH, HO.
  - inversion H as [|? ? HF HO]; subst. inversion HO as [|? ? HF' HO']; subst.
    inversion HF as [|? ? Hyx HFy]; subst.
    constructor; [constructor; [apply Hsym, Hyx | assumption]|].
    constructor; assumption.
  - auto.
Qed.

Lemma total_freq_perm (f f' : list Node) :
  Permutation f f' -> total_freq f = total_freq f'.
Proof.
  induction 1; simpl; lia.
Qed.

Lemma root_in_nodes (t : Node) (p : list Z) : In t (map snd (subtrees t p)).
Proof.
  apply in_map_iff. exists (p, t). split; [reflexivity | apply subtrees_root].
Qed.

Lemma children_in_subtrees (t : Node) :
  forall p n u, In n (map snd (subtrees t p)) -> In u (children n) ->
                In u (map snd (subtrees t p)).
Proof.
  induction t as [c f code | l c f code IHl | r c f code IHr | l r c f code IHl IHr]
    using Node_induction; intros p n u Hn Hu; cbn [subtrees map] in *.
  - destruct Hn as [<- | []]. destruct Hu.
  - rewrite app_nil_r in *. destruct Hn as [<- | Hn].
    + destruct Hu as [<- | []]. right. apply root_in_nodes.
    + right. eapply IHl; eassumption.
  - destruct Hn as [<- | Hn].
    + destruct Hu as [<- | []]. right. apply root_in_nodes.
    + right. eapply IHr; eassumption.
  - rewrite map_app in *. destruct Hn as [<- | Hn].
    + right. apply in_or_app. destruct Hu as [<- | [<- | []]].
      * left. apply root_in_nodes.
      * right. apply root_in_nodes.
    + right. apply in_or_app. apply in_app_or in Hn. destruct Hn as [Hn | Hn].
      * left. eapply IHl; eassumption.
      * right. eapply IHr; eassumption.
Qed.

Lemma weighted_root (t : Node) : weighted t -> sum_node t /\ 0 <= n_freq t.
Proof.
  unfold weighted. rewrite Forall_forall. intros H. apply H, root_in_nodes.
Qed.

(** In a weighted tree a node that is not a leaf has two children, not
    negative, whose frequencies add up to its own. *)
Lemma weighted_inner (t n : Node) :
  weighted t -> In n (inner_nodes t) ->
  exists l r, children n = [l; r] /\ n_freq n = n_freq l + n_freq r
              /\ 0 <= n_freq l /\ 0 <= n_freq r.
Proof.
  unfold weighted, inner_nodes. rewrite Forall_forall. intros H Hn.
  apply filter_In in Hn. destruct Hn as [Hn Hl].
  destruct (H n Hn) as [Hs _]. unfold sum_node in Hs. unfold is_leaf in Hl.
  assert (Hch : forall u, In u (children n) -> 0 <= n_freq u).
  { intros u Hu. apply (H u). eapply children_in_subtrees; eassumption. }
  unfold children in *.
  destruct (n_left n) as [l|], (n_right n) as [r|]; try contradiction; try discriminate.
  exists l, r. repeat split; try assumption; apply Hch; simpl; auto.
Qed.

Lemma weighted_parent (t1 t2 : Node) :
  weighted t1 -> weighted t2 -> n_freq t1 + n_freq t2 <= SIZE_MAX ->
  weighted (create_parent_node t1 t2)
  /\ n_freq (create_parent_node t1 t2) = n_freq t1 + n_freq t2.
Proof.
  intros H1 H2 Hb.
  destruct (weighted_root _ H1) as [_ Hp1]. destruct (weighted_root _ H2) as [_ Hp2].
  assert (Hf : n_freq (create_parent_node t1 t2) = n_freq t1 + n_freq t2).
  { simpl. apply size_t_small. lia. }
  split; [|exact Hf].
  unfold weighted in *.
  change (subtrees (create_parent_node t1 t2) [])
    with (([], create_parent_node t1 t2) :: subtrees t1 [CHAR_0] ++ subtrees t2 [CHAR_1]).
  cbn [map snd]. constructor.
  - change (sum_node (create_parent_node t1 t2))
      with (n_freq (create_parent_node t1 t2) = n_freq t1 + n_freq t2).
    split; [exact Hf | rewrite Hf; lia].
  - rewrite map_app. apply Forall_app. split.
    + rewrite (subtrees_nodes t1 _ []). exact H1.
    + rewrite (subtrees_nodes t2 _ []). exact H2.
Qed.

Lemma weighted_children (l r : Node) (c f : Z) (code : option (list Z)) :
  weighted (mkNode (Some l) (Some r) c f code) ->
  weighted l /\ weighted r /\ f = n_freq l + n_freq r /\ 0 <= n_freq l /\ 0 <= n_freq r.
Proof.
  unfold weighted. cbn [subtrees map snd]. intros H.
  inversion H as [|? ? [Hs _] H']; subst. rewrite map_app in H'.
  apply Forall_app in H'. destruct H' as [Hl Hr].
  rewrite (subtrees_nodes l _ []) in Hl. rewrite (subtrees_nodes r _ []) in Hr.
  split; [exact Hl|]. split; [exact Hr|]. split; [exact Hs|].
  split; [apply (weighted_root l Hl) | apply (weighted_root r Hr)].
Qed.

Lemma leaf_nodes_both (l r : Node) (c f : Z) (code : option (list Z)) :
  leaf_nodes (mkNode (Some l) (Some r) c f code) = leaf_nodes l ++ leaf_nodes r.
Proof.
  unfold leaf_nodes. cbn [subtrees map snd filter is_leaf n_left n_right].
  rewrite map_app, filter_app.
  now rewrite (subtrees_nodes l _ []), (subtrees_nodes r _ []).
Qed.

Lemma weighted_has_leaf (t : Node) : weighted t -> leaf_nodes t <> [].
Proof.
  induction t as [c f code | l c f code IHl | r c f code IHr | l r c f code IHl IHr]
    using Node_induction; intros Hw.
  - discriminate.
  - destruct (weighted_root _ Hw) as [[] _].
  - destruct (weighted_root _ Hw) as [[] _].
  - destruct (weighted_children _ _ _ _ _ Hw) as (Hl & _).
    rewrite leaf_nodes_both. intros H. apply app_eq_nil in H. destruct H as [H _].
    exact (IHl Hl H).
Qed.

(** In a weighted tree the depth of the deepest leaf is less than the number
    of leaves. *)
Lemma weighted_height (t : Node) : weighted t -> (height t < List.length (leaf_nodes t))%nat.
Proof.
  induction t as [c f code | l c f code IHl | r c f code IHr | l r c f code IHl IHr]
    using Node_induction; intros Hw.
  - simpl. lia.
  - destruct (weighted_root _ Hw) as [[] _].
  - destruct (weighted_root _ Hw) as [[] _].
  - destruct (weighted_children _ _ _ _ _ Hw) as (Hl & Hr & _).
    rewrite leaf_nodes_both, length_app. cbn [height].
    specialize (IHl Hl). specialize (IHr Hr). lia.
Qed.

Lemma total_freq_cons (t : Node) (f : list Node) :
  total_freq (t :: f) = n_freq t + total_freq f.
Proof. reflexivity. Qed.

Lemma total_freq_in (f : list Node) (t : Node) :
  Forall weighted f -> In t f -> 0 <= n_freq t <= total_freq f.
Proof.
  induction 1 as [|x f Hx Hf IH]; intros Hin.
  - destruct Hin.
  - simpl. destruct (weighted_root _ Hx) as [_ Hx0].
    assert (H0 : 0 <= total_freq f).
    { clear -Hf. induction Hf as [|y f Hy Hf IH]; simpl; [lia|].
      destruct (weighted_root _ Hy). lia. }
    destruct Hin as [<- | Hin]; [lia|]. specialize (IH Hin). lia.
Qed.

Lemma freq_sorted_head (t1 t2 : Node) (rest : list Node) :
  freq_sorted (t1 :: t2 :: rest) ->
  n_freq t1 <= n_freq t2 /\ forall t, In t rest -> n_freq t2 <= n_freq t.
Proof.
  intros H. inversion H as [|? ? H' HF]; subst. inversion H' as [|? ? _ HF']; subst.
  inversion HF; subst. split; [assumption|]. now apply Forall_forall.
Qed.

Lemma forest_inv_perm (leaves0 : list Node) (total : Z) (f f' : list Node) :
  Permutation f f' -> forest_inv leaves0 total f -> forest_inv leaves0 total f'.
Proof.
  intros HP [H1 H2 H3 H4 H5]. split.
  - eapply perm_trans; [|exact H1]. symmetry. now apply Permutation_flat_map.
  - eapply Permutation_Forall; eassumption.
  - rewrite <- H3. symmetry. now apply total_freq_perm.
  - intros n u t Hn Hu Ht. apply (H4 n u t).
    + eapply Permutation_in; [|exact Hn]. symmetry. now apply Permutation_flat_map.
    + assumption.
    + eapply Permutation_in; [|exact Ht]. now symmetry.
  - eapply ForallOrdPairs_perm; [apply merge_order_sym | | exact H5].
    now apply Permutation_flat_map.
Qed.

Lemma forest_inv_merge (leaves0 : list Node) (total : Z) (t1 t2 : Node) (rest : list Node) :
  total <= SIZE_MAX ->
  freq_sorted (t1 :: t2 :: rest) ->
  forest_inv leaves0 total (t1 :: t2 :: rest) ->
  forest_inv leaves0 total (create_parent_node t1 t2 :: rest).
Proof.
  intros Hmax Hs [H1 H2 H3 H4 H5].
  destruct (freq_sorted_head _ _ _ Hs) as [H12 Hrest].
  inversion H2 as [|? ? Hw1 H2']; subst. inversion H2' as [|? ? Hw2 Hwr]; subst.
  destruct (weighted_root _ Hw1) as [_ Hp1]. destruct (weighted_root _ Hw2) as [_ Hp2].
  assert (Hr0 : 0 <= total_freq rest).
  { clear -Hwr. induction Hwr as [|y f Hy Hf IH]; simpl; [lia|].
    destruct (weighted_root _ Hy). lia. }
  rewrite !total_freq_cons in Hmax.
  destruct (weighted_parent t1 t2 Hw1 Hw2) as [Hwp Hfp]; [lia|].
  set (p := create_parent_node t1 t2) in *.
  assert (Hold : forall n u, In n (flat_map inner_nodes (t1 :: t2 :: rest)) ->
                             In u (children n) -> n_freq u <= n_freq t1).
  { intros n u Hn Hu. apply (H4 n u t1 Hn Hu). left. reflexivity. }
  assert (Hinner : flat_map inner_nodes (p :: rest)
                   = p :: flat_map inner_nodes (t1 :: t2 :: rest)).
  { cbn [flat_map]. unfold p. rewrite inner_nodes_parent. cbn [app].
    now rewrite <- app_assoc. }
  split.
  - cbn [flat_map] in *. unfold p. rewrite leaf_nodes_parent, <- app_assoc. exact H1.
  - constructor; assumption.
  - rewrite !total_freq_cons. fold p in Hfp. lia.
  - rewrite Hinner. intros n u t [<- | Hn] Hu Ht.
    + assert (Hu' : n_freq u <= n_freq t2).
      { destruct Hu as [<- | [<- | []]]; lia. }
      destruct Ht as [<- | Ht]; [lia|]. specialize (Hrest t Ht). lia.
    + specialize (Hold n u Hn Hu).
      destruct Ht as [<- | Ht]; [lia|]. specialize (Hrest t Ht). lia.
  - rewrite Hinner. constructor; [|exact H5].
    apply Forall_forall. intros n Hn u v Hu Hv.
    assert (Hv1 : n_freq v <= n_freq t1) by (apply (Hold n v Hn Hv)).
    assert (Hu1 : n_freq t1 <= n_freq u /\ n_freq u <= n_freq t2).
    { destruct Hu as [<- | [<- | []]]; lia. }
    split; [lia|]. intros Hlt.
    assert (Htree : exists t, In t (t1 :: t2 :: rest) /\ In n (inner_nodes t)).
    { apply in_flat_map in Hn. destruct Hn as (t & Ht & Hn). eauto. }
    destruct Htree as (t & Ht & Hnt).
    assert (Hwt : weighted t) by (rewrite Forall_forall in H2; auto).
    destruct (weighted_inner t n Hwt Hnt) as (l & r & Hch & Hsum & Hl0 & Hr0').
    assert (Hl1 : n_freq l <= n_freq t1) by (apply (Hold n l Hn); rewrite Hch; simpl; auto).
    assert (Hr1 : n_freq r <= n_freq t1) by (apply (Hold n r Hn); rewrite Hch; simpl; auto).
    rewrite Hch in Hv. rewrite Hfp, Hsum.
    destruct Hv as [<- | [<- | []]], Hu as [<- | [<- | []]]; lia.
Qed.

Lemma forest_inv_initial (leaves0 : list Node) :
  Forall (fun t => exists c f, t = create_node c f) leaves0 ->
  forest_inv leaves0 (total_freq leaves0) leaves0.
Proof.
  intros H.
  assert (Hl : flat_map leaf_nodes leaves0 = leaves0).
  { induction H as [|t l (c & f & ->) _ IH]; simpl; [reflexivity | now rewrite IH]. }
  assert (Hi : flat_map inner_nodes leaves0 = []).
  { clear Hl. induction H as [|t l (c & f & ->) _ IH]; simpl; [reflexivity | exact IH]. }
  split.
  - rewrite Hl. apply Permutation_refl.
  - eapply Forall_impl; [|exact H]. intros t (c & f & ->).
    unfold weighted. simpl. constructor; [|constructor].
    split; [exact I | apply size_t_range].
  - reflexivity.
  - rewrite Hi. intros n u t [].
  - rewrite Hi. constructor.
Qed.

(** ** The tree built for a message *)

Lemma zsum_indicator (x : Z) (l : list Z) :
  NoDup l -> In x l -> zsum (map (fun j => if x =? j then 1 else 0) l) = 1.
Proof.
  induction 1 as [|y l Hy Hl IH]; intros Hin.
  - destruct Hin.
  - simpl. destruct Hin as [-> | Hin].
    + rewrite Z.eqb_refl.
      assert (H0 : zsum (map (fun j => if x =? j then 1 else 0) l) = 0).
      { clear -Hy. induction l as [|z l IH]; simpl; [reflexivity|].
        destruct (x =? z) eqn:E.
        - apply Z.eqb_eq in E. subst. exfalso. apply Hy. left. reflexivity.
        - rewrite IH; [reflexivity|]. intros H. apply Hy. right. exact H. }
      fold (zsum (map (fun j => if x =? j then 1 else 0) l)). lia.
    + destruct (x =? y) eqn:E.
      * apply Z.eqb_eq in E. subst. contradiction.
      * fold (zsum (map (fun j => if x =? j then 1 else 0) l)). rewrite IH by assumption. lia.
Qed.

Lemma zsum_occurrences (message : list Z) (l : list Z) :
  NoDup l -> (forall x, In x message -> In x l) ->
  zsum (map (occurrences message) l) = Z.of_nat (List.length message).
Proof.
  intros Hnd. induction message as [|x rest IH]; intros Hin.
  - clear. induction l as [|y l IH]; simpl; [reflexivity|].
    fold (zsum (map (occurrences []) l)). rewrite IH. reflexivity.
  - assert (Hsplit : zsum (map (occurrences (x :: rest)) l)
                     = zsum (map (occurrences rest) l)
                       + zsum (map (fun j => if x =? j then 1 else 0) l)).
    { clear. induction l as [|y l IH]; simpl; [reflexivity|].
      fold (zsum (map (occurrences (x :: rest)) l)).
      fold (zsum (map (occurrences rest) l)).
      fold (zsum (map (fun j => if x =? j then 1 else 0) l)).
      rewrite IH, occurrences_cons. lia. }
    rewrite Hsplit, IH, zsum_indicator; auto.
    + simpl List.length. lia.
    + apply Hin. left. reflexivity.
    + intros y Hy. apply Hin. right. exact Hy.
Qed.

Lemma zsum_filter_positive (g : Z -> Z) (l : list Z) :
  (forall j, 0 <= g j) ->
  zsum (map g (filter (fun j => g j >? 0) l)) = zsum (map g l).
Proof.
  intros Hg. induction l as [|y l IH]; simpl; [reflexivity|].
  fold (zsum (map g l)). destruct (g y >? 0) eqn:E; simpl.
  - fold (zsum (map g (filter (fun j => g j >? 0) l))). lia.
  - rewrite IH. specialize (Hg y). rewrite Z.gtb_ltb in E. apply Z.ltb_ge in E. lia.
Qed.

(** The leaves created for a message: one per character that occurs, with
    the character and the number of its occurrences. *)
Lemma initial_leaves_message (sg : bool) (message : list Z) :
  c_string message ->
  initial_leaves (create_message sg message)
  = map (fun j => mkNode None None j (occurrences message j) None) (present message).
Proof.
  intros Hc. unfold initial_leaves. rewrite (create_message_chars sg message Hc), map_map.
  apply map_ext_in. intros j Hj. apply in_present in Hj. destruct Hj as [Hj _].
  unfold create_node. cbn [mc_c mc_freq]. rewrite to_uchar_to_char by assumption.
  rewrite size_t_small; [reflexivity|].
  destruct Hc as [_ Hlen].
  pose proof (occurrences_nonneg message j). pose proof (occurrences_le message j). lia.
Qed.

Lemma total_freq_message (sg : bool) (message : list Z) :
  c_string message ->
  total_freq (initial_leaves (create_message sg message)) = Z.of_nat (List.length message).
Proof.
  intros Hc. rewrite (initial_leaves_message sg message Hc).
  assert (H : forall l, total_freq (map (fun j => mkNode None None j (occurrences message j) None) l)
                        = zsum (map (occurrences message) l)).
  { induction l as [|y l IH]; simpl; [reflexivity|].
    fold (zsum (map (occurrences message) l)). rewrite <- IH. reflexivity. }
  rewrite H. unfold present. rewrite zsum_filter_positive by apply occurrences_nonneg.
  apply zsum_occurrences; [apply NoDup_zseq|].
  intros x Hx. apply in_zseq. destruct Hc as [Hb _]. rewrite Forall_forall in Hb.
  specialize (Hb x Hx). change (Z.of_nat (Z.to_nat MAX_CHAR)) with 256. lia.
Qed.

Lemma mi_length_message (sg : bool) (message : list Z) :
  c_string message -> message <> [] ->
  1 <= mi_length (create_message sg message) <= 256.
Proof.
  intros Hc Hne. unfold mi_length. rewrite (create_message_chars sg message Hc), length_map.
  pose proof (length_present message).
  destruct message as [|x rest]; [contradiction|].
  assert (Hin : In x (present (x :: rest))).
  { apply in_present. destruct Hc as [Hb _]. inversion Hb; subst.
    split; [lia | left; reflexivity]. }
  destruct (present (x :: rest)); [destruct Hin | simpl in *; lia].
Qed.

Section Pipeline.

Variable char_signed : bool.
Variable qsort : (option Node -> option Node -> Z) -> list (option Node) -> list (option Node).
Hypothesis qsort_sorts : sorts qsort.

(** For a message that is not empty the builder returns a tree, in the
    state the merging loop keeps. *)
Lemma generate_tree_message (message : list Z) :
  c_string message -> message <> [] ->
  exists root,
    generate_tree qsort (create_message char_signed message) = Done (Some root)
    /\ forest_inv (initial_leaves (create_message char_signed message))
         (Z.of_nat (List.length message)) [root].
Proof.
  intros Hc Hne.
  apply (generate_tree_rule qsort qsort_sorts
           (forest_inv (initial_leaves (create_message char_signed message))
              (Z.of_nat (List.length message)))).
  - intros f f'. apply forest_inv_perm.
  - intros t1 t2 rest. apply forest_inv_merge. destruct Hc. lia.
  - pose proof (mi_length_message char_signed message Hc Hne). lia.
  - rewrite <- (total_freq_message char_signed message Hc).
    apply forest_inv_initial. unfold initial_leaves.
    apply Forall_forall. intros t Ht. apply in_map_iff in Ht.
    destruct Ht as (e & <- & _). eauto.
Qed.

End Pipeline.

(** ** Encoding and decoding with the tree of the message *)

Lemma generate_huffman_done (message_info : MessageInfo) (root : Node)
  (r : MessageInfo * option Node) :
  generate_huffman message_info (Some root) = Done r ->
  r = ({| chars := store_codes (chars message_info) (leaf_codes root []) |},
       Some (annotate root [])).
Proof.
  unfold generate_huffman. intros H.
  destruct (_generate_huffman message_info root _ 0) as [r'|] eqn:E; [|discriminate].
  cbn [bind] in H. injection H as <-.
  destruct (generate_huffman_nodes _ _ _ _ _ E) as (-> & -> & _). reflexivity.
Qed.

Lemma generate_huffman_some (message_info : MessageInfo) (root : Node) :
  (height root < Z.to_nat (size_t (mi_length message_info + 1)))%nat ->
  generate_huffman message_info (Some root)
  = Done ({| chars := store_codes (chars message_info) (leaf_codes root []) |},
          Some (annotate root [])).
Proof.
  intros Hh.
  destruct (generate_huffman_returns root message_info
              (repeat 0 (Z.to_nat (size_t (mi_length message_info + 1)))) 0) as (r' & E).
  { rewrite repeat_length. lia. }
  destruct (generate_huffman message_info (Some root)) as [r|] eqn:Hr.
  - now rewrite (generate_huffman_done _ _ _ Hr).
  - unfold generate_huffman in Hr. rewrite E in Hr. discriminate.
Qed.

Lemma leaf_codes_nodes (root : Node) (p : list Z) :
  map fst (leaf_codes root p) = map n_c (leaf_nodes root).
Proof.
  unfold leaf_codes, leaf_nodes. rewrite map_map. cbn [fst].
  rewrite (filter_map_swap is_leaf snd), map_map.
  rewrite <- (map_map snd n_c), <- (map_map snd n_c).
  rewrite <- !(filter_map_swap is_leaf snd).
  now rewrite (subtrees_nodes root p []).
Qed.

Lemma leaf_nodes_of_leaf (root : Node) : is_leaf root = true -> leaf_nodes root = [root].
Proof.
  destruct root as [[l|] [r|] c f code]; intros H; try discriminate. reflexivity.
Qed.

Lemma lookup_code_in (entries : list MessageChar) (e : MessageChar) :
  In e entries -> lookup_code entries (mc_c e) <> None.
Proof.
  induction entries as [|e0 rest IH]; intros Hin; simpl.
  - destruct Hin.
  - destruct (mc_c e0 =? mc_c e) eqn:E; [discriminate|].
    destruct Hin as [-> | Hin]; [rewrite Z.eqb_refl in E; discriminate | auto].
Qed.

(** The decoder on a sequence of leaf codes: it stores the characters of the
    leaves and ends at the root. *)
Lemma decode_loop_codes (root : Node) (code_of : Z -> list Z) (message : list Z) :
  is_leaf root = false ->
  (forall x, In x message -> In (x, code_of x) (leaf_codes root [])) ->
  forall rest b,
    decode_loop (List.concat (map code_of message) ++ rest) (Some root) None b
    = b' <- put_chars message b ;; decode_loop rest (Some root) None b'.
Proof.
  intros Hroot. induction message as [|x message IH]; intros Hin rest b.
  - reflexivity.
  - cbn [map List.concat put_chars]. rewrite <- app_assoc.
    destruct (decode_loop_code root [] x (code_of x)) as (s & Hs & _ & Hdec).
    + apply Hin. left. reflexivity.
    + exact Hroot.
    + cbn [app] in Hs. rewrite Hs, Hdec by reflexivity.
      destruct (put_char b x) as [b1|]; cbn [bind]; [|reflexivity].
      apply IH. intros y Hy. apply Hin. right. exact Hy.
Qed.

(** Below a root with children every leaf code has a character, so a
    sequence of codes is at least as long as the number of codes. *)
Lemma leaf_codes_length (root : Node) (code_of : Z -> list Z) (message : list Z) :
  is_leaf root = false ->
  (forall x, In x message -> In (x, code_of x) (leaf_codes root [])) ->
  (List.length message <= List.length (List.concat (map code_of message)))%nat.
Proof.
  intros Hroot. induction message as [|x message IH]; intros Hin; [simpl; lia|].
  cbn [map List.concat List.length]. rewrite length_app.
  destruct (decode_loop_code root [] x (code_of x)) as (s & Hs & Hne & _).
  - apply Hin. left. reflexivity.
  - exact Hroot.
  - cbn [app] in Hs. rewrite Hs. destruct s; [contradiction|]. simpl.
    assert (List.length message <= List.length (List.concat (map code_of message)))%nat; [|lia].
    apply IH. intros y Hy. apply Hin. right. exact Hy.
Qed.

Lemma huffman_decode_codes (root : Node) (code_of : Z -> list Z) (message : list Z) :
  is_leaf root = false ->
  (forall x, In x message -> In (x, code_of x) (leaf_codes root [])) ->
  Z.of_nat (List.length (List.concat (map code_of message))) < SIZE_MAX ->
  huffman_decode (List.concat (map code_of message)) (Some root) = Done (Some message).
Proof.
  intros Hroot Hin Hlen. unfold huffman_decode.
  pose proof (leaf_codes_length root code_of message Hroot Hin) as Hle.
  set (bits := List.concat (map code_of message)) in *.
  rewrite <- (app_nil_r bits) at 1.
  rewrite (decode_loop_codes root code_of message Hroot Hin).
  assert (Hcap : capacity (output_buffer bits) = Z.of_nat (List.length bits) + 1).
  { apply size_t_small. lia. }
  rewrite put_chars_room; try (change (current_idx (output_buffer bits)) with 0; lia).
  cbn [bind decode_loop fst snd]. unfold store_terminator. cbn [current_idx capacity written].
  change (current_idx (output_buffer bits)) with 0.
  destruct (Z.ltb_spec (0 + Z.of_nat (List.length message)) (capacity (output_buffer bits)));
    [reflexivity | lia].
Qed.

Section RoundTrip.

Variable char_signed : bool.
Variable qsort : (option Node -> option Node -> Z) -> list (option Node) -> list (option Node).
Hypothesis qsort_sorts : sorts qsort.

Variable message : list Z.
Hypothesis message_string : c_string message.

Variable root : Node.
Hypothesis root_built :
  forest_inv (initial_leaves (create_message char_signed message))
    (Z.of_nat (List.length message)) [root].

Lemma root_leaves :
  Permutation (leaf_nodes root)
    (map (fun j => mkNode None None j (occurrences message j) None) (present message)).
Proof.
  destruct root_built as [H _ _ _ _]. cbn [flat_map] in H. rewrite app_nil_r in H.
  now rewrite (initial_leaves_message char_signed message message_string) in H.
Qed.

(** Every character of the message has a leaf, hence a leaf code. *)
Lemma message_leaf_code (x : Z) :
  In x message -> exists code, In (x, code) (leaf_codes root []).
Proof.
  intros Hx.
  assert (Hp : In x (present message)).
  { apply in_present. destruct message_string as [Hb _]. rewrite Forall_forall in Hb.
    specialize (Hb x Hx). split; [lia | assumption]. }
  assert (Hl : In x (map n_c (leaf_nodes root))).
  { apply in_map_iff. exists (mkNode None None x (occurrences message x) None).
    split; [reflexivity|].
    eapply Permutation_in; [symmetry; apply root_leaves|].
    apply in_map_iff. exists x. auto. }
  rewrite <- (leaf_codes_nodes root []) in Hl. apply in_map_iff in Hl.
  destruct Hl as ([x' code] & Heq & Hin). simpl in Heq. subst x'. eauto.
Qed.

Lemma two_symbols_root : two_symbols message -> is_leaf root = false.
Proof.
  intros (a & b & Ha & Hb & Hab).
  destruct (is_leaf root) eqn:E; [|reflexivity]. exfalso.
  destruct (message_leaf_code a Ha) as (ca & Hca).
  destruct (message_leaf_code b Hb) as (cb & Hcb).
  destruct (leaf_codes_is_leaf _ _ _ _ Hca E) as [-> _].
  destruct (leaf_codes_is_leaf _ _ _ _ Hcb E) as [-> _].
  contradiction.
Qed.

(** The entry of a character of the message. *)
Lemma message_entry (x : Z) :
  In x message ->
  lookup_code (chars (create_message char_signed message)) (to_char char_signed x) <> None.
Proof.
  intros Hx.
  assert (Hp : In x (present message)).
  { apply in_present. destruct message_string as [Hb _]. rewrite Forall_forall in Hb.
    specialize (Hb x Hx). split; [lia | assumption]. }
  apply (lookup_code_in _
           {| mc_c := to_char char_signed x; mc_freq := occurrences message x;
              mc_code := None |}).
  rewrite (create_message_chars char_signed message message_string).
  apply in_map_iff. exists x. auto.
Qed.

(** With plain characters, the code the encoder copies for a character of
    the message is the code of a leaf with that character. *)
Lemma message_copied_code (x : Z) :
  plain_chars char_signed message -> In x message ->
  In (x, copied_code
           (store_codes (chars (create_message char_signed message)) (leaf_codes root []))
           (to_char char_signed x))
     (leaf_codes root [])
  /\ lookup_code
       (store_codes (chars (create_message char_signed message)) (leaf_codes root []))
       (to_char char_signed x) <> Some None.
Proof.
  intros Hplain Hx.
  assert (Hc : to_char char_signed x = x).
  { destruct message_string as [Hb _]. rewrite Forall_forall in Hb. specialize (Hb x Hx).
    apply to_char_plain; [lia|].
    destruct Hplain as [H | H]; [left; exact H | right].
    rewrite Forall_forall in H. apply H, Hx. }
  pose proof (message_entry x Hx) as He. rewrite Hc in *.
  destruct (lookup_store_codes (leaf_codes root []) _ x He (message_leaf_code x Hx))
    as (code & Hin & Hl).
  unfold copied_code. rewrite Hl. split; [exact Hin | discriminate].
Qed.

End RoundTrip.

(** For the tree of a message the buffer of [generate_huffman] is long
    enough: the call returns, with the codes of the leaves in the table. *)
Lemma generate_huffman_built (sg : bool) (message : list Z) (root : Node) :
  c_string message -> message <> [] ->
  forest_inv (initial_leaves (create_message sg message))
    (Z.of_nat (List.length message)) [root] ->
  generate_huffman (create_message sg message) (Some root)
  = Done ({| chars := store_codes (chars (create_message sg message)) (leaf_codes root []) |},
          Some (annotate root [])).
Proof.
  intros Hc Hne Hinv. apply generate_huffman_some.
  pose proof (mi_length_message sg message Hc Hne) as Hlen.
  rewrite size_t_small by (unfold SIZE_MAX, SIZE_WIDTH; lia).
  assert (Hw : weighted root) by (destruct Hinv as [_ Hw _ _ _]; inversion Hw; assumption).
  pose proof (weighted_height root Hw) as Hh.
  destruct Hinv as [Hl _ _ _ _]. cbn [flat_map] in Hl. rewrite app_nil_r in Hl.
  apply Permutation_length in Hl. unfold initial_leaves in Hl. rewrite length_map in Hl.
  unfold mi_length in *. lia.
Qed.

Lemma two_symbols_nonempty (message : list Z) : two_symbols message -> message <> [].
Proof. intros (a & _ & Ha & _) ->. destruct Ha. Qed.

(** What [main] computes up to the encoded message, for a message that is
    not empty: the tree is built, the table holds the codes of its leaves,
    and the rest is the encoder. *)
Lemma main_encode_built (sg : bool) qsort (message : list Z) :
  sorts qsort -> c_string message -> message <> [] ->
  exists root,
    forest_inv (initial_leaves (create_message sg message))
      (Z.of_nat (List.length message)) [root]
    /\ main_encode sg qsort message
       = (encoded <- huffman_encode sg message
                       {| chars := store_codes (chars (create_message sg message))
                                     (leaf_codes root []) |} ;;
          Done ({| chars := store_codes (chars (create_message sg message))
                              (leaf_codes root []) |},
                Some (annotate root []), encoded)).
Proof.
  intros Hsort Hc Hne. unfold main_encode.
  destruct (generate_tree_message sg qsort Hsort message Hc Hne) as (root & -> & Hinv).
  cbn [bind]. rewrite (generate_huffman_built sg message root Hc Hne Hinv). cbn [bind fst snd].
  exists root. split; [exact Hinv | reflexivity].
Qed.

(** Where the round trip does hold: for every message that is a C string
    with at least two distinct characters, all of them plain (ASCII, or
    [char] unsigned), when the steps of [main] up to the encoded message
    return (the terminator of the encoded message is stored within its
    buffer), decoding the encoded message with the tree returns the
    message. *)
Theorem round_trip_two_symbols (sg : bool) qsort (message : list Z) table root encoded :
  sorts qsort -> c_string message -> two_symbols message -> plain_chars sg message ->
  main_encode sg qsort message = Done (table, root, encoded) ->
  huffman_decode (written encoded) root = Done (Some message).
Proof.
  intros Hsort Hc Htwo Hplain Hmain.
  destruct (main_encode_built sg qsort message Hsort Hc (two_symbols_nonempty _ Htwo))
    as (r & Hinv & Heq).
  rewrite Heq in Hmain. clear Heq.
  destruct (huffman_encode sg message _) as [enc|] eqn:Henc; [|discriminate].
  cbn [bind] in Hmain. injection Hmain as <- <- <-.
  destruct (huffman_encode_done _ _ _ _ Henc) as [Hloop Hlen].
  destruct (encode_loop_written _ _ _ _ _ Hloop) as (Hw & _ & _).
  cbn [written app chars] in Hw. rewrite Hw in *.
  apply (huffman_decode_codes (annotate r [])
           (fun x => copied_code
                       (store_codes (chars (create_message sg message)) (leaf_codes r []))
                       (to_char sg x)) message).
  - rewrite is_leaf_annotate. apply (two_symbols_root sg message Hc r Hinv Htwo).
  - intros x Hx. rewrite leaf_codes_annotate.
    apply (message_copied_code sg message Hc r Hinv x Hplain Hx).
  - exact Hlen.
Qed.

Lemma round_trip_two_symbols_witness :
  exists table root encoded,
    main_encode true stable_qsort (bytes_of_string "abracadabra") = Done (table, root, encoded)
    /\ written encoded = bytes_of_string "01111001100011010111100"
    /\ huffman_decode (written encoded) root = Done (Some (bytes_of_string "abracadabra")).
Proof.
  do 3 eexists. split; [vm_compute; reflexivity|]. split; [reflexivity|].
  eapply (round_trip_two_symbols true stable_qsort (bytes_of_string "abracadabra")).
  - exact stable_qsort_sorts.
  - split; [repeat constructor; vm_compute; discriminate | vm_compute; reflexivity].
  - exists 97, 98. split; [vm_compute; auto|]. split; [vm_compute; auto 10 | discriminate].
  - right. repeat constructor.
  - vm_compute. reflexivity.
Defined.

(** ** When the encoder returns *)

(** A code is no longer than the tree is high. *)
Lemma leaf_codes_height (node : Node) :
  forall p c code,
    In (c, code) (leaf_codes node p) ->
    (List.length code <= List.length p + height node)%nat.
Proof.
  induction node as [c0 f code0 | l c0 f code0 IHl | r c0 f code0 IHr | l r c0 f code0 IHl IHr]
    using Node_induction; intros p c code Hin.
  - rewrite leaf_codes_leaf in Hin. destruct Hin as [Heq | []]. injection Heq as <- <-. lia.
  - rewrite leaf_codes_left in Hin. specialize (IHl _ _ _ Hin).
    rewrite length_app in IHl. cbn [height List.length] in *. lia.
  - rewrite leaf_codes_right in Hin. specialize (IHr _ _ _ Hin).
    rewrite length_app in IHr. cbn [height List.length] in *. lia.
  - rewrite leaf_codes_both in Hin. apply in_app_or in Hin. destruct Hin as [Hin | Hin].
    + specialize (IHl _ _ _ Hin). rewrite length_app in IHl. cbn [height List.length] in *. lia.
    + specialize (IHr _ _ _ Hin). rewrite length_app in IHr. cbn [height List.length] in *. lia.
Qed.

(** While twice the index is a [size_t], the growth makes room: a store of
    the innermost loop is within the buffer. *)
Lemma put_char_grows (b : buffer) (ch : Z) :
  buffer_ok b -> current_idx b <= capacity b -> 1 <= capacity b ->
  2 * (current_idx b + 1) <= SIZE_MAX ->
  exists b',
    put_char b ch = Done b'
    /\ buffer_ok b' /\ current_idx b' = current_idx b + 1
    /\ current_idx b' <= capacity b' /\ 1 <= capacity b'.
Proof.
  intros Hok Hle Hcap Hmax.
  assert (H0 : 0 <= current_idx b) by (destruct Hok as [-> _]; lia).
  assert (Hput : exists b', put_char b ch = Done b'
                            /\ current_idx b + 1 <= capacity b' /\ 1 <= capacity b').
  { unfold put_char.
    destruct (Z.geb_spec (current_idx b) (capacity b)) as [Hge | Hlt].
    - rewrite (size_t_small (2 * capacity b)) by lia.
      destruct (Z.ltb_spec (current_idx b) (2 * capacity b)) as [_ | Hge']; [|lia].
      eexists. split; [reflexivity|]. cbn [capacity]. lia.
    - destruct (Z.ltb_spec (current_idx b) (capacity b)) as [_ | Hge']; [|lia].
      eexists. split; [reflexivity|]. cbn [capacity]. lia. }
  destruct Hput as (b' & Hb' & Hroom & Hcap').
  destruct (put_char_done _ _ _ Hb') as [_ Hd]. destruct (Hd Hok) as [Hok' Hidx].
  exists b'. rewrite Hidx. auto.
Qed.

Lemma put_chars_grow (s : list Z) :
  forall b,
    buffer_ok b -> current_idx b <= capacity b -> 1 <= capacity b ->
    2 * (current_idx b + Z.of_nat (List.length s)) <= SIZE_MAX ->
    exists b',
      put_chars s b = Done b'
      /\ buffer_ok b' /\ current_idx b' = current_idx b + Z.of_nat (List.length s)
      /\ current_idx b' <= capacity b' /\ 1 <= capacity b'.
Proof.
  induction s as [|ch s IH]; intros b Hok Hle Hcap Hmax.
  - exists b. cbn [put_chars List.length]. rewrite Z.add_0_r. auto.
  - cbn [put_chars List.length] in *.
    destruct (put_char_grows b ch Hok Hle Hcap) as (b1 & -> & Hok1 & Hidx1 & Hle1 & Hcap1);
      [lia|].
    cbn [bind]. destruct (IH b1 Hok1 Hle1 Hcap1) as (b' & -> & Hok' & Hidx' & Hle' & Hcap');
      [lia|].
    exists b'. repeat split; try assumption; try apply Hok'. lia.
Qed.

(** The loop of the encoder returns when no code it reads is [NULL] and
    twice the length of the encoded message is a [size_t]. *)
Lemma encode_loop_returns (sg : bool) (message : list Z) (message_info : MessageInfo) :
  Forall (fun x => lookup_code (chars message_info) (to_char sg x) <> Some None) message ->
  forall b,
    buffer_ok b -> current_idx b <= capacity b -> 1 <= capacity b ->
    2 * (current_idx b
         + Z.of_nat (List.length
                       (List.concat (map (fun x => copied_code (chars message_info) (to_char sg x))
                                       message))))
    <= SIZE_MAX ->
    exists b',
      encode_loop sg message message_info b = Done b' /\ current_idx b' <= capacity b'.
Proof.
  induction 1 as [|x rest Hx _ IH]; intros b Hok Hle Hcap Hmax.
  - exists b. auto.
  - cbn [encode_loop map List.concat] in *. rewrite length_app in Hmax.
    rewrite encode_char_lookup. unfold copied_code at 1 in Hmax.
    destruct (lookup_code (chars message_info) (to_char sg x)) as [[code|]|];
      [| congruence |].
    + destruct (put_chars_grow code b Hok Hle Hcap) as (b1 & -> & Hok1 & Hidx1 & Hle1 & Hcap1);
        [lia|].
      cbn [bind]. apply IH; try assumption. lia.
    + cbn [bind]. apply IH; assumption.
Qed.

(** For a message of plain characters that is not too long, the steps of
    [main] up to the encoded message can only go wrong at the store of the
    terminator: the table is built, the loop of the encoder returns, and
    the encoder returns exactly when the index it ends with is below the
    capacity. *)
Lemma main_encode_terminator (sg : bool) qsort (message : list Z) :
  sorts qsort -> c_string message -> message <> [] -> plain_chars sg message ->
  Z.of_nat (List.length message) < 2 ^ 54 ->
  exists table root b,
    main_table sg qsort message = Done table
    /\ encode_loop sg message table (output_buffer message) = Done b
    /\ current_idx b <= capacity b
    /\ main_encode sg qsort message
       = (if current_idx b <? capacity b then Done (table, root, b) else Fault).
Proof.
  intros Hsort Hc Hne Hplain Hlen.
  destruct (generate_tree_message sg qsort Hsort message Hc Hne) as (r & Hgen & Hinv).
  pose proof (generate_huffman_built sg message r Hc Hne Hinv) as Hh.
  set (table := {| chars := store_codes (chars (create_message sg message))
                              (leaf_codes r []) |}) in *.
  assert (Hheight : (height r < 256)%nat).
  { assert (Hw : weighted r) by (destruct Hinv as [_ Hw _ _ _]; inversion Hw; assumption).
    pose proof (weighted_height r Hw) as Hh'.
    pose proof (Permutation_length (root_leaves sg message Hc r Hinv)) as Hl.
    rewrite length_map in Hl. pose proof (length_present message). lia. }
  assert (Hcodes : forall l, (forall x, In x l -> In x message) ->
            (List.length (List.concat (map (fun x => copied_code (chars table) (to_char sg x)) l))
             <= 255 * List.length l)%nat).
  { induction l as [|x rest IH]; intros Hl; [simpl; lia|].
    cbn [map List.concat List.length]. rewrite length_app.
    destruct (message_copied_code sg message Hc r Hinv x Hplain (Hl x ltac:(left; reflexivity)))
      as [Hin _].
    pose proof (leaf_codes_height r [] _ _ Hin) as Hx. cbn [List.length] in Hx.
    assert (Hrest : forall y, In y rest -> In y message) by (intros y Hy; apply Hl; right; exact Hy).
    specialize (IH Hrest). unfold table in *. cbn [chars] in *. lia. }
  destruct (encode_loop_returns sg message table) with (b := output_buffer message)
    as (b & Hb & Hle).
  - apply Forall_forall. intros x Hx.
    apply (message_copied_code sg message Hc r Hinv x Hplain Hx).
  - apply output_buffer_ok.
  - apply size_t_range.
  - unfold output_buffer. cbn [capacity]. destruct Hc as [_ Hc].
    rewrite size_t_small by lia. lia.
  - specialize (Hcodes message ltac:(auto)).
    change (current_idx (output_buffer message)) with 0.
    unfold SIZE_MAX, SIZE_WIDTH. lia.
  - exists table, (Some (annotate r [])), b.
    split; [unfold main_table; rewrite Hgen; cbn [bind]; rewrite Hh; reflexivity|].
    split; [exact Hb|]. split; [exact Hle|].
    unfold main_encode. rewrite Hgen. cbn [bind]. rewrite Hh. cbn [bind fst snd].
    unfold huffman_encode. rewrite Hb. cbn [bind]. unfold store_terminator.
    destruct (current_idx b <? capacity b); reflexivity.
Qed.

(** ** The table of codes of a message *)

(** Two leaf codes of a tree of which one is a prefix of the other are the
    code of the same leaf. *)
Lemma leaf_codes_prefix_free (node : Node) :
  forall p c1 code1 c2 code2,
    In (c1, code1) (leaf_codes node p) -> In (c2, code2) (leaf_codes node p) ->
    is_prefix code1 code2 -> c1 = c2 /\ code1 = code2.
Proof.
  assert (Hcross : forall (l r : Node) p c1 code1 c2 code2 b1 b2,
             b1 <> b2 ->
             In (c1, code1) (leaf_codes l (p ++ [b1])) ->
             In (c2, code2) (leaf_codes r (p ++ [b2])) ->
             ~ is_prefix code1 code2).
  { intros l r p c1 code1 c2 code2 b1 b2 Hb H1 H2 [s Hs].
    destruct (leaf_codes_prefix _ _ _ _ H1) as (s1 & ->).
    destruct (leaf_codes_prefix _ _ _ _ H2) as (s2 & ->).
    rewrite <- !app_assoc in Hs. apply app_inv_head in Hs. simpl in Hs.
    injection Hs as Hs _. congruence. }
  induction node as [c f code | l c f code IHl | r c f code IHr | l r c f code IHl IHr]
    using Node_induction; intros p c1 code1 c2 code2 H1 H2 Hpre.
  - rewrite leaf_codes_leaf in *. destruct H1 as [H1 | []], H2 as [H2 | []]. split; congruence.
  - rewrite leaf_codes_left in *. eapply IHl; eassumption.
  - rewrite leaf_codes_right in *. eapply IHr; eassumption.
  - rewrite leaf_codes_both in *. apply in_app_or in H1, H2.
    destruct H1 as [H1 | H1], H2 as [H2 | H2].
    + eapply IHl; eassumption.
    + exfalso. apply (Hcross l r p c1 code1 c2 code2 CHAR_0 CHAR_1); auto. discriminate.
    + exfalso. apply (Hcross r l p c1 code1 c2 code2 CHAR_1 CHAR_0); auto. discriminate.
    + eapply IHr; eassumption.
Qed.

Lemma create_message_no_code (sg : bool) (message : list Z) (e : MessageChar) :
  In e (chars (create_message sg message)) -> mc_code e = None.
Proof.
  unfold create_message. cbn [chars].
  generalize (count_frequencies message (repeat 0 (Z.to_nat MAX_CHAR))). intros fr.
  generalize 0. induction fr as [|f fr IH]; intros i Hin; simpl in Hin.
  - destruct Hin.
  - destruct (f >? 0); [destruct Hin as [<- | Hin]; [reflexivity|]|]; eapply IH; eassumption.
Qed.

(** Every code of the table of a message is the code of a leaf with the
    character of the entry. *)
Lemma table_codes_of_leaves (sg : bool) (message : list Z) (root : Node) (e : MessageChar)
  (code : list Z) :
  In e (store_codes (chars (create_message sg message)) (leaf_codes root [])) ->
  mc_code e = Some code ->
  In (mc_c e, code) (leaf_codes root []).
Proof.
  intros Hin Hcode.
  destruct (store_codes_origin _ _ _ _ Hin Hcode) as [H | (e0 & H0 & _ & H1)]; [exact H|].
  rewrite (create_message_no_code sg message e0 H0) in H1. discriminate.
Qed.

Lemma main_table_built (sg : bool) qsort (message : list Z) :
  sorts qsort -> c_string message -> message <> [] ->
  exists root,
    main_table sg qsort message
    = Done {| chars := store_codes (chars (create_message sg message)) (leaf_codes root []) |}
    /\ generate_tree qsort (create_message sg message) = Done (Some root)
    /\ forest_inv (initial_leaves (create_message sg message))
         (Z.of_nat (List.length message)) [root].
Proof.
  intros Hsort Hc Hne. unfold main_table.
  destruct (generate_tree_message sg qsort Hsort message Hc Hne) as (root & Hgen & Hinv).
  rewrite Hgen. cbn [bind]. rewrite (generate_huffman_built sg message root Hc Hne Hinv).
  exists root. auto.
Qed.

(** C6: for every message with at least one character, the table of codes
    generated from its tree is returned, and for two entries with different
    characters neither code is a prefix of the other. *)
Theorem table_prefix_free (sg : bool) qsort (message : list Z) :
  sorts qsort -> c_string message -> message <> [] ->
  exists table,
    main_table sg qsort message = Done table
    /\ forall e1 e2 code1 code2,
         In e1 (chars table) -> In e2 (chars table) -> mc_c e1 <> mc_c e2 ->
         mc_code e1 = Some code1 -> mc_code e2 = Some code2 ->
         ~ is_prefix code1 code2 /\ ~ is_prefix code2 code1.
Proof.
  intros Hsort Hc Hne.
  destruct (main_table_built sg qsort message Hsort Hc Hne) as (root & -> & _ & _).
  eexists. split; [reflexivity|]. cbn [chars].
  intros e1 e2 code1 code2 H1 H2 Hne12 Hc1 Hc2.
  pose proof (table_codes_of_leaves sg message root e1 code1 H1 Hc1) as L1.
  pose proof (table_codes_of_leaves sg message root e2 code2 H2 Hc2) as L2.
  split; intros Hpre.
  - destruct (leaf_codes_prefix_free root [] _ _ _ _ L1 L2 Hpre). contradiction.
  - destruct (leaf_codes_prefix_free root [] _ _ _ _ L2 L1 Hpre). congruence.
Qed.

(** C8: for every message with at least one character the builder returns a
    tree in which every node with children has two, its frequency being the
    sum of theirs, and the frequency of the root is the length of the
    message. *)
Theorem tree_weights (sg : bool) qsort (message : list Z) :
  sorts qsort -> c_string message -> message <> [] ->
  exists root,
    generate_tree qsort (create_message sg message) = Done (Some root)
    /\ weighted root
    /\ n_freq root = Z.of_nat (List.length message).
Proof.
  intros Hsort Hc Hne.
  destruct (generate_tree_message sg qsort Hsort message Hc Hne) as (root & Hgen & Hinv).
  exists root. split; [exact Hgen|]. destruct Hinv as [_ Hw Ht _ _].
  split.
  - inversion Hw; assumption.
  - rewrite <- Ht. simpl. lia.
Qed.

(** ** Code lengths and frequencies *)







Lemma leaf_codes_subtrees (root : Node) (p : list Z) (c : Z) (code : list Z) :
  In (c, code) (leaf_codes root p) ->
  exists leaf, In (code, leaf) (subtrees root p) /\ is_leaf leaf = true /\ n_c leaf = c.
Proof.
  unfold leaf_codes. intros H. apply in_map_iff in H.
  destruct H as ([q leaf] & Heq & Hin). cbn [fst snd] in Heq. injection Heq as <- <-.
  apply filter_In in Hin. destruct Hin as [Hin Hl]. exists leaf. auto.
Qed.



(** ** Truncated input *)

Lemma in_firstn {A : Type} (k : nat) (l : list A) (x : A) : In x (firstn k l) -> In x l.
Proof.
  revert k. induction l as [|y l IH]; intros [|k] H; simpl in *; try contradiction.
  destruct H as [H | H]; [left; exact H | right; eapply IH; exact H].
Qed.

(** A prefix of [a ++ b] is a proper prefix of [a], or [a] followed by a
    prefix of [b]. *)
Lemma is_prefix_app (p a b : list Z) :
  is_prefix p (a ++ b) ->
  (exists q', a = p ++ q' /\ q' <> []) \/ (exists p', p = a ++ p' /\ is_prefix p' b).
Proof.
  revert p. induction a as [|x a IH]; intros p [s Hs].
  - right. exists p. split; [reflexivity | exists s; exact Hs].
  - destruct p as [|y p].
    + left. exists (x :: a). split; [reflexivity | discriminate].
    + simpl in Hs. injection Hs as <- Hs.
      destruct (IH p (ex_intro _ s Hs)) as [(q' & -> & Hq) | (p' & -> & Hp)].
      * left. exists q'. auto.
      * right. exists p'. auto.
Qed.

(** A prefix of a concatenation ends between two of the parts or properly
    inside one of them. *)
Lemma is_prefix_concat (cs : list (list Z)) :
  forall p, is_prefix p (List.concat cs) ->
    (exists k, p = List.concat (firstn k cs))
    \/ (exists cs1 q q' cs2,
          cs = cs1 ++ (q ++ q') :: cs2 /\ q <> [] /\ q' <> []
          /\ p = List.concat cs1 ++ q).
Proof.
  induction cs as [|c cs IH]; intros p Hp.
  - left. exists 0%nat. destruct Hp as [s Hs]. simpl in *.
    symmetry in Hs. apply app_eq_nil in Hs. tauto.
  - simpl in Hp. destruct (is_prefix_app p c (List.concat cs) Hp)
      as [(q' & -> & Hq') | (p' & -> & Hp')].
    + destruct p as [|y p].
      * left. exists 0%nat. reflexivity.
      * right. exists [], (y :: p), q', cs. repeat split; auto. discriminate.
    + destruct (IH p' Hp') as [(k & ->) | (cs1 & q & q' & cs2 & -> & Hq & Hq' & ->)].
      * left. exists (S k). reflexivity.
      * right. exists (c :: cs1), q, q', cs2. repeat split; auto.
        simpl. now rewrite app_assoc.
Qed.

Lemma put_char_room (b : buffer) (ch : Z) :
  0 <= current_idx b -> current_idx b < capacity b -> capacity b <= SIZE_MAX ->
  put_char b ch
  = Done {| capacity := capacity b; current_idx := current_idx b + 1;
            written := written b ++ [ch] |}.
Proof.
  intros H0 Hlt Hmax. unfold put_char.
  destruct (Z.geb_spec (current_idx b) (capacity b)) as [Hge | _]; [lia|].
  destruct (Z.ltb_spec (current_idx b) (capacity b)) as [_ | Hge]; [|lia].
  rewrite size_t_small by lia. reflexivity.
Qed.

(** The decoder on a sequence of strings each of which is empty or a leaf
    code, with room in the buffer for one character per string: it is back
    at the root after them. *)
Lemma decode_loop_code_list (root : Node) (cs : list (list Z)) :
  is_leaf root = false ->
  Forall (fun code => code = [] \/ exists c, In (c, code) (leaf_codes root [])) cs ->
  forall rest b,
    0 <= current_idx b ->
    current_idx b + Z.of_nat (List.length (List.concat cs)) < capacity b ->
    capacity b <= SIZE_MAX ->
    exists b',
      decode_loop (List.concat cs ++ rest) (Some root) None b
      = decode_loop rest (Some root) None b'.
Proof.
  intros Hroot. induction 1 as [|code cs Hcode _ IH]; intros rest b H0 Hroom Hmax.
  - exists b. reflexivity.
  - cbn [List.concat] in *. rewrite length_app in Hroom. rewrite <- app_assoc.
    destruct Hcode as [-> | (c & Hc)].
    + apply IH; simpl in *; lia.
    + destruct (decode_loop_code root [] c code Hc Hroot) as (s & Hs & Hne & Hdec).
      cbn [app] in Hs. subst s. rewrite Hdec by reflexivity.
      assert (Hlen : (1 <= List.length code)%nat) by (destruct code; [contradiction | simpl; lia]).
      rewrite put_char_room by lia. cbn [bind].
      apply IH; cbn [current_idx capacity]; lia.
Qed.

Lemma lookup_code_some (entries : list MessageChar) (c : Z) (code : option (list Z)) :
  lookup_code entries c = Some code ->
  exists e, In e entries /\ mc_c e = c /\ mc_code e = code.
Proof.
  induction entries as [|e rest IH]; simpl; intros H; [discriminate|].
  destruct (mc_c e =? c) eqn:E.
  - injection H as <-. apply Z.eqb_eq in E. exists e. auto.
  - destruct (IH H) as (e' & ? & ? & ?). exists e'. auto.
Qed.

(** When the cursor of the decoder is below the root after the last
    character, the result is [NULL]. *)
Lemma huffman_decode_below_root (bits : list Z) (root : option Node) (n : Node) (b : buffer) :
  decode_loop bits root None (output_buffer bits) = Done (Some n, b) ->
  huffman_decode bits root = Done None.
Proof.
  intros H. unfold huffman_decode. rewrite H. reflexivity.
Qed.

(** The codes copied by the encoder from a table whose codes are leaf codes
    of [root] or missing. *)
Lemma copied_codes_of_leaves (sg : bool) (entries : list MessageChar) (root : Node)
  (message : list Z) :
  (forall e code, In e entries -> mc_code e = Some code ->
                  In (mc_c e, code) (leaf_codes root [])) ->
  Forall (fun code => code = [] \/ exists c, In (c, code) (leaf_codes root []))
    (map (fun x => copied_code entries (to_char sg x)) message).
Proof.
  intros H. apply Forall_forall. intros code Hin. apply in_map_iff in Hin.
  destruct Hin as (x & <- & _). unfold copied_code.
  destruct (lookup_code entries (to_char sg x)) as [[code|]|] eqn:E; auto.
  destruct (lookup_code_some _ _ _ E) as (e & He & Hc & Hcode).
  right. exists (mc_c e). apply H; assumption.
Qed.

(** The loop of the encoder on the first characters of a message, from the
    buffer of the whole message, ends when the loop on the message does. *)
Lemma encode_loop_firstn (sg : bool) (message : list Z) (message_info : MessageInfo)
  (b b' : buffer) (k : nat) :
  encode_loop sg message message_info b = Done b' ->
  exists bk, encode_loop sg (firstn k message) message_info b = Done bk.
Proof.
  intros H. rewrite <- (firstn_skipn k message), encode_loop_app in H.
  destruct (encode_loop sg (firstn k message) message_info b) as [bk|]; [eauto | discriminate].
Qed.

(** The part of the encoded message that is cut inside a code is refused:
    the table and the tree are those of [generate_huffman] for any entries
    without codes. *)
Lemma huffman_decode_cut (sg : bool) (entries : list MessageChar) (root : Node)
  (message : list Z) (encoded : buffer) (p : list Z) :
  (forall e, In e entries -> mc_code e = None) ->
  huffman_encode sg message {| chars := store_codes entries (leaf_codes root []) |}
  = Done encoded ->
  is_prefix p (written encoded) ->
  (forall k bk,
      encode_loop sg (firstn k message)
        {| chars := store_codes entries (leaf_codes root []) |} (output_buffer message)
      = Done bk ->
      written bk <> p) ->
  exists n b,
    decode_loop p (Some (annotate root [])) None (output_buffer p) = Done (Some n, b).
Proof.
  intros Hnone Henc Hpre Hcut.
  set (table := {| chars := store_codes entries (leaf_codes root []) |}) in *.
  destruct (huffman_encode_done _ _ _ _ Henc) as [Hloop Hlen].
  destruct (encode_loop_written _ _ _ _ _ Hloop) as (Hw & Hok & _).
  cbn [output_buffer written app chars] in Hw.
  assert (Hleaves : forall e code, In e (chars table) -> mc_code e = Some code ->
                                   In (mc_c e, code) (leaf_codes root [])).
  { intros e code He Hcode.
    destruct (store_codes_origin _ _ _ _ He Hcode) as [H | (e0 & H0 & _ & H1)]; [exact H|].
    rewrite (Hnone e0 H0) in H1. discriminate. }
  pose proof (copied_codes_of_leaves sg (chars table) root message Hleaves) as Hcodes.
  assert (Hbound : forall k, p <> List.concat
                    (firstn k (map (fun x => copied_code (chars table) (to_char sg x)) message))).
  { intros k Heq. rewrite firstn_map in Heq.
    destruct (encode_loop_firstn sg message table _ _ k Hloop) as (bk & Hbk).
    apply (Hcut k bk Hbk).
    destruct (encode_loop_written _ _ _ _ _ Hbk) as (Hwk & _ & _).
    cbn [output_buffer written app] in Hwk. now rewrite Hwk. }
  assert (Hp : (List.length p <= List.length (written encoded))%nat).
  { destruct Hpre as [s ->]. rewrite length_app. lia. }
  rewrite Hw in Hpre.
  destruct (is_prefix_concat _ p Hpre) as [(k & Hk) | (cs1 & q & q' & cs2 & Hcs & Hq & Hq' & ->)].
  { exfalso. apply (Hbound k Hk). }
  rewrite Hcs in Hcodes. apply Forall_app in Hcodes. destruct Hcodes as [Hcs1 Hc].
  inversion Hc as [|? ? Hqq _]; subst.
  destruct Hqq as [Hnil | (c & Hc')].
  { apply app_eq_nil in Hnil. tauto. }
  assert (Hroot : is_leaf root = false).
  { destruct (is_leaf root) eqn:E; [|reflexivity].
    destruct (leaf_codes_is_leaf _ _ _ _ Hc' E) as [_ Hnil].
    apply app_eq_nil in Hnil. tauto. }
  assert (Hcs1' : Forall (fun code => code = []
                    \/ exists c, In (c, code) (leaf_codes (annotate root []) [])) cs1).
  { eapply Forall_impl; [|exact Hcs1]. intros code [H | (c0 & H)]; [auto|].
    right. exists c0. now rewrite leaf_codes_annotate. }
  assert (Hcap : capacity (output_buffer (List.concat cs1 ++ q))
                 = Z.of_nat (List.length (List.concat cs1 ++ q)) + 1).
  { apply size_t_small. lia. }
  destruct (decode_loop_code_list (annotate root []) cs1) with
    (rest := q) (b := output_buffer (List.concat cs1 ++ q)) as (b' & Hdec); auto.
  { now rewrite is_leaf_annotate. }
  { reflexivity. }
  { rewrite Hcap, length_app. change (current_idx (output_buffer (List.concat cs1 ++ q))) with 0.
    lia. }
  { rewrite Hcap. lia. }
  rewrite Hdec.
  destruct (decode_loop_cut (annotate root []) [] c q q') with
    (root := Some (annotate root [])) (cursor := @None Node) (b := b') as (m & Hm); auto.
  { rewrite leaf_codes_annotate. exact Hc'. }
  eauto.
Qed.

(** C5: when the cursor of the decoder is not back at the root after the
    last character, the decoder returns [NULL] and no part of the output;
    this is what happens on every prefix of an encoded message that is not
    what the encoder had written after some number of characters of the
    message. *)
Theorem truncated_input_refused :
  (forall (bits : list Z) (root : option Node) (n : Node) (b : buffer),
      decode_loop bits root None (output_buffer bits) = Done (Some n, b) ->
      huffman_decode bits root = Done None)
  /\ (forall (sg : bool) qsort (message : list Z) table root encoded (p : list Z),
         main_encode sg qsort message = Done (table, root, encoded) ->
         is_prefix p (written encoded) ->
         (forall k bk,
             encode_loop sg (firstn k message) table (output_buffer message) = Done bk ->
             written bk <> p) ->
         huffman_decode p root = Done None).
Proof.
  split; [exact huffman_decode_below_root|].
  intros sg qsort message table root encoded p Hmain Hpre Hcut.
  unfold main_encode in Hmain.
  destruct (generate_tree qsort (create_message sg message)) as [[r|]|]; cbn [bind] in Hmain;
    [| |discriminate].
  - destruct (generate_huffman (create_message sg message) (Some r)) as [res|] eqn:Hgen;
      cbn [bind] in Hmain; [|discriminate].
    rewrite (generate_huffman_done _ _ _ Hgen) in Hmain. cbn [fst snd] in Hmain.
    destruct (huffman_encode sg message _) as [enc|] eqn:Henc; cbn [bind] in Hmain;
      [|discriminate].
    injection Hmain as <- <- <-.
    destruct (huffman_decode_cut sg (chars (create_message sg message)) r message enc p)
      as (n & b & Hdec); auto.
    + intros e He. eapply create_message_no_code; exact He.
    + eapply huffman_decode_below_root; exact Hdec.
  - cbn [generate_huffman bind fst snd] in Hmain.
    destruct (huffman_encode sg message _) as [enc|] eqn:Henc; cbn [bind] in Hmain;
      [|discriminate].
    injection Hmain as <- <- <-. exfalso.
    destruct (huffman_encode_done _ _ _ _ Henc) as [Hloop _].
    destruct (encode_loop_written _ _ _ _ _ Hloop) as (Hw & Hok & _).
    cbn [output_buffer written app] in Hw.
    assert (Hnil : written enc = []).
    { rewrite Hw.
      assert (Hnone : forall e, In e (chars (create_message sg message)) -> mc_code e = None).
      { intros e He. eapply create_message_no_code; exact He. }
      revert Hnone Hok. generalize (chars (create_message sg message)). clear.
      intros es Hnone Hok. induction message as [|x rest IH]; [reflexivity|].
      inversion Hok as [|? ? Hx Hrest]; subst. cbn [map List.concat].
      rewrite (IH Hrest), app_nil_r. unfold copied_code.
      destruct (lookup_code _ _) as [[code|]|] eqn:E; try reflexivity.
      destruct (lookup_code_some _ _ _ E) as (e & He & _ & Hcode).
      rewrite (Hnone e He) in Hcode. discriminate. }
    rewrite Hnil in Hpre. destruct Hpre as [s Hs]. symmetry in Hs.
    apply app_eq_nil in Hs. destruct Hs as [-> _].
    apply (Hcut 0%nat (output_buffer message)); reflexivity.
Qed.

Lemma truncated_input_refused_witness :
  exists table root encoded,
    main_encode true stable_qsort (bytes_of_string "abc") = Done (table, root, encoded)
    /\ written encoded = bytes_of_string "10110"
    /\ huffman_decode (bytes_of_string "1") root = Done None.
Proof.
  do 3 eexists. split; [vm_compute; reflexivity|]. split; [reflexivity|].
  eapply (proj2 truncated_input_refused true stable_qsort (bytes_of_string "abc")).
  - vm_compute. reflexivity.
  - exists (bytes_of_string "0110"). reflexivity.
  - intros k bk H.
    assert (Hk : (k = 0 \/ k = 1 \/ k = 2 \/ 3 <= k)%nat) by lia.
    destruct Hk as [-> | [-> | [-> | Hk]]].
    + vm_compute in H. injection H as <-. discriminate.
    + vm_compute in H. injection H as <-. discriminate.
    + vm_compute in H. injection H as <-. discriminate.
    + rewrite firstn_all2 in H by exact Hk.
      vm_compute in H. injection H as <-. discriminate.
Defined.

(** ** The reference scenario of [main] *)

(** C2 (as amended): with a [qsort] that keeps equal elements in their
    order, the message of [main], of 59 characters, is encoded to the
    reference string of [main], of 150 characters, and that string is
    decoded with the same tree to the message. *)
Theorem reference_scenario (sg : bool) :
  List.length ref_message = 59%nat
  /\ List.length ref_encoded = 150%nat
  /\ (exists table root encoded,
        main_encode sg stable_qsort ref_message = Done (table, root, encoded)
        /\ written encoded = ref_encoded
        /\ huffman_decode ref_encoded root = Done (Some ref_message))
  /\ main_decode sg stable_qsort ref_message = Done (Some ref_message).
Proof.
  split; [reflexivity|]. split; [reflexivity|]. split.
  - do 3 eexists. split; [destruct sg; vm_compute; reflexivity|].
    split; destruct sg; vm_compute; reflexivity.
  - destruct sg; vm_compute; reflexivity.
Qed.

(** C2, as stated: the message of [main] has not 60 characters and the
    reference string has not 156. *)
Lemma reference_scenario_lengths :
  (List.length ref_message =? 60)%nat = false
  /\ (List.length ref_encoded =? 156)%nat = false.
Proof. split; reflexivity. Qed.

(** ** Inputs on which the program goes wrong *)

(** C3: for the empty message the table has no entry; the builder computes
    [2 * 0 - 1] in [size_t], asks for that many pointers, does not test the
    answer and clears the array: the run is undefined, no error is
    signalled. *)
Theorem empty_alphabet_faults (sg : bool) qsort :
  chars (create_message sg []) = []
  /\ size_t (2 * mi_length (create_message sg []) - 1) = SIZE_MAX
  /\ malloc_refuses (size_t (SIZE_MAX * SIZEOF_PTR)) = true
  /\ generate_tree qsort (create_message sg []) = Fault.
Proof.
  repeat split; vm_compute; reflexivity.
Qed.

(** C10: for the message [abcde] the loop of the encoder writes 12
    characters into a buffer whose capacity has grown from 6 to 12; the
    index of the terminating NUL is 12, not below the capacity, and the
    store is out of the buffer. *)
Theorem terminator_out_of_bounds (sg : bool) :
  exists table b,
    main_table sg stable_qsort (bytes_of_string "abcde") = Done table
    /\ capacity (output_buffer (bytes_of_string "abcde")) = 6
    /\ encode_loop sg (bytes_of_string "abcde") table (output_buffer (bytes_of_string "abcde"))
       = Done b
    /\ written b = bytes_of_string "000111011110"
    /\ current_idx b = 12
    /\ capacity b = 12
    /\ store_terminator b = Fault
    /\ huffman_encode sg (bytes_of_string "abcde") table = Fault
    /\ main_encode sg stable_qsort (bytes_of_string "abcde") = Fault.
Proof.
  do 2 eexists. split; [destruct sg; vm_compute; reflexivity|].
  split; [reflexivity|].
  split; [destruct sg; vm_compute; reflexivity|].
  repeat split; destruct sg; vm_compute; reflexivity.
Qed.

(** C1: the code does not keep the round trip of a message through its own
    table and tree.  The message [a], of one character, is decoded to the
    empty string, whatever the signedness of [char]; where [char] is signed
    the message of the bytes 128 and 97 makes the encoder read a code that
    was never stored; and for the message [abcde] the encoder stores the
    terminator out of its buffer, so that nothing defined is left to
    decode. *)
Lemma round_trip_fails :
  main_decode true stable_qsort (bytes_of_string "a") = Done (Some [])
  /\ main_decode false stable_qsort (bytes_of_string "a") = Done (Some [])
  /\ main_encode true stable_qsort [128; 97] = Fault
  /\ main_decode true stable_qsort [128; 97] = Fault
  /\ main_decode true stable_qsort (bytes_of_string "abcde") = Fault
  /\ main_decode false stable_qsort (bytes_of_string "abcde") = Fault.
Proof. repeat split; vm_compute; reflexivity. Qed.

(** ** Characters without an entry *)

Lemma lookup_code_absent (entries : list MessageChar) (c : Z) :
  (forall e, In e entries -> mc_c e <> c) -> lookup_code entries c = None.
Proof.
  induction entries as [|e rest IH]; intros H; simpl; [reflexivity|].
  destruct (mc_c e =? c) eqn:E.
  - apply Z.eqb_eq in E. exfalso. apply (H e); [left; reflexivity | exact E].
  - apply IH. intros e' He'. apply H. right. exact He'.
Qed.

(** C4 (as amended): a character of the message that has no entry in the
    table is skipped without any error: the encoder goes on as for the
    message without that character, in the buffer of the whole message, and
    when it returns for both messages the two strings are the same. *)
Theorem unknown_symbol_skipped (sg : bool) (m1 m2 : list Z) (x : Z) (message_info : MessageInfo) :
  (forall e, In e (chars message_info) -> mc_c e <> to_char sg x) ->
  huffman_encode sg (m1 ++ x :: m2) message_info
  = (b <- encode_loop sg (m1 ++ m2) message_info (output_buffer (m1 ++ x :: m2)) ;;
     store_terminator b)
  /\ (forall encoded encoded',
        huffman_encode sg (m1 ++ x :: m2) message_info = Done encoded ->
        huffman_encode sg (m1 ++ m2) message_info = Done encoded' ->
        written encoded = written encoded').
Proof.
  intros Habs.
  assert (Hloop : forall b, encode_loop sg (m1 ++ x :: m2) message_info b
                            = encode_loop sg (m1 ++ m2) message_info b).
  { intros b. rewrite !encode_loop_app.
    destruct (encode_loop sg m1 message_info b) as [b1|]; cbn [bind]; [|reflexivity].
    cbn [encode_loop]. rewrite encode_char_lookup, (lookup_code_absent _ _ Habs). reflexivity. }
  split.
  - unfold huffman_encode. now rewrite Hloop.
  - intros encoded encoded' H H'.
    destruct (huffman_encode_done _ _ _ _ H) as [Hl _].
    destruct (huffman_encode_done _ _ _ _ H') as [Hl' _].
    rewrite Hloop in Hl.
    destruct (encode_loop_written _ _ _ _ _ Hl) as (-> & _ & _).
    destruct (encode_loop_written _ _ _ _ _ Hl') as (-> & _ & _).
    reflexivity.
Qed.

Lemma unknown_symbol_skipped_witness :
  huffman_encode true (bytes_of_string "a" ++ 98 :: bytes_of_string "a")
    {| chars := [{| mc_c := 97; mc_freq := 2; mc_code := Some [CHAR_0] |}] |}
  = Done {| capacity := 4; current_idx := 2; written := [CHAR_0; CHAR_0] |}
  /\ huffman_encode true (bytes_of_string "a" ++ bytes_of_string "a")
       {| chars := [{| mc_c := 97; mc_freq := 2; mc_code := Some [CHAR_0] |}] |}
     = Done {| capacity := 3; current_idx := 2; written := [CHAR_0; CHAR_0] |}.
Proof.
  destruct (unknown_symbol_skipped true (bytes_of_string "a") (bytes_of_string "a") 98
              {| chars := [{| mc_c := 97; mc_freq := 2; mc_code := Some [CHAR_0] |}] |})
    as [H _].
  - intros e [<- | []]. vm_compute. discriminate.
  - split; [rewrite H|]; reflexivity.
Defined.

(** C4, as stated: the message [ab] with a table that has an entry for [a]
    only is encoded, without any error, to the code of [a]. *)
Lemma unknown_symbol_no_error :
  lookup_code [{| mc_c := 97; mc_freq := 1; mc_code := Some [CHAR_0] |}] (to_char true 98) = None
  /\ huffman_encode true (bytes_of_string "ab")
       {| chars := [{| mc_c := 97; mc_freq := 1; mc_code := Some [CHAR_0] |}] |}
     = Done {| capacity := 3; current_idx := 1; written := [CHAR_0] |}.
Proof. split; reflexivity. Qed.

(** ** Messages of a single character *)

(** A weighted tree whose root has children has at least two leaves. *)
Lemma weighted_two_leaves (t : Node) :
  weighted t -> is_leaf t = false ->
  exists l1 l2 rest, Permutation (leaf_nodes t) (l1 :: l2 :: rest).
Proof.
  destruct t as [[l|] [r|] c f code]; intros Hw Hl; try discriminate.
  - destruct (weighted_children _ _ _ _ _ Hw) as (Hwl & Hwr & _).
    rewrite leaf_nodes_both.
    pose proof (weighted_has_leaf l Hwl) as Hnl. pose proof (weighted_has_leaf r Hwr) as Hnr.
    destruct (leaf_nodes l) as [|a la]; [contradiction|].
    destruct (leaf_nodes r) as [|b lb]; [contradiction|].
    exists a, b, (la ++ lb). simpl. apply perm_skip. symmetry. apply Permutation_middle.
  - destruct (weighted_root _ Hw) as [[] _].
  - destruct (weighted_root _ Hw) as [[] _].
Qed.

Lemma NoDup_map_injective {A B : Type} (f : A -> B) (l : list A) :
  (forall x y, f x = f y -> x = y) -> NoDup l -> NoDup (map f l).
Proof.
  intros Hinj. induction 1 as [|x l Hx _ IH]; simpl; constructor; [|exact IH].
  intros Hin. apply in_map_iff in Hin. destruct Hin as (y & Heq & Hy).
  apply Hinj in Heq. subst. contradiction.
Qed.

(** When all the characters of the message are the same, the tree is a
    single leaf. *)
Lemma single_symbol_root (sg : bool) (message : list Z) (root : Node) :
  c_string message ->
  forest_inv (initial_leaves (create_message sg message))
    (Z.of_nat (List.length message)) [root] ->
  (forall x y, In x message -> In y message -> x = y) ->
  is_leaf root = true.
Proof.
  intros Hc Hinv Hsame. destruct (is_leaf root) eqn:E; [reflexivity|]. exfalso.
  assert (Hw : weighted root) by (destruct Hinv as [_ Hw _ _ _]; inversion Hw; assumption).
  destruct (weighted_two_leaves root Hw E) as (l1 & l2 & rest & Hp).
  pose proof (root_leaves sg message Hc root Hinv) as Hl.
  assert (Hnd : NoDup (l1 :: l2 :: rest)).
  { eapply Permutation_NoDup.
    - eapply perm_trans; [symmetry; exact Hl | exact Hp].
    - apply NoDup_map_injective; [|apply NoDup_present].
      intros j j' H. now injection H. }
  assert (Hin : forall l, In l (l1 :: l2 :: rest) ->
                  exists j, In j message /\ l = mkNode None None j (occurrences message j) None).
  { intros l Hin. eapply Permutation_in in Hin; [|symmetry; exact Hp].
    eapply Permutation_in in Hin; [|exact Hl].
    apply in_map_iff in Hin. destruct Hin as (j & <- & Hj). apply in_present in Hj.
    exists j. tauto. }
  destruct (Hin l1 ltac:(left; reflexivity)) as (j1 & Hj1 & ->).
  destruct (Hin l2 ltac:(right; left; reflexivity)) as (j2 & Hj2 & ->).
  rewrite (Hsame j1 j2 Hj1 Hj2) in Hnd.
  inversion Hnd as [|? ? Hnot _]; subst. apply Hnot. left. reflexivity.
Qed.

(** C9: for a message that is not empty and repeats a single plain
    character, [main] decodes the encoded message to the empty string. *)
Theorem single_symbol_decodes_empty (sg : bool) qsort (message : list Z) :
  sorts qsort -> c_string message -> message <> [] -> plain_chars sg message ->
  (forall x y, In x message -> In y message -> x = y) ->
  main_decode sg qsort message = Done (Some []).
Proof.
  intros Hsort Hc Hne Hplain Hsame. unfold main_decode.
  destruct (main_encode_built sg qsort message Hsort Hc Hne) as (root & Hinv & ->).
  pose proof (single_symbol_root sg message root Hc Hinv Hsame) as Hleaf.
  set (table := {| chars := store_codes (chars (create_message sg message))
                              (leaf_codes root []) |}).
  assert (Hloop : forall l b, (forall x, In x l -> In x message) ->
                              encode_loop sg l table b = Done b).
  { induction l as [|x rest IH]; intros b Hl; [reflexivity|].
    cbn [encode_loop]. rewrite encode_char_lookup.
    destruct (message_copied_code sg message Hc root Hinv x Hplain
                (Hl x ltac:(left; reflexivity))) as [Hin Hsome].
    destruct (leaf_codes_is_leaf _ _ _ _ Hin Hleaf) as [_ Hnil].
    unfold copied_code in Hnil.
    change (store_codes (chars (create_message sg message)) (leaf_codes root []))
      with (chars table) in Hsome, Hnil.
    destruct (lookup_code (chars table) (to_char sg x)) as [[code|]|];
      [simpl in Hnil; subst code | congruence |]; cbn [put_chars bind];
      apply IH; intros y Hy; apply Hl; right; exact Hy. }
  unfold huffman_encode. rewrite Hloop by auto. cbn [bind].
  assert (Hterm : store_terminator (output_buffer message) = Done (output_buffer message)).
  { unfold store_terminator, output_buffer. cbn [current_idx capacity].
    destruct Hc as [_ Hlen]. rewrite size_t_small by lia.
    destruct (Z.ltb_spec 0 (Z.of_nat (List.length message) + 1)); [reflexivity | lia]. }
  rewrite Hterm. reflexivity.
Qed.

(** ** Instances *)

Lemma abc_c_string : c_string (bytes_of_string "abc").
Proof.
  split; [repeat constructor; vm_compute; discriminate | vm_compute; reflexivity].
Qed.

Lemma table_prefix_free_witness :
  exists table,
    main_table true stable_qsort (bytes_of_string "abc") = Done table
    /\ map (fun e => (mc_c e, mc_code e)) (chars table)
       = [(97, Some (bytes_of_string "10")); (98, Some (bytes_of_string "11"));
          (99, Some (bytes_of_string "0"))]
    /\ forall e1 e2 code1 code2,
         In e1 (chars table) -> In e2 (chars table) -> mc_c e1 <> mc_c e2 ->
         mc_code e1 = Some code1 -> mc_code e2 = Some code2 ->
         ~ is_prefix code1 code2 /\ ~ is_prefix code2 code1.
Proof.
  destruct (table_prefix_free true stable_qsort (bytes_of_string "abc")
              stable_qsort_sorts abc_c_string ltac:(discriminate)) as (table & Ht & H).
  exists table. split; [exact Ht|]. split; [|exact H].
  pose proof Ht as Ht'. vm_compute in Ht'. injection Ht' as <-. reflexivity.
Defined.


Lemma tree_weights_witness :
  exists root,
    generate_tree stable_qsort (create_message true (bytes_of_string "abc")) = Done (Some root)
    /\ weighted root
    /\ n_freq root = 3.
Proof.
  apply (tree_weights true stable_qsort (bytes_of_string "abc") stable_qsort_sorts abc_c_string).
  discriminate.
Defined.

Lemma single_symbol_decodes_empty_witness :
  main_decode true stable_qsort (bytes_of_string "aaaa") = Done (Some []).
Proof.
  apply (single_symbol_decodes_empty true stable_qsort (bytes_of_string "aaaa")
           stable_qsort_sorts).
  - split; [repeat constructor; vm_compute; discriminate | vm_compute; reflexivity].
  - discriminate.
  - right. repeat constructor.
  - intros x y Hx Hy. vm_compute in Hx, Hy.
    repeat (destruct Hx as [<- | Hx]); repeat (destruct Hy as [<- | Hy]);
      try reflexivity; contradiction.
Defined.

(** * Further properties of the program *)

(** ** The frequency table of a message *)

(** [count_frequencies] adds to every cell of the array the number of
    occurrences of its index among the characters (read as
    [unsigned char]) of the message, as long as no counter can reach
    [SIZE_MAX]; the array keeps its [MAX_CHAR] cells. *)
Theorem count_frequencies_counts (message frequencies : list Z) :
  Forall (fun b => 0 <= b <= 255) message ->
  List.length frequencies = Z.to_nat MAX_CHAR ->
  (forall i, (i < 256)%nat ->
             0 <= nth i frequencies 0 <= SIZE_MAX - Z.of_nat (List.length message)) ->
  List.length (count_frequencies message frequencies) = Z.to_nat MAX_CHAR
  /\ forall j, 0 <= j < MAX_CHAR ->
       nth (Z.to_nat j) (count_frequencies message frequencies) 0
       = nth (Z.to_nat j) frequencies 0 + occurrences message j.
Proof.
  intros Hb Hlen Hf.
  destruct (count_frequencies_nth message frequencies
              (SIZE_MAX - Z.of_nat (List.length message)) Hlen Hb Hf ltac:(lia)) as [Hl Hn].
  split; [exact Hl|]. intros j Hj. unfold MAX_CHAR in Hj.
  rewrite (Hn (Z.to_nat j)) by lia. now rewrite Z2Nat.id by lia.
Qed.

Lemma count_frequencies_counts_witness :
  List.length (count_frequencies (bytes_of_string "abca") (repeat 0 256)) = Z.to_nat MAX_CHAR
  /\ forall j, 0 <= j < MAX_CHAR ->
       nth (Z.to_nat j) (count_frequencies (bytes_of_string "abca") (repeat 0 256)) 0
       = nth (Z.to_nat j) (repeat 0 256) 0 + occurrences (bytes_of_string "abca") j.
Proof.
  apply (count_frequencies_counts (bytes_of_string "abca") (repeat 0 256)).
  - repeat constructor; vm_compute; discriminate.
  - reflexivity.
  - intros i Hi. rewrite nth_repeat. vm_compute. split; discriminate.
Defined.


Lemma StronglySorted_zseq (n : nat) : forall start, StronglySorted Z.lt (zseq start n).
Proof.
  induction n as [|n IH]; intros start; simpl; constructor.
  - apply IH.
  - apply Forall_forall. intros j Hj. apply in_zseq in Hj. lia.
Qed.

Lemma StronglySorted_filter {A : Type} (R : A -> A -> Prop) (f : A -> bool) (l : list A) :
  StronglySorted R l -> StronglySorted R (filter f l).
Proof.
  induction 1 as [|x l Hs IH Hx]; simpl; [constructor|].
  destruct (f x); [|exact IH]. constructor; [exact IH|].
  rewrite Forall_forall in *. intros y Hy. apply filter_In in Hy. apply Hx, Hy.
Qed.

Lemma StronglySorted_present (message : list Z) : StronglySorted Z.lt (present message).
Proof. apply StronglySorted_filter, StronglySorted_zseq. Qed.

Lemma create_message_uchars (sg : bool) (message : list Z) :
  c_string message ->
  map (fun e => to_uchar (mc_c e)) (chars (create_message sg message)) = present message.
Proof.
  intros Hc. rewrite (create_message_chars sg message Hc), map_map. cbn [mc_c].
  rewrite <- (map_id (present message)) at 2. apply map_ext_in.
  intros j Hj. apply in_present in Hj. apply to_uchar_to_char. lia.
Qed.

(** [create_message] gives one entry per distinct character of the message,
    in increasing order of the characters read as [unsigned char]; the entry
    carries the number of occurrences of its character, and no code. *)
Theorem create_message_entries (sg : bool) (message : list Z) :
  c_string message ->
  StronglySorted Z.lt (map (fun e => to_uchar (mc_c e)) (chars (create_message sg message)))
  /\ (forall e, In e (chars (create_message sg message)) ->
                In (to_uchar (mc_c e)) message
                /\ mc_freq e = occurrences message (to_uchar (mc_c e))
                /\ mc_code e = None)
  /\ (forall x, In x message ->
                exists e, In e (chars (create_message sg message)) /\ mc_c e = to_char sg x).
Proof.
  intros Hc. split; [|split].
  - rewrite (create_message_uchars sg message Hc). apply StronglySorted_present.
  - intros e He. rewrite (create_message_chars sg message Hc) in He.
    apply in_map_iff in He. destruct He as (j & <- & Hj). cbn [mc_c mc_freq mc_code].
    apply in_present in Hj. rewrite to_uchar_to_char by lia. tauto.
  - intros x Hx. rewrite (create_message_chars sg message Hc).
    eexists. split; [apply in_map_iff; exists x; split; [reflexivity|] | reflexivity].
    apply in_present. destruct Hc as [Hb _]. rewrite Forall_forall in Hb.
    specialize (Hb x Hx). split; [lia | exact Hx].
Qed.

Lemma create_message_entries_witness :
  StronglySorted Z.lt
    (map (fun e => to_uchar (mc_c e)) (chars (create_message true (bytes_of_string "abc"))))
  /\ map (fun e => (mc_c e, mc_freq e, mc_code e))
       (chars (create_message true (bytes_of_string "abc")))
     = [(97, 1, None); (98, 1, None); (99, 1, None)].
Proof.
  split; [|reflexivity].
  apply (create_message_entries true (bytes_of_string "abc") abc_c_string).
Defined.

(** The frequencies of the entries add up to the length of the message;
    there are at most [MAX_CHAR] entries, and none only for the empty
    message. *)
Theorem create_message_totals (sg : bool) (message : list Z) :
  c_string message ->
  zsum (map mc_freq (chars (create_message sg message))) = Z.of_nat (List.length message)
  /\ mi_length (create_message sg message) <= MAX_CHAR
  /\ (mi_length (create_message sg message) = 0 <-> message = []).
Proof.
  intros Hc. split; [|split].
  - rewrite (create_message_chars sg message Hc), map_map. cbn [mc_freq].
    apply zsum_occurrences; [apply NoDup_present|].
    intros x Hx. apply in_present. destruct Hc as [Hb _]. rewrite Forall_forall in Hb.
    specialize (Hb x Hx). split; [lia | exact Hx].
  - unfold mi_length, MAX_CHAR. rewrite (create_message_chars sg message Hc), length_map.
    pose proof (length_present message). lia.
  - split.
    + intros H0. destruct message as [|x rest]; [reflexivity|]. exfalso.
      pose proof (mi_length_message sg (x :: rest) Hc ltac:(discriminate)). lia.
    + intros ->. destruct sg; reflexivity.
Qed.

Lemma create_message_totals_witness :
  zsum (map mc_freq (chars (create_message true (bytes_of_string "abca")))) = 4
  /\ mi_length (create_message true (bytes_of_string "abca")) = 3.
Proof.
  split; [|reflexivity].
  apply (create_message_totals true (bytes_of_string "abca")).
  split; [repeat constructor; vm_compute; discriminate | vm_compute; reflexivity].
Defined.

(** ** The comparison of nodes and the sort *)

(** [node_compare] is a comparison as [qsort] asks for: its value is -1, 0
    or 1, exchanging the arguments changes its sign, it is transitive, two
    nodes compare as their frequencies do, and [NULL] comes after every
    node. *)
Theorem node_compare_consistent (a b c : option Node) :
  -1 <= node_compare a b <= 1
  /\ node_compare b a = - node_compare a b
  /\ (node_compare a b <= 0 -> node_compare b c <= 0 -> node_compare a c <= 0)
  /\ (node_compare a b = 0 -> node_compare b c = 0 -> node_compare a c = 0)
  /\ (forall x y, node_compare (Some x) (Some y) = Z.sgn (n_freq x - n_freq y))
  /\ (forall x, node_compare (Some x) None = -1 /\ node_compare None (Some x) = 1)
  /\ node_compare None None = 0.
Proof.
  assert (Hsgn : forall x y, node_compare (Some x) (Some y) = Z.sgn (n_freq x - n_freq y)).
  { intros x y. cbn [node_compare]. rewrite Z.gtb_ltb.
    destruct (Z.ltb_spec (n_freq y) (n_freq x)), (Z.ltb_spec (n_freq x) (n_freq y));
      cbn [Z.b2z]; lia. }
  repeat split; try reflexivity; try exact Hsgn.
  - destruct a as [x|], b as [y|]; try rewrite Hsgn; cbn [node_compare]; lia.
  - destruct a as [x|], b as [y|]; try rewrite Hsgn; cbn [node_compare]; lia.
  - destruct a as [x|], b as [y|]; rewrite ?Hsgn; cbn [node_compare]; lia.
  - apply node_compare_trans.
  - destruct a as [x|], b as [y|], c as [z|]; rewrite ?Hsgn; cbn [node_compare]; lia.
Qed.

(** An array in the order of [node_compare] holds nodes in increasing order
    of frequency, then [NULL] cells only. *)
Lemma sorted_cells (l : list (option Node)) :
  StronglySorted (fun a b => node_compare a b <= 0) l ->
  exists forest k, l = forest_cells forest k /\ freq_sorted forest.
Proof.
  induction 1 as [|x l _ (f & k & -> & Hf) Hx].
  - exists [], 0%nat. split; [reflexivity | constructor].
  - destruct x as [t|].
    + exists (t :: f), k. split; [reflexivity|]. constructor; [exact Hf|].
      rewrite Forall_forall in *. intros y Hy.
      apply node_compare_some, Hx. unfold forest_cells.
      apply in_or_app. left. now apply in_map.
    + destruct f as [|t f].
      * exists [], (S k). split; [reflexivity | constructor].
      * exfalso. inversion Hx as [|? ? Ht _]; subst.
        apply node_compare_none in Ht. discriminate.
Qed.

(** [sort_nodes] leaves the cells from [nb_nodes] on as they are; the first
    [nb_nodes] cells are rearranged into nodes in increasing order of
    frequency followed by the [NULL] cells. *)
Theorem sort_nodes_sorted qsort (nodes : list (option Node)) (nb_nodes : nat) :
  sorts qsort -> (nb_nodes <= List.length nodes)%nat ->
  List.length (sort_nodes qsort nodes nb_nodes) = List.length nodes
  /\ Permutation (firstn nb_nodes (sort_nodes qsort nodes nb_nodes)) (firstn nb_nodes nodes)
  /\ skipn nb_nodes (sort_nodes qsort nodes nb_nodes) = skipn nb_nodes nodes
  /\ exists forest k,
       firstn nb_nodes (sort_nodes qsort nodes nb_nodes) = forest_cells forest k
       /\ freq_sorted forest.
Proof.
  intros Hsort Hnb. unfold sort_nodes.
  destruct (Hsort (firstn nb_nodes nodes)) as [Hperm _].
  assert (Hlen : List.length (qsort node_compare (firstn nb_nodes nodes)) = nb_nodes).
  { rewrite (Permutation_length Hperm), length_firstn. lia. }
  assert (Hfirst : firstn nb_nodes (qsort node_compare (firstn nb_nodes nodes)
                                    ++ skipn nb_nodes nodes)
                   = qsort node_compare (firstn nb_nodes nodes)).
  { rewrite firstn_app, Hlen, Nat.sub_diag. cbn [firstn]. rewrite app_nil_r.
    rewrite <- Hlen at 1. apply firstn_all. }
  rewrite Hfirst. split; [|split; [|split]].
  - rewrite length_app, Hlen, length_skipn. lia.
  - exact Hperm.
  - rewrite skipn_app, Hlen, Nat.sub_diag. cbn [skipn].
    rewrite <- Hlen at 1. now rewrite skipn_all.
  - apply sorted_cells, sorts_strongly, Hsort.
Qed.

Lemma sort_nodes_sorted_witness :
  sort_nodes stable_qsort
    [Some (create_node 98 2); None; Some (create_node 97 1); Some (create_node 99 5)] 3
  = [Some (create_node 97 1); Some (create_node 98 2); None; Some (create_node 99 5)]
  /\ exists forest k,
       firstn 3 (sort_nodes stable_qsort
                   [Some (create_node 98 2); None; Some (create_node 97 1);
                    Some (create_node 99 5)] 3)
       = forest_cells forest k
       /\ freq_sorted forest.
Proof.
  split; [reflexivity|].
  apply (sort_nodes_sorted stable_qsort
           [Some (create_node 98 2); None; Some (create_node 97 1); Some (create_node 99 5)] 3
           stable_qsort_sorts).
  simpl. lia.
Defined.

(** ** The tree of a table *)

Lemma nodes_parent (t1 t2 : Node) :
  map snd (subtrees (create_parent_node t1 t2) [])
  = create_parent_node t1 t2 :: map snd (subtrees t1 []) ++ map snd (subtrees t2 []).
Proof.
  change (subtrees (create_parent_node t1 t2) [])
    with (([], create_parent_node t1 t2) :: subtrees t1 [CHAR_0] ++ subtrees t2 [CHAR_1]).
  cbn [map snd]. rewrite map_app.
  now rewrite (subtrees_nodes t1 _ []), (subtrees_nodes t2 _ []).
Qed.

(** For a table with at least one entry [generate_tree] returns a tree; its
    leaves are those created for the entries, and a property of nodes that
    holds of the leaves created and of every parent created for a pair in
    order of frequency holds of all its nodes. *)
Lemma generate_tree_nodes qsort (message_info : MessageInfo) (Q : Node -> Prop) :
  sorts qsort -> 1 <= mi_length message_info <= 2 ^ 59 ->
  (forall c f, Q (create_node c f)) ->
  (forall t1 t2, n_freq t1 <= n_freq t2 -> Q (create_parent_node t1 t2)) ->
  exists root,
    generate_tree qsort message_info = Done (Some root)
    /\ Permutation (leaf_nodes root) (initial_leaves message_info)
    /\ Forall Q (map snd (subtrees root [])).
Proof.
  intros Hsort Hlen Hleaf Hparent.
  destruct (generate_tree_rule qsort Hsort
              (fun f => Permutation (flat_map leaf_nodes f) (initial_leaves message_info)
                        /\ Forall (fun t => Forall Q (map snd (subtrees t []))) f)
              message_info) as (root & Hgen & Hl & Hq).
  - intros f f' Hp [H1 H2]. split.
    + eapply perm_trans; [|exact H1]. symmetry. now apply Permutation_flat_map.
    + eapply Permutation_Forall; eassumption.
  - intros t1 t2 rest Hs [H1 H2].
    destruct (freq_sorted_head _ _ _ Hs) as [H12 _].
    inversion H2 as [|? ? Hq1 H2']; subst. inversion H2' as [|? ? Hq2 Hqr]; subst.
    split.
    + cbn [flat_map] in *. rewrite leaf_nodes_parent, <- app_assoc. exact H1.
    + constructor; [|exact Hqr]. rewrite nodes_parent. constructor; [apply Hparent, H12|].
      apply Forall_app. split; assumption.
  - exact Hlen.
  - split.
    + unfold initial_leaves. induction (chars message_info) as [|e es IH]; [constructor|].
      cbn [map flat_map]. rewrite leaf_nodes_leaf. cbn [app]. now constructor.
    + unfold initial_leaves. apply Forall_forall. intros t Ht. apply in_map_iff in Ht.
      destruct Ht as (e & <- & _). cbn [subtrees create_node map snd app].
      constructor; [apply Hleaf | constructor].
  - exists root. cbn [flat_map] in Hl. rewrite app_nil_r in Hl.
    inversion Hq; subst. auto.
Qed.

Lemma full_tree_children (l r : Node) (c f : Z) (code : option (list Z)) :
  full_tree (mkNode (Some l) (Some r) c f code) -> full_tree l /\ full_tree r.
Proof.
  unfold full_tree. cbn [subtrees map snd]. intros H.
  inversion H as [|? ? _ H']; subst. rewrite map_app in H'.
  apply Forall_app in H'. destruct H' as [Hl Hr].
  rewrite (subtrees_nodes l _ []) in Hl. rewrite (subtrees_nodes r _ []) in Hr. auto.
Qed.

Lemma full_tree_root (t : Node) : full_tree t -> two_or_none t.
Proof.
  unfold full_tree. rewrite Forall_forall. intros H. apply H, root_in_nodes.
Qed.

(** A tree whose nodes have no child or two has one node less than twice
    its leaves, and is lower than it has leaves. *)
Lemma full_tree_count (t : Node) :
  full_tree t ->
  (List.length (subtrees t []) + 1 = 2 * List.length (leaf_nodes t))%nat
  /\ (height t < List.length (leaf_nodes t))%nat.
Proof.
  induction t as [c f code | l c f code IHl | r c f code IHr | l r c f code IHl IHr]
    using Node_induction; intros Hf.
  - simpl. lia.
  - destruct (full_tree_root _ Hf).
  - destruct (full_tree_root _ Hf).
  - destruct (full_tree_children _ _ _ _ _ Hf) as [Hl Hr].
    destruct (IHl Hl) as [Hcl Hhl]. destruct (IHr Hr) as [Hcr Hhr].
    rewrite leaf_nodes_both, length_app. cbn [subtrees height List.length].
    rewrite length_app.
    pose proof (f_equal (@List.length _) (subtrees_nodes l [CHAR_0] [])) as El.
    pose proof (f_equal (@List.length _) (subtrees_nodes r [CHAR_1] [])) as Er.
    rewrite !length_map in El, Er. cbn [app] in *. lia.
Qed.

Lemma weighted_full_tree (t : Node) : weighted t -> full_tree t.
Proof.
  unfold weighted, full_tree. apply Forall_impl. intros n [Hs _].
  unfold sum_node in Hs. unfold two_or_none.
  destruct (n_left n), (n_right n); tauto.
Qed.

(** For every table with at least one entry, whatever its frequencies,
    [generate_tree] returns a tree with one leaf per entry, carrying the
    character and the frequency of the entry; every node has no child or
    two, so the tree has [2 * length - 1] nodes, the number of cells of the
    array. *)
Theorem generate_tree_leaves qsort (message_info : MessageInfo) :
  sorts qsort -> 1 <= mi_length message_info <= 2 ^ 59 ->
  exists root,
    generate_tree qsort message_info = Done (Some root)
    /\ Permutation (leaf_nodes root)
         (map (fun e => create_node (mc_c e) (mc_freq e)) (chars message_info))
    /\ full_tree root
    /\ Z.of_nat (List.length (subtrees root [])) = 2 * mi_length message_info - 1.
Proof.
  intros Hsort Hlen.
  destruct (generate_tree_nodes qsort message_info two_or_none Hsort Hlen)
    as (root & Hgen & Hl & Hq).
  - intros c f. exact I.
  - intros t1 t2 _. exact I.
  - exists root. split; [exact Hgen|]. split; [exact Hl|]. split; [exact Hq|].
    destruct (full_tree_count root Hq) as [Hc _].
    apply Permutation_length in Hl. unfold initial_leaves in Hl. rewrite length_map in Hl.
    unfold mi_length in *. lia.
Qed.

Lemma generate_tree_leaves_witness :
  exists root,
    generate_tree stable_qsort (create_message true (bytes_of_string "abc")) = Done (Some root)
    /\ Permutation (leaf_nodes root)
         (map (fun e => create_node (mc_c e) (mc_freq e))
            (chars (create_message true (bytes_of_string "abc"))))
    /\ full_tree root
    /\ Z.of_nat (List.length (subtrees root []))
       = 2 * mi_length (create_message true (bytes_of_string "abc")) - 1.
Proof.
  apply (generate_tree_leaves stable_qsort (create_message true (bytes_of_string "abc"))
           stable_qsort_sorts).
  vm_compute. split; discriminate.
Defined.

(** In the tree of [generate_tree] the left child of a node is never
    heavier than its right child. *)
Theorem generate_tree_left_lighter qsort (message_info : MessageInfo) :
  sorts qsort -> 1 <= mi_length message_info <= 2 ^ 59 ->
  exists root,
    generate_tree qsort message_info = Done (Some root)
    /\ forall path n l r,
         In (path, n) (subtrees root []) -> n_left n = Some l -> n_right n = Some r ->
         n_freq l <= n_freq r.
Proof.
  intros Hsort Hlen.
  destruct (generate_tree_nodes qsort message_info
              (fun n => forall l r, n_left n = Some l -> n_right n = Some r ->
                                    n_freq l <= n_freq r) Hsort Hlen)
    as (root & Hgen & _ & Hq).
  - intros c f l r H. discriminate.
  - intros t1 t2 H12 l r Hl Hr. cbn [create_parent_node n_left n_right] in *.
    injection Hl as <-. injection Hr as <-. exact H12.
  - exists root. split; [exact Hgen|]. intros path n l r Hn.
    rewrite Forall_forall in Hq. apply Hq. apply in_map_iff. exists (path, n). auto.
Qed.

Lemma generate_tree_left_lighter_witness :
  exists root,
    generate_tree stable_qsort (create_message true (bytes_of_string "aab")) = Done (Some root)
    /\ forall path n l r,
         In (path, n) (subtrees root []) -> n_left n = Some l -> n_right n = Some r ->
         n_freq l <= n_freq r.
Proof.
  apply (generate_tree_left_lighter stable_qsort
           (create_message true (bytes_of_string "aab")) stable_qsort_sorts).
  vm_compute. split; discriminate.
Defined.

(** For a table with a single entry [generate_tree] returns the leaf of
    that entry: a root without children. *)
Theorem generate_tree_single qsort (e : MessageChar) :
  sorts qsort ->
  generate_tree qsort {| chars := [e] |} = Done (Some (create_node (mc_c e) (mc_freq e))).
Proof.
  intros Hsort.
  destruct (generate_tree_nodes qsort {| chars := [e] |} two_or_none Hsort)
    as (root & Hgen & Hl & Hq).
  - vm_compute. split; discriminate.
  - intros c f. exact I.
  - intros t1 t2 _. exact I.
  - rewrite Hgen. do 2 f_equal.
    cbn [initial_leaves chars map] in Hl.
    destruct (full_tree_count root Hq) as [_ Hh].
    rewrite (Permutation_length Hl) in Hh. cbn [List.length] in Hh.
    assert (Hleaf : is_leaf root = true).
    { destruct root as [[l|] [r|] c f code]; cbn [height] in Hh; try reflexivity; lia. }
    rewrite (leaf_nodes_of_leaf root Hleaf) in Hl.
    apply Permutation_length_1 in Hl. exact Hl.
Qed.

Lemma generate_tree_single_witness :
  generate_tree stable_qsort {| chars := [{| mc_c := 97; mc_freq := 4; mc_code := None |}] |}
  = Done (Some (create_node 97 4)).
Proof.
  apply (generate_tree_single stable_qsort {| mc_c := 97; mc_freq := 4; mc_code := None |}
           stable_qsort_sorts).
Defined.

(** ** The codes of a tree *)

(** [_generate_huffman] runs out of the buffer when the buffer is not
    longer than the depth of the deepest leaf. *)
Lemma generate_huffman_overflows (node : Node) :
  forall message_info code_buffer depth,
    (depth < List.length code_buffer)%nat ->
    (List.length code_buffer <= depth + height node)%nat ->
    _generate_huffman message_info node code_buffer depth = Fault.
Proof.
  assert (Hchild : forall child,
    (forall message_info code_buffer depth,
        (depth < List.length code_buffer)%nat ->
        (List.length code_buffer <= depth + height child)%nat ->
        _generate_huffman message_info child code_buffer depth = Fault) ->
    forall message_info code_buffer depth bit,
      (depth < List.length code_buffer)%nat ->
      (List.length code_buffer <= depth + 1 + height child)%nat ->
      (code_buffer <- buffer_store code_buffer depth bit ;;
       code_buffer <- buffer_store code_buffer (depth + 1) 0 ;;
       r <- _generate_huffman message_info child code_buffer (depth + 1) ;;
       Done (fst (fst r), Some (snd (fst r)), snd r)) = @Fault (MessageInfo * option Node * list Z)).
  { intros child IH message_info code_buffer depth bit Hd Hb.
    rewrite buffer_store_done by lia. cbn [bind].
    unfold buffer_store at 1. rewrite length_array_set.
    destruct (Nat.ltb_spec (depth + 1) (List.length code_buffer)) as [Hlt | Hge];
      [|reflexivity].
    cbn [bind]. rewrite IH; [reflexivity | |]; rewrite !length_array_set; lia. }
  induction node as [c f code | l c f code IHl | r0 c f code IHr | l r0 c f code IHl IHr]
    using Node_induction; intros message_info code_buffer depth Hd Hb;
    cbn [_generate_huffman]; cbn [height] in Hb.
  - lia.
  - rewrite (Hchild l IHl) by lia. reflexivity.
  - cbn [bind fst snd]. rewrite (Hchild r0 IHr) by lia. reflexivity.
  - match goal with |- bind ?m _ = _ => destruct m as [r1|] eqn:E1 end; [|reflexivity].
    cbn [bind].
    destruct (visit_child_done l (generate_huffman_nodes l) _ _ _ _ _ E1) as (_ & _ & Hl1 & _).
    destruct (Nat.le_ge_cases (height r0) (height l)) as [Hle | Hge].
    + rewrite (Hchild l IHl) in E1 by lia. discriminate.
    + rewrite (Hchild r0 IHr) by lia. reflexivity.
Qed.

(** [generate_huffman] stays within [code_buffer], which has one character
    more than the table has entries, exactly when the tree is not higher
    than the table is long. *)
Theorem generate_huffman_bounds (message_info : MessageInfo) (root : Node) :
  mi_length message_info < SIZE_MAX ->
  (generate_huffman message_info (Some root) = Fault
   <-> mi_length message_info < Z.of_nat (height root)).
Proof.
  intros Hlen. unfold generate_huffman.
  pose proof (Nat2Z.is_nonneg (List.length (chars message_info))) as H0.
  unfold mi_length in *. rewrite size_t_small by lia.
  set (code_buffer := repeat 0 (Z.to_nat (Z.of_nat (List.length (chars message_info)) + 1))).
  assert (Hb : List.length code_buffer = S (List.length (chars message_info))).
  { unfold code_buffer. rewrite repeat_length. lia. }
  split.
  - intros H.
    destruct (Z.ltb_spec (Z.of_nat (List.length (chars message_info))) (Z.of_nat (height root)))
      as [Hlt | Hge]; [exact Hlt|]. exfalso.
    destruct (generate_huffman_returns root message_info code_buffer 0) as (r & Hr); [lia|].
    rewrite Hr in H. discriminate.
  - intros H. rewrite generate_huffman_overflows; [reflexivity | lia | lia].
Qed.

Lemma generate_huffman_bounds_witness :
  generate_huffman {| chars := [] |}
    (Some (create_parent_node (create_node 97 1) (create_node 98 1))) = Fault
  /\ exists r,
       generate_huffman {| chars := [{| mc_c := 97; mc_freq := 1; mc_code := None |}] |}
         (Some (create_parent_node (create_node 97 1) (create_node 98 1))) = Done r.
Proof.
  split.
  - apply (generate_huffman_bounds {| chars := [] |}
             (create_parent_node (create_node 97 1) (create_node 98 1))).
    + vm_compute. reflexivity.
    + vm_compute. reflexivity.
  - eexists. reflexivity.
Defined.

Lemma annotate_codes (node : Node) :
  forall p path n, In (path, n) (subtrees (annotate node p) p) -> n_code n = Some path.
Proof.
  induction node as [c f code | l c f code IHl | r c f code IHr | l r c f code IHl IHr]
    using Node_induction; intros p path n Hin; cbn [annotate subtrees] in Hin.
  - destruct Hin as [Heq | []]. now injection Heq as <- <-.
  - rewrite app_nil_r in Hin. destruct Hin as [Heq | Hin]; [now injection Heq as <- <-|].
    eapply IHl; exact Hin.
  - destruct Hin as [Heq | Hin]; [now injection Heq as <- <-|]. eapply IHr; exact Hin.
  - destruct Hin as [Heq | Hin]; [now injection Heq as <- <-|].
    apply in_app_or in Hin. destruct Hin as [Hin | Hin]; [eapply IHl | eapply IHr]; exact Hin.
Qed.

Lemma annotate_shape (node : Node) :
  forall p q,
    map (fun x => (fst x, n_c (snd x), n_freq (snd x))) (subtrees (annotate node q) p)
    = map (fun x => (fst x, n_c (snd x), n_freq (snd x))) (subtrees node p).
Proof.
  induction node as [c f code | l c f code IHl | r c f code IHr | l r c f code IHl IHr]
    using Node_induction; intros p q; cbn [annotate subtrees map fst snd n_c n_freq].
  - reflexivity.
  - rewrite !app_nil_r. f_equal. apply IHl.
  - f_equal. apply IHr.
  - f_equal. rewrite !map_app. f_equal; [apply IHl | apply IHr].
Qed.

(** When [generate_huffman] returns, the tree has the nodes it had, with
    their characters and frequencies, and every node carries as its code the
    path from the root to it: nothing for the root, the code of the parent
    followed by ['0'] for a left child and by ['1'] for a right child. *)
Theorem generate_huffman_node_codes (message_info table : MessageInfo) (root : Node)
  (result : option Node) :
  generate_huffman message_info (Some root) = Done (table, result) ->
  exists root',
    result = Some root'
    /\ map (fun x => (fst x, n_c (snd x), n_freq (snd x))) (subtrees root' [])
       = map (fun x => (fst x, n_c (snd x), n_freq (snd x))) (subtrees root [])
    /\ forall path n, In (path, n) (subtrees root' []) -> n_code n = Some path.
Proof.
  intros H. apply generate_huffman_done in H. injection H as -> ->.
  exists (annotate root []). split; [reflexivity|]. split.
  - apply annotate_shape.
  - apply annotate_codes.
Qed.

Lemma generate_huffman_node_codes_witness :
  exists root',
    Some (annotate (create_parent_node (create_node 97 1) (create_node 98 1)) []) = Some root'
    /\ map (fun x => (fst x, n_c (snd x), n_freq (snd x))) (subtrees root' [])
       = [([], 0, 2); ([CHAR_0], 97, 1); ([CHAR_1], 98, 1)]
    /\ forall path n, In (path, n) (subtrees root' []) -> n_code n = Some path.
Proof.
  destruct (generate_huffman_node_codes
              {| chars := [{| mc_c := 97; mc_freq := 1; mc_code := None |};
                           {| mc_c := 98; mc_freq := 1; mc_code := None |}] |}
              {| chars := [{| mc_c := 97; mc_freq := 1; mc_code := Some [CHAR_0] |};
                           {| mc_c := 98; mc_freq := 1; mc_code := Some [CHAR_1] |}] |}
              (create_parent_node (create_node 97 1) (create_node 98 1))
              (Some (annotate (create_parent_node (create_node 97 1) (create_node 98 1)) []))
              eq_refl) as (root' & Heq & Hshape & Hcodes).
  exists root'. split; [exact Heq|]. split; [|exact Hcodes].
  rewrite Hshape. reflexivity.
Defined.

Lemma leaf_codes_bits (node : Node) :
  forall p c code,
    In (c, code) (leaf_codes node p) ->
    Forall (fun ch => ch = CHAR_0 \/ ch = CHAR_1) p ->
    Forall (fun ch => ch = CHAR_0 \/ ch = CHAR_1) code.
Proof.
  intros p c code Hin Hp.
  assert (Hstep : forall bit, bit = CHAR_0 \/ bit = CHAR_1 ->
                    Forall (fun ch => ch = CHAR_0 \/ ch = CHAR_1) (p ++ [bit])).
  { intros bit Hbit. apply Forall_app. split; [exact Hp | now constructor]. }
  revert p c code Hin Hp Hstep.
  induction node as [c0 f code0 | l c0 f code0 IHl | r c0 f code0 IHr | l r c0 f code0 IHl IHr]
    using Node_induction; intros p c code Hin Hp Hstep.
  - rewrite leaf_codes_leaf in Hin. destruct Hin as [Heq | []]. now injection Heq as <- <-.
  - rewrite leaf_codes_left in Hin. apply (IHl _ _ _ Hin); [auto|].
    intros bit Hbit. apply Forall_app. split; [auto | now constructor].
  - rewrite leaf_codes_right in Hin. apply (IHr _ _ _ Hin); [auto|].
    intros bit Hbit. apply Forall_app. split; [auto | now constructor].
  - rewrite leaf_codes_both in Hin. apply in_app_or in Hin.
    destruct Hin as [Hin | Hin]; [apply (IHl _ _ _ Hin) | apply (IHr _ _ _ Hin)]; auto;
      intros bit Hbit; apply Forall_app; (split; [auto | now constructor]).
Qed.

(** [generate_huffman] changes no character, no frequency and not the
    order of the entries of the table; a code found in an entry afterwards
    is the path, made of ['0'] and ['1'], of a leaf that has the character
    of the entry, or a code the table had before for that character. *)
Theorem generate_huffman_table (message_info table : MessageInfo) (root : Node)
  (result : option Node) :
  generate_huffman message_info (Some root) = Done (table, result) ->
  map (fun e => (mc_c e, mc_freq e)) (chars table)
  = map (fun e => (mc_c e, mc_freq e)) (chars message_info)
  /\ forall e code,
       In e (chars table) -> mc_code e = Some code ->
       (exists leaf, In (code, leaf) (subtrees root []) /\ is_leaf leaf = true
                     /\ n_c leaf = mc_c e
                     /\ Forall (fun ch => ch = CHAR_0 \/ ch = CHAR_1) code)
       \/ (exists e0, In e0 (chars message_info) /\ mc_c e0 = mc_c e
                      /\ mc_code e0 = Some code).
Proof.
  intros H. apply generate_huffman_done in H. injection H as -> ->. cbn [chars].
  split; [apply store_codes_keys|].
  intros e code He Hcode.
  destruct (store_codes_origin _ _ _ _ He Hcode) as [Hin | Hold]; [left | right; exact Hold].
  destruct (leaf_codes_subtrees _ _ _ _ Hin) as (leaf & Hs & Hl & Hc).
  exists leaf. repeat split; try assumption.
  apply (leaf_codes_bits root [] _ _ Hin). constructor.
Qed.

Lemma generate_huffman_table_witness :
  generate_huffman
    {| chars := [{| mc_c := 97; mc_freq := 1; mc_code := None |};
                 {| mc_c := 98; mc_freq := 1; mc_code := None |}] |}
    (Some (create_parent_node (create_node 97 1) (create_node 98 1)))
  = Done ({| chars := [{| mc_c := 97; mc_freq := 1; mc_code := Some [CHAR_0] |};
                       {| mc_c := 98; mc_freq := 1; mc_code := Some [CHAR_1] |}] |},
          Some (annotate (create_parent_node (create_node 97 1) (create_node 98 1)) []))
  /\ map (fun e => (mc_c e, mc_freq e))
       [{| mc_c := 97; mc_freq := 1; mc_code := Some [CHAR_0] |};
        {| mc_c := 98; mc_freq := 1; mc_code := Some [CHAR_1] |}]
     = [(97, 1); (98, 1)].
Proof.
  split; [reflexivity|].
  apply (generate_huffman_table
           {| chars := [{| mc_c := 97; mc_freq := 1; mc_code := None |};
                        {| mc_c := 98; mc_freq := 1; mc_code := None |}] |}
           {| chars := [{| mc_c := 97; mc_freq := 1; mc_code := Some [CHAR_0] |};
                        {| mc_c := 98; mc_freq := 1; mc_code := Some [CHAR_1] |}] |}
           (create_parent_node (create_node 97 1) (create_node 98 1))
           (Some (annotate (create_parent_node (create_node 97 1) (create_node 98 1)) []))
           eq_refl).
Defined.

(** ** The table of a message after [generate_huffman] *)

Lemma lookup_code_NoDup (entries : list MessageChar) (e : MessageChar) :
  NoDup (map mc_c entries) -> In e entries ->
  lookup_code entries (mc_c e) = Some (mc_code e).
Proof.
  induction entries as [|e0 rest IH]; intros Hnd Hin; [destruct Hin|].
  cbn [map] in Hnd. inversion Hnd as [|? ? Hnot Hnd']; subst. cbn [lookup_code].
  destruct Hin as [-> | Hin].
  - now rewrite Z.eqb_refl.
  - destruct (Z.eqb_spec (mc_c e0) (mc_c e)) as [Heq | _]; [|apply IH; assumption].
    exfalso. apply Hnot. rewrite Heq. now apply in_map.
Qed.

Lemma store_codes_chars (codes : list (Z * list Z)) (entries : list MessageChar) :
  map mc_c (store_codes entries codes) = map mc_c entries.
Proof.
  pose proof (f_equal (map fst) (store_codes_keys codes entries)) as H.
  rewrite !map_map in H. exact H.
Qed.

Lemma NoDup_table_chars (sg : bool) (message : list Z) :
  c_string message -> NoDup (map mc_c (chars (create_message sg message))).
Proof.
  intros Hc. rewrite (create_message_chars sg message Hc), map_map. cbn [mc_c].
  pose proof (NoDup_present message) as Hnd.
  assert (Hr : forall j, In j (present message) -> 0 <= j <= 255).
  { intros j Hj. apply in_present in Hj. tauto. }
  induction Hnd as [|j l Hj _ IH]; cbn [map]; constructor.
  - intros Hin. apply in_map_iff in Hin. destruct Hin as (j' & Heq & Hj').
    apply to_char_injective in Heq; [subst; contradiction | |]; apply Hr; simpl; auto.
  - apply IH. intros j' Hj'. apply Hr. now right.
Qed.

(** A leaf code of a tree whose root has children is not empty. *)
Lemma leaf_codes_nonempty (root : Node) (c : Z) (code : list Z) :
  In (c, code) (leaf_codes root []) -> is_leaf root = false -> code <> [].
Proof.
  intros Hin Hroot.
  destruct (decode_loop_code root [] c code Hin Hroot) as (s & Hs & Hne & _).
  cbn [app] in Hs. now subst.
Qed.

(** For every non-empty message of plain characters, every entry of the
    table has a code after [generate_huffman]; the code is shorter than the
    table is long, and not empty when the message has two distinct
    characters. *)
Theorem main_table_complete (sg : bool) qsort (message : list Z) :
  sorts qsort -> c_string message -> message <> [] -> plain_chars sg message ->
  exists table,
    main_table sg qsort message = Done table
    /\ forall e, In e (chars table) ->
         exists code,
           mc_code e = Some code
           /\ Z.of_nat (List.length code) < mi_length table
           /\ (two_symbols message -> code <> []).
Proof.
  intros Hsort Hc Hne Hplain.
  destruct (main_table_built sg qsort message Hsort Hc Hne) as (root & -> & _ & Hinv).
  eexists. split; [reflexivity|]. cbn [chars]. intros e He.
  set (entries := chars (create_message sg message)) in *.
  set (table := store_codes entries (leaf_codes root [])) in *.
  assert (Hkeys : map mc_c table = map mc_c entries) by apply store_codes_chars.
  assert (Hj : exists j, In j message /\ mc_c e = to_char sg j).
  { assert (Hin : In (mc_c e) (map mc_c entries)) by (rewrite <- Hkeys; now apply in_map).
    apply in_map_iff in Hin. destruct Hin as (e0 & Heq & He0).
    unfold entries in He0. rewrite (create_message_chars sg message Hc) in He0.
    apply in_map_iff in He0. destruct He0 as (j & <- & Hj'). cbn [mc_c] in Heq.
    apply in_present in Hj'. exists j. split; [tauto | now symmetry]. }
  destruct Hj as (j & Hjm & Hcj).
  destruct (message_copied_code sg message Hc root Hinv j Hplain Hjm) as [Hin Hsome].
  fold entries in Hin, Hsome. fold table in Hin, Hsome.
  assert (Hl : lookup_code table (mc_c e) = Some (mc_code e)).
  { apply lookup_code_NoDup; [|exact He]. rewrite Hkeys. now apply NoDup_table_chars. }
  rewrite <- Hcj in Hin, Hsome. unfold copied_code in Hin. rewrite Hl in Hin, Hsome.
  destruct (mc_code e) as [code|]; [|congruence].
  exists code. split; [reflexivity|]. split.
  - pose proof (leaf_codes_height root [] _ _ Hin) as Hh. cbn [List.length] in Hh.
    assert (Hw : weighted root) by (destruct Hinv as [_ Hw _ _ _]; inversion Hw; assumption).
    pose proof (weighted_height root Hw) as Hh'.
    pose proof (Permutation_length (root_leaves sg message Hc root Hinv)) as Hlen.
    rewrite length_map in Hlen.
    assert (Ht : List.length table = List.length (present message)).
    { rewrite <- (length_map mc_c table), Hkeys, length_map. unfold entries.
      now rewrite (create_message_chars sg message Hc), length_map. }
    unfold mi_length. cbn [chars]. lia.
  - intros Htwo. apply (leaf_codes_nonempty root _ _ Hin).
    apply (two_symbols_root sg message Hc root Hinv Htwo).
Qed.

Lemma main_table_complete_witness :
  exists table,
    main_table true stable_qsort (bytes_of_string "abc") = Done table
    /\ forall e, In e (chars table) ->
         exists code,
           mc_code e = Some code
           /\ Z.of_nat (List.length code) < mi_length table
           /\ (two_symbols (bytes_of_string "abc") -> code <> []).
Proof.
  apply (main_table_complete true stable_qsort (bytes_of_string "abc")
           stable_qsort_sorts abc_c_string).
  - discriminate.
  - right. repeat constructor.
Defined.

(** ** Codes that were never stored *)

(** The loop of the encoder stops at a character whose first entry has a
    [NULL] code, when it has not stopped before. *)
Lemma encode_loop_null (sg : bool) (message : list Z) (message_info : MessageInfo) (x : Z) :
  In x message ->
  lookup_code (chars message_info) (to_char sg x) = Some None ->
  forall b, encode_loop sg message message_info b = Fault.
Proof.
  intros Hx Hnull. induction message as [|y rest IH]; intros b; [destruct Hx|].
  cbn [encode_loop]. rewrite encode_char_lookup.
  destruct Hx as [-> | Hx].
  - rewrite Hnull. reflexivity.
  - destruct (lookup_code (chars message_info) (to_char sg y)) as [[code|]|];
      try reflexivity.
    + destruct (put_chars code b) as [b1|]; [|reflexivity]. cbn [bind]. now apply IH.
    + cbn [bind]. now apply IH.
Qed.

(** When the first entry for some character of the message has a [NULL]
    code, [huffman_encode] reads through that pointer. *)
Theorem huffman_encode_null_code (sg : bool) (message : list Z) (message_info : MessageInfo)
  (x : Z) :
  In x message ->
  lookup_code (chars message_info) (to_char sg x) = Some None ->
  huffman_encode sg message message_info = Fault.
Proof.
  intros Hx Hnull. unfold huffman_encode.
  now rewrite (encode_loop_null sg message message_info x Hx Hnull).
Qed.

Lemma huffman_encode_null_code_witness :
  huffman_encode true (bytes_of_string "ab")
    {| chars := [{| mc_c := 97; mc_freq := 1; mc_code := Some [CHAR_0] |};
                 {| mc_c := 98; mc_freq := 1; mc_code := None |}] |}
  = Fault.
Proof.
  apply (huffman_encode_null_code true (bytes_of_string "ab") _ 98).
  - right. left. reflexivity.
  - reflexivity.
Defined.

Lemma lookup_store_codes_other (codes : list (Z * list Z)) :
  forall entries c,
    ~ In c (map fst codes) ->
    lookup_code (store_codes entries codes) c = lookup_code entries c.
Proof.
  induction codes as [|[c0 code0] codes IH]; intros entries c Hnot; [reflexivity|].
  cbn [map fst In] in Hnot. unfold store_codes. cbn [fold_left fst snd].
  fold (store_codes (store_code entries c0 code0) codes).
  rewrite IH by tauto. apply lookup_store_other. intros Heq. apply Hnot. left. congruence.
Qed.

(** Where [char] is signed, a message with a character above 127 cannot be
    encoded: the entry of that character never receives its code, the
    characters of the leaves being [unsigned char], and the encoder reads
    the [NULL] code. *)
Theorem signed_char_faults qsort (message : list Z) (x : Z) :
  sorts qsort -> c_string message -> In x message -> 128 <= x ->
  exists table,
    main_table true qsort message = Done table
    /\ lookup_code (chars table) (to_char true x) = Some None
    /\ main_encode true qsort message = Fault.
Proof.
  intros Hsort Hc Hx Hhigh.
  assert (Hne : message <> []) by (intros ->; destruct Hx).
  destruct (generate_tree_message true qsort Hsort message Hc Hne) as (root & Hgen & Hinv).
  pose proof (generate_huffman_built true message root Hc Hne Hinv) as Hh.
  eexists. split.
  { unfold main_table. rewrite Hgen. cbn [bind]. rewrite Hh. reflexivity. }
  cbn [fst chars].
  assert (Hnull : lookup_code
                    (store_codes (chars (create_message true message)) (leaf_codes root []))
                    (to_char true x) = Some None).
  { rewrite lookup_store_codes_other.
    - pose proof (message_entry true message Hc x Hx) as He.
      destruct (lookup_code (chars (create_message true message)) (to_char true x))
        as [code|] eqn:E; [|congruence].
      destruct (lookup_code_some _ _ _ E) as (e & Hin & _ & Hcode).
      now rewrite <- Hcode, (create_message_no_code true message e Hin).
    - rewrite leaf_codes_nodes. intros Hin. apply in_map_iff in Hin.
      destruct Hin as (leaf & Heq & Hleaf).
      eapply Permutation_in in Hleaf; [|apply (root_leaves true message Hc root Hinv)].
      apply in_map_iff in Hleaf. destruct Hleaf as (j & <- & Hj). cbn [n_c] in Heq.
      apply in_present in Hj. destruct Hc as [Hb _]. rewrite Forall_forall in Hb.
      specialize (Hb x Hx). unfold to_char in Heq.
      rewrite (Z.mod_small x 256) in Heq by lia.
      destruct (Z.leb_spec 128 x); [|lia]. cbn [andb] in Heq. lia. }
  split; [exact Hnull|].
  unfold main_encode. rewrite Hgen. cbn [bind]. rewrite Hh. cbn [bind fst snd].
  unfold huffman_encode.
  now rewrite (encode_loop_null true message
                 {| chars := store_codes (chars (create_message true message))
                               (leaf_codes root []) |} x Hx Hnull).
Qed.

Lemma signed_char_faults_witness :
  exists table,
    main_table true stable_qsort [97; 200] = Done table
    /\ lookup_code (chars table) (to_char true 200) = Some None
    /\ main_encode true stable_qsort [97; 200] = Fault.
Proof.
  apply (signed_char_faults stable_qsort [97; 200] 200 stable_qsort_sorts).
  - split; [repeat constructor; vm_compute; discriminate | vm_compute; reflexivity].
  - right. left. reflexivity.
  - vm_compute. discriminate.
Defined.

(** ** The string and the buffer of the encoder *)

(** When [huffman_encode] returns, the encoded message is made of the codes
    of the characters of the message, in the order of the message: for each
    character the code of the first entry that has it, and nothing for a
    character without entry; the terminator is stored right after them,
    within the buffer. *)
Theorem huffman_encode_string (sg : bool) (message : list Z) (message_info : MessageInfo)
  (encoded : buffer) :
  huffman_encode sg message message_info = Done encoded ->
  written encoded
  = List.concat (map (fun x => copied_code (chars message_info) (to_char sg x)) message)
  /\ current_idx encoded = Z.of_nat (List.length (written encoded))
  /\ current_idx encoded < capacity encoded.
Proof.
  intros H. destruct (huffman_encode_done _ _ _ _ H) as [Hloop _].
  destruct (encode_loop_written _ _ _ _ _ Hloop) as (Hw & _ & Hok).
  destruct (Hok (output_buffer_ok message)) as [Hidx _].
  split; [exact Hw|]. split; [exact Hidx|].
  unfold huffman_encode in H. rewrite Hloop in H. cbn [bind] in H.
  unfold store_terminator in H.
  destruct (Z.ltb_spec (current_idx encoded) (capacity encoded)); [assumption | discriminate].
Qed.

Lemma huffman_encode_string_witness :
  written {| capacity := 4; current_idx := 3; written := [CHAR_0; CHAR_1; CHAR_0] |}
  = List.concat
      (map (fun x => copied_code
                       [{| mc_c := 97; mc_freq := 2; mc_code := Some [CHAR_0] |};
                        {| mc_c := 98; mc_freq := 1; mc_code := Some [CHAR_1] |}]
                       (to_char true x))
         (bytes_of_string "aba")).
Proof.
  apply (huffman_encode_string true (bytes_of_string "aba")
           {| chars := [{| mc_c := 97; mc_freq := 2; mc_code := Some [CHAR_0] |};
                        {| mc_c := 98; mc_freq := 1; mc_code := Some [CHAR_1] |}] |}
           {| capacity := 4; current_idx := 3; written := [CHAR_0; CHAR_1; CHAR_0] |}).
  reflexivity.
Defined.

(** The capacity of a buffer that started with [n0] cells is [n0] doubled
    some number of times, and after a doubling more than half of it is
    used. *)
Lemma put_char_capacity (n0 : Z) (b : buffer) (ch : Z) :
  1 <= n0 -> buffer_ok b -> current_idx b <= capacity b ->
  (exists k : nat, capacity b = n0 * 2 ^ Z.of_nat k
                   /\ (k = 0%nat \/ capacity b < 2 * current_idx b)) ->
  2 * (current_idx b + 1) <= SIZE_MAX ->
  exists b',
    put_char b ch = Done b'
    /\ buffer_ok b' /\ current_idx b' = current_idx b + 1
    /\ current_idx b' <= capacity b'
    /\ exists k : nat, capacity b' = n0 * 2 ^ Z.of_nat k
                       /\ (k = 0%nat \/ capacity b' < 2 * current_idx b').
Proof.
  intros Hn0 Hok Hle (k & Hcap & Hhalf) Hmax.
  assert (H0 : 0 <= current_idx b) by (destruct Hok as [-> _]; lia).
  assert (Hpos : 1 <= capacity b).
  { rewrite Hcap. pose proof (Z.pow_pos_nonneg 2 (Z.of_nat k)). nia. }
  assert (Hput : exists b', put_char b ch = Done b'
            /\ capacity b' = (if current_idx b >=? capacity b then 2 * capacity b
                              else capacity b)).
  { unfold put_char.
    destruct (Z.geb_spec (current_idx b) (capacity b)) as [Hge | Hlt].
    - rewrite (size_t_small (2 * capacity b)) by lia.
      destruct (Z.ltb_spec (current_idx b) (2 * capacity b)) as [_ | Hge']; [|lia].
      eexists. split; reflexivity.
    - destruct (Z.ltb_spec (current_idx b) (capacity b)) as [_ | Hge']; [|lia].
      eexists. split; reflexivity. }
  destruct Hput as (b' & Hb' & Hcap').
  destruct (put_char_done _ _ _ Hb') as [_ Hd]. destruct (Hd Hok) as [Hok' Hidx].
  exists b'. split; [exact Hb'|]. split; [exact Hok'|]. split; [exact Hidx|].
  rewrite Hidx, Hcap'.
  destruct (Z.geb_spec (current_idx b) (capacity b)) as [Hge | Hlt].
  - split; [lia|]. exists (S k). split; [|right; lia].
    rewrite Hcap, Nat2Z.inj_succ, Z.pow_succ_r by lia. ring.
  - split; [lia|]. exists k. split; [exact Hcap|]. destruct Hhalf; [auto | right; lia].
Qed.

Lemma put_chars_capacity (n0 : Z) (s : list Z) :
  1 <= n0 ->
  forall b,
    buffer_ok b -> current_idx b <= capacity b ->
    (exists k : nat, capacity b = n0 * 2 ^ Z.of_nat k
                     /\ (k = 0%nat \/ capacity b < 2 * current_idx b)) ->
    2 * (current_idx b + Z.of_nat (List.length s)) <= SIZE_MAX ->
    exists b',
      put_chars s b = Done b'
      /\ buffer_ok b' /\ current_idx b' = current_idx b + Z.of_nat (List.length s)
      /\ current_idx b' <= capacity b'
      /\ exists k : nat, capacity b' = n0 * 2 ^ Z.of_nat k
                         /\ (k = 0%nat \/ capacity b' < 2 * current_idx b').
Proof.
  intros Hn0. induction s as [|ch s IH]; intros b Hok Hle Hcap Hmax.
  - exists b. cbn [put_chars List.length]. rewrite Z.add_0_r. auto.
  - cbn [put_chars List.length] in *.
    destruct (put_char_capacity n0 b ch Hn0 Hok Hle Hcap)
      as (b1 & -> & Hok1 & Hidx1 & Hle1 & Hcap1); [lia|].
    cbn [bind].
    destruct (IH b1 Hok1 Hle1 Hcap1) as (b' & -> & Hok' & Hidx' & Hle' & Hcap'); [lia|].
    exists b'. repeat split; try assumption; try apply Hok'. lia.
Qed.

Lemma encode_loop_capacity (sg : bool) (n0 : Z) (message : list Z) (message_info : MessageInfo) :
  1 <= n0 ->
  Forall (fun x => lookup_code (chars message_info) (to_char sg x) <> Some None) message ->
  forall b,
    buffer_ok b -> current_idx b <= capacity b ->
    (exists k : nat, capacity b = n0 * 2 ^ Z.of_nat k
                     /\ (k = 0%nat \/ capacity b < 2 * current_idx b)) ->
    2 * (current_idx b
         + Z.of_nat (List.length
                       (List.concat (map (fun x => copied_code (chars message_info) (to_char sg x))
                                       message))))
    <= SIZE_MAX ->
    exists b',
      encode_loop sg message message_info b = Done b'
      /\ current_idx b'
         = current_idx b
           + Z.of_nat (List.length
                         (List.concat (map (fun x => copied_code (chars message_info)
                                                       (to_char sg x)) message)))
      /\ current_idx b' <= capacity b'
      /\ exists k : nat, capacity b' = n0 * 2 ^ Z.of_nat k
                         /\ (k = 0%nat \/ capacity b' < 2 * current_idx b').
Proof.
  intros Hn0. induction 1 as [|x rest Hx _ IH]; intros b Hok Hle Hcap Hmax.
  - exists b. cbn [encode_loop map List.concat List.length]. rewrite Z.add_0_r. auto.
  - cbn [encode_loop map List.concat] in *. rewrite length_app in *.
    rewrite encode_char_lookup.
    remember (copied_code (chars message_info) (to_char sg x)) as cx eqn:Ecx.
    unfold copied_code in Ecx.
    destruct (lookup_code (chars message_info) (to_char sg x)) as [[code|]|];
      [| congruence |]; subst cx.
    + destruct (put_chars_capacity n0 code Hn0 b Hok Hle Hcap)
        as (b1 & -> & Hok1 & Hidx1 & Hle1 & Hcap1); [lia|].
      cbn [bind]. destruct (IH b1 Hok1 Hle1 Hcap1) as (b' & -> & Hidx' & Hrest); [lia|].
      exists b'. split; [reflexivity|]. split; [lia | exact Hrest].
    + cbn [bind]. destruct (IH b Hok Hle Hcap) as (b' & -> & Hidx' & Hrest);
        [cbn [List.length] in Hmax; lia|].
      exists b'. split; [reflexivity|]. split; [cbn [List.length]; lia | exact Hrest].
Qed.

(** The terminator of the encoded message falls out of the buffer exactly
    when the length of the encoded message is the length of the message
    plus one, doubled any number of times (no code read being [NULL], and
    twice the length of the encoded message being a [size_t]). *)
Theorem huffman_encode_terminator (sg : bool) (message : list Z) (message_info : MessageInfo) :
  Forall (fun x => lookup_code (chars message_info) (to_char sg x) <> Some None) message ->
  Z.of_nat (List.length message) < SIZE_MAX ->
  2 * Z.of_nat (List.length
                  (List.concat (map (fun x => copied_code (chars message_info) (to_char sg x))
                                  message)))
  <= SIZE_MAX ->
  (huffman_encode sg message message_info = Fault
   <-> exists k : nat,
         Z.of_nat (List.length
                     (List.concat (map (fun x => copied_code (chars message_info)
                                                   (to_char sg x)) message)))
         = (Z.of_nat (List.length message) + 1) * 2 ^ Z.of_nat k).
Proof.
  intros Hcodes Hlen Hmax.
  set (T := Z.of_nat (List.length
                        (List.concat (map (fun x => copied_code (chars message_info)
                                                      (to_char sg x)) message)))) in *.
  set (n0 := Z.of_nat (List.length message) + 1).
  assert (Hn0 : 1 <= n0) by (unfold n0; lia).
  assert (Hcap0 : capacity (output_buffer message) = n0).
  { unfold output_buffer. cbn [capacity]. apply size_t_small. unfold n0. lia. }
  destruct (encode_loop_capacity sg n0 message message_info Hn0 Hcodes (output_buffer message))
    as (b & Hloop & Hidx & Hle & k & Hcap & Hhalf).
  - apply output_buffer_ok.
  - rewrite Hcap0. cbn [output_buffer current_idx]. lia.
  - exists 0%nat. rewrite Hcap0. split; [cbn; lia | left; reflexivity].
  - cbn [output_buffer current_idx]. fold T. lia.
  - cbn [output_buffer current_idx] in Hidx. fold T in Hidx. cbn [Z.add] in Hidx.
    unfold huffman_encode. rewrite Hloop. cbn [bind]. unfold store_terminator.
    destruct (Z.ltb_spec (current_idx b) (capacity b)) as [Hlt | Hge].
    + split; [discriminate|]. intros (j & Hj). exfalso.
      assert (Hjk : Z.of_nat j < Z.of_nat k).
      { apply (Z.pow_lt_mono_r_iff 2); [lia | lia |]. nia. }
      destruct Hhalf as [-> | Hhalf]; [lia|].
      assert (Hp : 2 ^ Z.succ (Z.of_nat j) <= 2 ^ Z.of_nat k)
        by (apply Z.pow_le_mono_r; lia).
      rewrite Z.pow_succ_r in Hp by lia. nia.
    + split; [|reflexivity]. intros _. exists k. lia.
Qed.

Lemma huffman_encode_terminator_witness :
  huffman_encode true (bytes_of_string "ab")
    {| chars := [{| mc_c := 97; mc_freq := 1; mc_code := Some [CHAR_0; CHAR_0] |};
                 {| mc_c := 98; mc_freq := 1; mc_code := Some [CHAR_0] |}] |}
  = Fault.
Proof.
  apply (huffman_encode_terminator true (bytes_of_string "ab")
           {| chars := [{| mc_c := 97; mc_freq := 1; mc_code := Some [CHAR_0; CHAR_0] |};
                        {| mc_c := 98; mc_freq := 1; mc_code := Some [CHAR_0] |}] |}).
  - repeat constructor; vm_compute; discriminate.
  - vm_compute. reflexivity.
  - vm_compute. discriminate.
  - exists 0%nat. reflexivity.
Defined.

(** ** The decoder on any input *)

Lemma decode_loop_other_chars (bits : list Z) (root : option Node) :
  forall cursor b,
    decode_loop (map (fun ch => if ch =? CHAR_0 then CHAR_0 else CHAR_1) bits) root cursor b
    = decode_loop bits root cursor b.
Proof.
  induction bits as [|bit rest IH]; intros cursor b; [reflexivity|].
  cbn [map decode_loop].
  assert (Hbit : ((if bit =? CHAR_0 then CHAR_0 else CHAR_1) =? CHAR_0) = (bit =? CHAR_0)).
  { destruct (bit =? CHAR_0); reflexivity. }
  rewrite Hbit.
  destruct (cursor_node root cursor) as [current_node|]; [|reflexivity].
  destruct (if bit =? CHAR_0 then n_left current_node else n_right current_node)
    as [next|]; [|reflexivity].
  destruct (is_leaf next); [|apply IH].
  destruct (put_char b (n_c next)) as [b'|]; [|reflexivity]. cbn [bind]. apply IH.
Qed.

(** [huffman_decode] reads every character other than ['0'] as ['1']: it
    does not check its input. *)
Theorem huffman_decode_other_chars (bits : list Z) (root : option Node) :
  huffman_decode (map (fun ch => if ch =? CHAR_0 then CHAR_0 else CHAR_1) bits) root
  = huffman_decode bits root.
Proof.
  unfold huffman_decode, output_buffer. rewrite length_map.
  now rewrite decode_loop_other_chars.
Qed.

(** On a tree whose nodes have no child or two the loop of the decoder
    never follows a [NULL] pointer, and with room for one character per
    character read it never leaves the buffer. *)
Lemma decode_loop_returns (root : Node) (bits : list Z) :
  full_tree root -> is_leaf root = false ->
  forall cursor b,
    (forall n, cursor = Some n -> In n (map snd (subtrees root [])) /\ is_leaf n = false) ->
    0 <= current_idx b ->
    current_idx b + Z.of_nat (List.length bits) < capacity b ->
    capacity b <= SIZE_MAX ->
    exists cursor' b',
      decode_loop bits (Some root) cursor b = Done (cursor', b')
      /\ capacity b' = capacity b
      /\ current_idx b <= current_idx b' <= current_idx b + Z.of_nat (List.length bits)
      /\ (List.length (written b') <= List.length (written b) + List.length bits)%nat.
Proof.
  intros Hfull Hroot. induction bits as [|bit rest IH]; intros cursor b Hcur H0 Hroom Hmax.
  - exists cursor, b. cbn [decode_loop List.length]. repeat split; lia.
  - cbn [decode_loop List.length] in *.
    assert (Hnode : exists current_node,
              cursor_node (Some root) cursor = Some current_node
              /\ In current_node (map snd (subtrees root [])) /\ is_leaf current_node = false).
    { destruct cursor as [n|]; cbn [cursor_node].
      - exists n. split; [reflexivity | now apply Hcur].
      - exists root. split; [reflexivity|]. split; [apply root_in_nodes | exact Hroot]. }
    destruct Hnode as (current_node & -> & Hin & Hleaf).
    assert (Hnext : exists next,
              (if bit =? CHAR_0 then n_left current_node else n_right current_node) = Some next
              /\ In next (children current_node)).
    { unfold full_tree in Hfull. rewrite Forall_forall in Hfull.
      specialize (Hfull current_node Hin). unfold two_or_none in Hfull.
      unfold is_leaf in Hleaf. unfold children.
      destruct (n_left current_node) as [l|], (n_right current_node) as [r|];
        try contradiction; try discriminate.
      destruct (bit =? CHAR_0); eexists; (split; [reflexivity|]); simpl; auto. }
    destruct Hnext as (next & -> & Hchild).
    assert (Hin' : In next (map snd (subtrees root [])))
      by (eapply children_in_subtrees; eassumption).
    destruct (is_leaf next) eqn:Enext.
    + rewrite put_char_room by lia. cbn [bind].
      destruct (IH None {| capacity := capacity b; current_idx := current_idx b + 1;
                           written := written b ++ [n_c next] |})
        as (cursor' & b' & -> & Hcap & Hidx & Hlen);
        cbn [capacity current_idx written] in *; try lia; [discriminate|].
      exists cursor', b'. rewrite length_app in Hlen. cbn [List.length] in Hlen.
      repeat split; lia.
    + destruct (IH (Some next) b) as (cursor' & b' & -> & Hcap & Hidx & Hlen); try lia.
      * intros n Hn. injection Hn as <-. auto.
      * exists cursor', b'. repeat split; lia.
Qed.

(** On a tree whose root has children and whose nodes have no child or two
    [huffman_decode] returns for every input: the [NULL] result or a
    message, which is not longer than the input. *)
Theorem huffman_decode_returns (root : Node) (bits : list Z) :
  full_tree root -> is_leaf root = false ->
  Z.of_nat (List.length bits) < SIZE_MAX ->
  exists result,
    huffman_decode bits (Some root) = Done result
    /\ forall decoded, result = Some decoded ->
                       (List.length decoded <= List.length bits)%nat.
Proof.
  intros Hfull Hroot Hlen. unfold huffman_decode.
  assert (Hcap : capacity (output_buffer bits) = Z.of_nat (List.length bits) + 1).
  { apply size_t_small. lia. }
  destruct (decode_loop_returns root bits Hfull Hroot None (output_buffer bits))
    as (cursor' & b' & -> & Hcap' & Hidx & Hw).
  - discriminate.
  - cbn [output_buffer current_idx]. lia.
  - rewrite Hcap. cbn [output_buffer current_idx]. lia.
  - rewrite Hcap. lia.
  - cbn [bind fst snd]. cbn [output_buffer current_idx written List.length] in Hidx, Hw.
    destruct cursor' as [n|].
    + exists None. split; [reflexivity | discriminate].
    + unfold store_terminator.
      destruct (Z.ltb_spec (current_idx b') (capacity b')) as [_ | Hge]; [|lia].
      cbn [bind]. eexists. split; [reflexivity|].
      intros decoded Hd. injection Hd as <-. lia.
Qed.

Lemma huffman_decode_returns_witness :
  exists result,
    huffman_decode (bytes_of_string "0x10")
      (Some (create_parent_node (create_node 97 1) (create_node 98 1))) = Done result
    /\ forall decoded, result = Some decoded ->
                       (List.length decoded <= List.length (bytes_of_string "0x10"))%nat.
Proof.
  apply (huffman_decode_returns (create_parent_node (create_node 97 1) (create_node 98 1))
           (bytes_of_string "0x10")).
  - repeat constructor.
  - reflexivity.
  - vm_compute. reflexivity.
Defined.

(** With a [NULL] root or a root without children the decoder returns the
    empty message for the empty input, and follows a [NULL] pointer on every
    other input. *)
Theorem huffman_decode_no_children (root : option Node) (bits : list Z) :
  (forall node, root = Some node -> is_leaf node = true) ->
  huffman_decode [] root = Done (Some [])
  /\ (bits <> [] -> huffman_decode bits root = Fault).
Proof.
  intros Hroot. split; [reflexivity|].
  intros Hne. destruct bits as [|bit rest]; [contradiction|].
  unfold huffman_decode. cbn [decode_loop cursor_node].
  destruct root as [node|]; [|reflexivity].
  specialize (Hroot node eq_refl). unfold is_leaf in Hroot.
  destruct (n_left node), (n_right node); try discriminate.
  destruct (bit =? CHAR_0); reflexivity.
Qed.

Lemma huffman_decode_no_children_witness :
  huffman_decode [] (Some (create_node 97 4)) = Done (Some [])
  /\ (bytes_of_string "0" <> [] ->
      huffman_decode (bytes_of_string "0") (Some (create_node 97 4)) = Fault).
Proof.
  apply (huffman_decode_no_children (Some (create_node 97 4)) (bytes_of_string "0")).
  intros node Hnode. injection Hnode as <-. reflexivity.
Defined.

(** ** Messages over the characters of the table *)

(** The table and the tree built for a message encode and decode every
    message made of characters of that message: when the encoder returns,
    decoding what it wrote gives the message back. *)
Theorem round_trip_alphabet (sg : bool) qsort (message other : list Z)
  (tree root : option Node) (table : MessageInfo) (encoded : buffer) :
  sorts qsort -> c_string message -> two_symbols message -> plain_chars sg message ->
  (forall x, In x other -> In x message) ->
  generate_tree qsort (create_message sg message) = Done tree ->
  generate_huffman (create_message sg message) tree = Done (table, root) ->
  huffman_encode sg other table = Done encoded ->
  huffman_decode (written encoded) root = Done (Some other).
Proof.
  intros Hsort Hc Htwo Hplain Hsub Htree Hcodes Henc.
  pose proof (two_symbols_nonempty _ Htwo) as Hne.
  destruct (generate_tree_message sg qsort Hsort message Hc Hne) as (r & Hgen & Hinv).
  rewrite Hgen in Htree. injection Htree as <-.
  rewrite (generate_huffman_built sg message r Hc Hne Hinv) in Hcodes.
  injection Hcodes as <- <-.
  destruct (huffman_encode_done _ _ _ _ Henc) as [Hloop Hlen].
  destruct (encode_loop_written _ _ _ _ _ Hloop) as (Hw & _ & _).
  cbn [output_buffer written app chars] in Hw. rewrite Hw in *.
  apply (huffman_decode_codes (annotate r [])
           (fun x => copied_code
                       (store_codes (chars (create_message sg message)) (leaf_codes r []))
                       (to_char sg x)) other).
  - rewrite is_leaf_annotate. apply (two_symbols_root sg message Hc r Hinv Htwo).
  - intros x Hx. rewrite leaf_codes_annotate.
    apply (message_copied_code sg message Hc r Hinv x Hplain (Hsub x Hx)).
  - exact Hlen.
Qed.

Lemma round_trip_alphabet_witness :
  exists tree root table encoded,
    generate_tree stable_qsort (create_message true (bytes_of_string "abracadabra")) = Done tree
    /\ generate_huffman (create_message true (bytes_of_string "abracadabra")) tree
       = Done (table, root)
    /\ huffman_encode true (bytes_of_string "cabd") table = Done encoded
    /\ written encoded = bytes_of_string "110001111101"
    /\ huffman_decode (written encoded) root = Done (Some (bytes_of_string "cabd")).
Proof.
  do 4 eexists. split; [vm_compute; reflexivity|]. split; [vm_compute; reflexivity|].
  split; [vm_compute; reflexivity|]. split; [reflexivity|].
  eapply (round_trip_alphabet true stable_qsort (bytes_of_string "abracadabra")
            (bytes_of_string "cabd")).
  - exact stable_qsort_sorts.
  - split; [repeat constructor; vm_compute; discriminate | vm_compute; reflexivity].
  - exists 97, 98. vm_compute. repeat split; auto. discriminate.
  - right. repeat constructor.
  - intros x Hx. vm_compute in Hx. vm_compute.
    repeat (destruct Hx as [<- | Hx]; [tauto|]). destruct Hx.
  - vm_compute. reflexivity.
  - vm_compute. reflexivity.
  - vm_compute. reflexivity.
Defined.

(** ** What the decoder accepts *)

Lemma subtrees_child (t : Node) :
  forall p path n child bit,
    In (path, n) (subtrees t p) ->
    (bit = CHAR_0 /\ n_left n = Some child) \/ (bit = CHAR_1 /\ n_right n = Some child) ->
    In (path ++ [bit], child) (subtrees t p).
Proof.
  induction t as [c f code | l c f code IHl | r c f code IHr | l r c f code IHl IHr]
    using Node_induction; intros p path n child bit Hin Hbit; cbn [subtrees] in *.
  - destruct Hin as [Heq | []]. injection Heq as <- <-. cbn [n_left n_right] in Hbit.
    destruct Hbit as [[_ H] | [_ H]]; discriminate.
  - rewrite app_nil_r in *. destruct Hin as [Heq | Hin].
    + injection Heq as <- <-. cbn [n_left n_right] in Hbit.
      destruct Hbit as [[-> H] | [_ H]]; [|discriminate]. injection H as <-.
      right. apply subtrees_root.
    + right. eapply IHl; eassumption.
  - destruct Hin as [Heq | Hin].
    + injection Heq as <- <-. cbn [n_left n_right] in Hbit.
      destruct Hbit as [[_ H] | [-> H]]; [discriminate|]. injection H as <-.
      right. apply subtrees_root.
    + right. eapply IHr; eassumption.
  - destruct Hin as [Heq | Hin].
    + injection Heq as <- <-. cbn [n_left n_right] in Hbit. right. apply in_or_app.
      destruct Hbit as [[-> H] | [-> H]]; injection H as <-;
        [left | right]; apply subtrees_root.
    + right. apply in_or_app. apply in_app_or in Hin.
      destruct Hin as [Hin | Hin]; [left; eapply IHl | right; eapply IHr]; eassumption.
Qed.

Lemma leaf_codes_in (root : Node) (p path : list Z) (n : Node) :
  In (path, n) (subtrees root p) -> is_leaf n = true -> In (n_c n, path) (leaf_codes root p).
Proof.
  intros Hin Hleaf. unfold leaf_codes. apply in_map_iff. exists (path, n).
  split; [reflexivity|]. apply filter_In. auto.
Qed.

(** The loop of the decoder, when it ends at the root, has read the paths of
    the leaves whose characters it has written, one after the other. *)
Lemma decode_loop_accepted (root : Node) (bits : list Z) :
  forall cursor path b b',
    match cursor with
    | None => path = []
    | Some n => In (path, n) (subtrees root [])
    end ->
    decode_loop bits (Some root) cursor b = Done (None, b') ->
    exists decoded codes,
      written b' = written b ++ decoded
      /\ path ++ map (fun ch => if ch =? CHAR_0 then CHAR_0 else CHAR_1) bits
         = List.concat codes
      /\ Forall2 (fun ch code => In (ch, code) (leaf_codes root [])) decoded codes.
Proof.
  induction bits as [|bit rest IH]; intros cursor path b b' Hcur H.
  - cbn [decode_loop] in H. injection H as -> <-. subst path.
    exists [], []. rewrite app_nil_r. repeat split. constructor.
  - cbn [decode_loop map] in H.
    assert (Hnode : exists current_node,
              cursor_node (Some root) cursor = Some current_node
              /\ In (path, current_node) (subtrees root [])).
    { destruct cursor as [n|]; cbn [cursor_node].
      - eauto.
      - subst path. exists root. split; [reflexivity | apply subtrees_root]. }
    destruct Hnode as (current_node & Hcn & Hin). rewrite Hcn in H.
    set (nb := if bit =? CHAR_0 then CHAR_0 else CHAR_1) in *.
    destruct (if bit =? CHAR_0 then n_left current_node else n_right current_node)
      as [next|] eqn:Enext; [|discriminate].
    assert (Hin' : In (path ++ [nb], next) (subtrees root [])).
    { apply (subtrees_child root [] path current_node next nb Hin). unfold nb.
      destruct (bit =? CHAR_0); auto. }
    destruct (is_leaf next) eqn:Eleaf.
    + destruct (put_char b (n_c next)) as [b1|] eqn:Eput; [|discriminate].
      cbn [bind] in H. destruct (put_char_done _ _ _ Eput) as [Hw1 _].
      destruct (IH None [] b1 b' eq_refl H) as (decoded & codes & Hw & Hbits & Hall).
      exists (n_c next :: decoded), ((path ++ [nb]) :: codes).
      split; [rewrite Hw, Hw1, <- app_assoc; reflexivity|]. split.
      * cbn [List.concat]. rewrite <- Hbits, <- app_assoc. reflexivity.
      * constructor; [|exact Hall]. now apply leaf_codes_in.
    + destruct (IH (Some next) (path ++ [nb]) b b' Hin' H)
        as (decoded & codes & Hw & Hbits & Hall).
      exists decoded, codes. split; [exact Hw|]. split; [|exact Hall].
      rewrite <- Hbits, <- app_assoc. reflexivity.
Qed.

(** What [huffman_decode] has read when it returns a message: the paths of
    the leaves with the characters of the message. *)
Lemma huffman_decode_codes_of (root : Node) (bits decoded : list Z) :
  huffman_decode bits (Some root) = Done (Some decoded) ->
  exists codes,
    map (fun ch => if ch =? CHAR_0 then CHAR_0 else CHAR_1) bits = List.concat codes
    /\ Forall2 (fun ch code => In (ch, code) (leaf_codes root [])) decoded codes.
Proof.
  unfold huffman_decode. intros H.
  destruct (decode_loop bits (Some root) None (output_buffer bits)) as [[cursor b']|] eqn:E;
    [|discriminate].
  cbn [bind fst snd] in H. destruct cursor as [n|]; [discriminate|].
  destruct (store_terminator b') as [b''|] eqn:Et; [|discriminate].
  cbn [bind] in H. injection H as <-.
  unfold store_terminator in Et. destruct (current_idx b' <? capacity b'); [|discriminate].
  injection Et as <-.
  destruct (decode_loop_accepted root bits None [] _ _ eq_refl E)
    as (decoded & codes & Hw & Hbits & Hall).
  cbn [output_buffer written app] in Hw, Hbits. rewrite Hw. eauto.
Qed.

(** An input that [huffman_decode] decodes to a message is, with every
    character other than ['0'] read as ['1'], made of the paths of leaves
    of the tree, one per character of the message, each the path of a leaf
    with that character. *)
Theorem huffman_decode_accepted (root : Node) (bits decoded : list Z) :
  huffman_decode bits (Some root) = Done (Some decoded) ->
  exists codes,
    map (fun ch => if ch =? CHAR_0 then CHAR_0 else CHAR_1) bits = List.concat codes
    /\ Forall2 (fun ch code => In (ch, code) (leaf_codes root [])) decoded codes.
Proof.
  unfold huffman_decode. intros H.
  destruct (decode_loop bits (Some root) None (output_buffer bits)) as [[cursor b']|] eqn:E;
    [|discriminate].
  cbn [bind fst snd] in H. destruct cursor as [n|]; [discriminate|].
  destruct (store_terminator b') as [b''|] eqn:Et; [|discriminate].
  cbn [bind] in H. injection H as <-.
  unfold store_terminator in Et. destruct (current_idx b' <? capacity b'); [|discriminate].
  injection Et as <-.
  destruct (decode_loop_accepted root bits None [] _ _ eq_refl E)
    as (decoded & codes & Hw & Hbits & Hall).
  cbn [output_buffer written app] in Hw, Hbits. rewrite Hw. eauto.
Qed.

Lemma huffman_decode_accepted_witness :
  huffman_decode (bytes_of_string "0x1")
    (Some (create_parent_node (create_node 97 1) (create_node 98 1)))
  = Done (Some (bytes_of_string "abb"))
  /\ exists codes,
       map (fun ch => if ch =? CHAR_0 then CHAR_0 else CHAR_1) (bytes_of_string "0x1")
       = List.concat codes
       /\ Forall2 (fun ch code =>
                     In (ch, code)
                       (leaf_codes (create_parent_node (create_node 97 1) (create_node 98 1))
                          []))
            (bytes_of_string "abb") codes.
Proof.
  split; [reflexivity|].
  apply (huffman_decode_accepted (create_parent_node (create_node 97 1) (create_node 98 1))
           (bytes_of_string "0x1") (bytes_of_string "abb")).
  reflexivity.
Defined.

Lemma NoDup_keys_unique {A B : Type} (l : list (A * B)) (k : A) (v1 v2 : B) :
  NoDup (map fst l) -> In (k, v1) l -> In (k, v2) l -> v1 = v2.
Proof.
  induction l as [|[k0 v0] l IH]; intros Hnd H1 H2; [destruct H1|].
  cbn [map fst] in Hnd. inversion Hnd as [|? ? Hnot Hnd']; subst.
  destruct H1 as [H1 | H1], H2 as [H2 | H2].
  - congruence.
  - injection H1 as -> ->. exfalso. apply Hnot.
    change k with (fst (k, v2)). now apply in_map.
  - injection H2 as -> ->. exfalso. apply Hnot.
    change k with (fst (k, v1)). now apply in_map.
  - now apply IH.
Qed.

(** The leaves of the tree of a message have pairwise different characters,
    all of them characters of the message. *)
Lemma message_leaf_chars (sg : bool) (message : list Z) (root : Node) :
  c_string message ->
  forest_inv (initial_leaves (create_message sg message))
    (Z.of_nat (List.length message)) [root] ->
  NoDup (map fst (leaf_codes root []))
  /\ forall c code, In (c, code) (leaf_codes root []) -> In c message.
Proof.
  intros Hc Hinv.
  assert (Hp : Permutation (map fst (leaf_codes root [])) (present message)).
  { rewrite leaf_codes_nodes.
    eapply perm_trans; [apply Permutation_map, (root_leaves sg message Hc root Hinv)|].
    rewrite map_map. cbn [n_c]. rewrite map_id. apply Permutation_refl. }
  split.
  - eapply Permutation_NoDup; [symmetry; exact Hp | apply NoDup_present].
  - intros c code Hin.
    assert (Hk : In c (map fst (leaf_codes root []))).
    { change c with (fst (c, code)). now apply in_map. }
    eapply Permutation_in in Hk; [|exact Hp]. apply in_present in Hk. tauto.
Qed.

(** With the table and the tree built for a message of plain characters, a
    message that [huffman_decode] returns is made of characters of that
    message, and encoding it gives back the input of the decoder (every
    character other than ['0'] read as ['1']). *)
Theorem decode_then_encode (sg : bool) qsort (message bits decoded : list Z)
  (tree root : option Node) (table : MessageInfo) :
  sorts qsort -> c_string message -> message <> [] -> plain_chars sg message ->
  generate_tree qsort (create_message sg message) = Done tree ->
  generate_huffman (create_message sg message) tree = Done (table, root) ->
  huffman_decode bits root = Done (Some decoded) ->
  (forall x, In x decoded -> In x message)
  /\ forall encoded,
       huffman_encode sg decoded table = Done encoded ->
       written encoded = map (fun ch => if ch =? CHAR_0 then CHAR_0 else CHAR_1) bits.
Proof.
  intros Hsort Hc Hne Hplain Htree Hcodes Hdec.
  destruct (generate_tree_message sg qsort Hsort message Hc Hne) as (r & Hgen & Hinv).
  rewrite Hgen in Htree. injection Htree as <-.
  rewrite (generate_huffman_built sg message r Hc Hne Hinv) in Hcodes.
  injection Hcodes as <- <-.
  destruct (huffman_decode_codes_of (annotate r []) bits decoded Hdec)
    as (codes & Hbits & Hall).
  destruct (message_leaf_chars sg message r Hc Hinv) as [Hnd Hchars].
  assert (Hin : forall x, In x decoded -> In x message).
  { clear Hbits Hdec. induction Hall as [|ch code decoded codes Hch _ IH]; intros x Hx;
      [destruct Hx|].
    rewrite leaf_codes_annotate in Hch.
    destruct Hx as [<- | Hx]; [eapply Hchars; exact Hch | now apply IH]. }
  split; [exact Hin|].
  intros encoded Henc.
  destruct (huffman_encode_done _ _ _ _ Henc) as [Hloop _].
  destruct (encode_loop_written _ _ _ _ _ Hloop) as (Hw & _ & _).
  cbn [output_buffer written app chars] in Hw. rewrite Hw, Hbits. f_equal.
  clear Hw Hloop Henc Hbits Hdec.
  induction Hall as [|ch code decoded codes Hch _ IH]; [reflexivity|].
  cbn [map]. f_equal.
  - rewrite leaf_codes_annotate in Hch.
    destruct (message_copied_code sg message Hc r Hinv ch Hplain (Hin ch ltac:(left; reflexivity)))
      as [Hcopied _].
    apply (NoDup_keys_unique (leaf_codes r []) ch _ _ Hnd Hcopied Hch).
  - apply IH. intros x Hx. apply Hin. now right.
Qed.

Lemma decode_then_encode_witness :
  exists tree root table,
    generate_tree stable_qsort (create_message true (bytes_of_string "abracadabra")) = Done tree
    /\ generate_huffman (create_message true (bytes_of_string "abracadabra")) tree
       = Done (table, root)
    /\ huffman_decode (bytes_of_string "110001111101") root
       = Done (Some (bytes_of_string "cabd"))
    /\ forall encoded,
         huffman_encode true (bytes_of_string "cabd") table = Done encoded ->
         written encoded
         = map (fun ch => if ch =? CHAR_0 then CHAR_0 else CHAR_1)
             (bytes_of_string "110001111101").
Proof.
  do 3 eexists. split; [vm_compute; reflexivity|]. split; [vm_compute; reflexivity|].
  split; [vm_compute; reflexivity|].
  eapply (decode_then_encode true stable_qsort (bytes_of_string "abracadabra")).
  - exact stable_qsort_sorts.
  - split; [repeat constructor; vm_compute; discriminate | vm_compute; reflexivity].
  - discriminate.
  - right. repeat constructor.
  - vm_compute. reflexivity.
  - vm_compute. reflexivity.
  - vm_compute. reflexivity.
Defined.

(** ** The length of the encoded message *)

Lemma zsum_pick (x : Z) (g : Z -> Z) (l : list Z) :
  NoDup l -> In x l -> zsum (map (fun j => (if x =? j then 1 else 0) * g j) l) = g x.
Proof.
  induction 1 as [|y l Hy Hl IH]; intros Hin; [destruct Hin|].
  cbn [map zsum fold_right]. fold (zsum (map (fun j => (if x =? j then 1 else 0) * g j) l)).
  destruct Hin as [-> | Hin].
  - rewrite Z.eqb_refl.
    assert (H0 : zsum (map (fun j => (if x =? j then 1 else 0) * g j) l) = 0).
    { clear -Hy. induction l as [|z l IH]; [reflexivity|].
      cbn [map zsum fold_right].
      fold (zsum (map (fun j => (if x =? j then 1 else 0) * g j) l)).
      destruct (Z.eqb_spec x z) as [-> | _].
      - exfalso. apply Hy. left. reflexivity.
      - rewrite IH; [lia|]. intros H. apply Hy. right. exact H. }
    lia.
  - destruct (Z.eqb_spec x y) as [-> | _]; [contradiction|]. rewrite IH by assumption. lia.
Qed.

(** A sum over the characters of a message, character by character, is the
    sum over the distinct characters weighted by their occurrences. *)
Lemma zsum_weighted (message : list Z) (g : Z -> Z) (l : list Z) :
  NoDup l -> (forall x, In x message -> In x l) ->
  zsum (map (fun j => occurrences message j * g j) l) = zsum (map g message).
Proof.
  intros Hnd. induction message as [|x rest IH]; intros Hin.
  - clear. induction l as [|y l IH]; [reflexivity|].
    cbn [map zsum fold_right]. fold (zsum (map (fun j => occurrences [] j * g j) l)).
    rewrite IH. reflexivity.
  - assert (Hsplit : zsum (map (fun j => occurrences (x :: rest) j * g j) l)
                     = zsum (map (fun j => occurrences rest j * g j) l)
                       + zsum (map (fun j => (if x =? j then 1 else 0) * g j) l)).
    { clear. induction l as [|y l IH]; [reflexivity|].
      cbn [map zsum fold_right].
      fold (zsum (map (fun j => occurrences (x :: rest) j * g j) l)).
      fold (zsum (map (fun j => occurrences rest j * g j) l)).
      fold (zsum (map (fun j => (if x =? j then 1 else 0) * g j) l)).
      rewrite IH, occurrences_cons. lia. }
    rewrite Hsplit, IH, zsum_pick; auto.
    + cbn [map zsum fold_right]. fold (zsum (map g rest)). lia.
    + apply Hin. left. reflexivity.
    + intros y Hy. apply Hin. right. exact Hy.
Qed.

Lemma length_concat_zsum (codes : list (list Z)) :
  Z.of_nat (List.length (List.concat codes))
  = zsum (map (fun code => Z.of_nat (List.length code)) codes).
Proof.
  induction codes as [|code codes IH]; [reflexivity|].
  cbn [List.concat map zsum fold_right]. rewrite length_app.
  fold (zsum (map (fun code => Z.of_nat (List.length code)) codes)). lia.
Qed.

(** The encoded message of a message of plain characters has as many
    characters as the entries of the table say: the sum, over the entries,
    of the frequency times the length of the code. *)
Theorem encoded_length (sg : bool) qsort (message : list Z) (table : MessageInfo)
  (root : option Node) (encoded : buffer) :
  sorts qsort -> c_string message -> message <> [] -> plain_chars sg message ->
  main_encode sg qsort message = Done (table, root, encoded) ->
  Z.of_nat (List.length (written encoded))
  = zsum (map (fun e => mc_freq e * match mc_code e with
                                    | Some code => Z.of_nat (List.length code)
                                    | None => 0
                                    end) (chars table)).
Proof.
  intros Hsort Hc Hne Hplain Hmain.
  destruct (main_encode_built sg qsort message Hsort Hc Hne) as (r & Hinv & Heq).
  rewrite Heq in Hmain. clear Heq.
  destruct (huffman_encode sg message _) as [enc|] eqn:Henc; [|discriminate].
  cbn [bind] in Hmain. injection Hmain as <- <- <-.
  destruct (huffman_encode_done _ _ _ _ Henc) as [Hloop _].
  destruct (encode_loop_written _ _ _ _ _ Hloop) as (Hw & _ & _).
  cbn [output_buffer written app chars] in Hw. rewrite Hw. cbn [chars].
  set (entries := chars (create_message sg message)) in *.
  set (table := store_codes entries (leaf_codes r [])) in *.
  rewrite length_concat_zsum, map_map.
  assert (Hcover : forall x, In x message -> In x (present message)).
  { intros x Hx. apply in_present. destruct Hc as [Hb _]. rewrite Forall_forall in Hb.
    specialize (Hb x Hx). split; [lia | exact Hx]. }
  pose proof (zsum_weighted message
                (fun j => Z.of_nat (List.length (copied_code table (to_char sg j))))
                (present message) (NoDup_present message) Hcover) as Hz.
  cbv beta in Hz. rewrite <- Hz. clear Hz.
  assert (Hkeys : map (fun e => (mc_c e, mc_freq e)) table
                  = map (fun j => (to_char sg j, occurrences message j)) (present message)).
  { unfold table. rewrite store_codes_keys. unfold entries.
    rewrite (create_message_chars sg message Hc), map_map. reflexivity. }
  assert (Hnd : NoDup (map mc_c table)).
  { unfold table. rewrite store_codes_chars. now apply NoDup_table_chars. }
  transitivity (zsum (map (fun kf => snd kf
                                     * Z.of_nat (List.length (copied_code table (fst kf))))
                        (map (fun e => (mc_c e, mc_freq e)) table))).
  - rewrite Hkeys, map_map. reflexivity.
  - rewrite map_map. f_equal. apply map_ext_in. intros e He. cbn [fst snd]. f_equal.
    unfold copied_code. rewrite (lookup_code_NoDup table e Hnd He).
    destruct (mc_code e); reflexivity.
Qed.

Lemma encoded_length_witness :
  exists table root encoded,
    main_encode true stable_qsort (bytes_of_string "abracadabra") = Done (table, root, encoded)
    /\ Z.of_nat (List.length (written encoded)) = 23
    /\ Z.of_nat (List.length (written encoded))
       = zsum (map (fun e => mc_freq e * match mc_code e with
                                         | Some code => Z.of_nat (List.length code)
                                         | None => 0
                                         end) (chars table)).
Proof.
  do 3 eexists. split; [vm_compute; reflexivity|]. split; [reflexivity|].
  eapply (encoded_length true stable_qsort (bytes_of_string "abracadabra")).
  - exact stable_qsort_sorts.
  - split; [repeat constructor; vm_compute; discriminate | vm_compute; reflexivity].
  - discriminate.
  - right. repeat constructor.
  - vm_compute. reflexivity.
Defined.

Lemma main_encode_terminator_witness :
  exists table root b,
    main_table true stable_qsort (bytes_of_string "abcde") = Done table
    /\ encode_loop true (bytes_of_string "abcde") table
         (output_buffer (bytes_of_string "abcde")) = Done b
    /\ current_idx b <= capacity b
    /\ main_encode true stable_qsort (bytes_of_string "abcde")
       = (if current_idx b <? capacity b then Done (table, root, b) else Fault).
Proof.
  apply (main_encode_terminator true stable_qsort (bytes_of_string "abcde")
           stable_qsort_sorts).
  - split; [repeat constructor; vm_compute; discriminate | vm_compute; reflexivity].
  - discriminate.
  - right. repeat constructor.
  - vm_compute. reflexivity.
Defined.

(** ** How encoding and decoding compose *)

(** The encoded message of two messages one after the other is the encoded
    message of the first followed by that of the second, when the encoder
    returns for the three of them. *)
Theorem huffman_encode_app (sg : bool) (m1 m2 : list Z) (message_info : MessageInfo)
  (e e1 e2 : buffer) :
  huffman_encode sg (m1 ++ m2) message_info = Done e ->
  huffman_encode sg m1 message_info = Done e1 ->
  huffman_encode sg m2 message_info = Done e2 ->
  written e = written e1 ++ written e2.
Proof.
  intros H H1 H2.
  destruct (huffman_encode_done _ _ _ _ H) as [Hl _].
  destruct (huffman_encode_done _ _ _ _ H1) as [Hl1 _].
  destruct (huffman_encode_done _ _ _ _ H2) as [Hl2 _].
  destruct (encode_loop_written _ _ _ _ _ Hl) as (-> & _ & _).
  destruct (encode_loop_written _ _ _ _ _ Hl1) as (-> & _ & _).
  destruct (encode_loop_written _ _ _ _ _ Hl2) as (-> & _ & _).
  cbn [output_buffer written app]. now rewrite map_app, concat_app.
Qed.

Lemma huffman_encode_app_witness :
  written {| capacity := 4; current_idx := 3; written := [CHAR_0; CHAR_1; CHAR_0] |}
  = written {| capacity := 3; current_idx := 2; written := [CHAR_0; CHAR_1] |}
    ++ written {| capacity := 2; current_idx := 1; written := [CHAR_0] |}.
Proof.
  apply (huffman_encode_app true (bytes_of_string "ab") (bytes_of_string "a")
           {| chars := [{| mc_c := 97; mc_freq := 2; mc_code := Some [CHAR_0] |};
                        {| mc_c := 98; mc_freq := 1; mc_code := Some [CHAR_1] |}] |});
    reflexivity.
Defined.

Lemma decode_loop_app (bits1 bits2 : list Z) (root : option Node) :
  forall cursor b,
    decode_loop (bits1 ++ bits2) root cursor b
    = r <- decode_loop bits1 root cursor b ;; decode_loop bits2 root (fst r) (snd r).
Proof.
  induction bits1 as [|bit rest IH]; intros cursor b; [reflexivity|].
  cbn [app decode_loop].
  destruct (cursor_node root cursor) as [current_node|]; [|reflexivity].
  destruct (if bit =? CHAR_0 then n_left current_node else n_right current_node)
    as [next|]; [|reflexivity].
  destruct (is_leaf next); [|apply IH].
  destruct (put_char b (n_c next)) as [b'|]; [|reflexivity]. cbn [bind]. apply IH.
Qed.

(** In a buffer with room for one character per character read the loop of
    the decoder never grows the buffer, and what it writes does not depend
    on the buffer. *)
Lemma decode_loop_room (root : option Node) (bits : list Z) :
  forall cursor b result,
    0 <= current_idx b ->
    current_idx b + Z.of_nat (List.length bits) < capacity b ->
    capacity b <= SIZE_MAX ->
    decode_loop bits root cursor b = Done result ->
    exists decoded,
      (List.length decoded <= List.length bits)%nat
      /\ forall b2,
           0 <= current_idx b2 ->
           current_idx b2 + Z.of_nat (List.length bits) < capacity b2 ->
           capacity b2 <= SIZE_MAX ->
           decode_loop bits root cursor b2
           = Done (fst result,
                   {| capacity := capacity b2;
                      current_idx := current_idx b2 + Z.of_nat (List.length decoded);
                      written := written b2 ++ decoded |}).
Proof.
  induction bits as [|bit rest IH]; intros cursor b result H0 Hroom Hmax H.
  - cbn [decode_loop] in H. injection H as <-. exists []. split; [simpl; lia|].
    intros b2 _ _ _. cbn [decode_loop fst List.length]. rewrite Z.add_0_r, app_nil_r.
    destruct b2; reflexivity.
  - cbn [decode_loop List.length] in *.
    destruct (cursor_node root cursor) as [current_node|]; [|discriminate].
    destruct (if bit =? CHAR_0 then n_left current_node else n_right current_node)
      as [next|]; [|discriminate].
    destruct (is_leaf next).
    + rewrite put_char_room in H by lia. cbn [bind] in H.
      destruct (IH None {| capacity := capacity b; current_idx := current_idx b + 1;
                           written := written b ++ [n_c next] |} result)
        as (decoded & Hlen & Hall); cbn [capacity current_idx written]; try lia;
        [exact H|].
      exists (n_c next :: decoded). split; [simpl; lia|].
      intros b2 H02 Hroom2 Hmax2. rewrite put_char_room by lia. cbn [bind].
      rewrite Hall by (cbn [capacity current_idx]; lia).
      cbn [capacity current_idx written List.length]. rewrite <- app_assoc.
      do 3 f_equal. lia.
    + destruct (IH (Some next) b result) as (decoded & Hlen & Hall); try lia; [exact H|].
      exists decoded. split; [lia|].
      intros b2 H02 Hroom2 Hmax2. apply Hall; lia.
Qed.

(** [huffman_decode] never takes the branch that grows its buffer: the
    capacity stays that of the first allocation, the length of the input
    plus one, and the message is no longer than the input. *)
Theorem huffman_decode_never_grows (bits : list Z) (root cursor : option Node) (b : buffer) :
  Z.of_nat (List.length bits) < SIZE_MAX ->
  decode_loop bits root None (output_buffer bits) = Done (cursor, b) ->
  capacity b = Z.of_nat (List.length bits) + 1
  /\ current_idx b = Z.of_nat (List.length (written b))
  /\ current_idx b <= Z.of_nat (List.length bits).
Proof.
  intros Hlen H.
  assert (Hcap : capacity (output_buffer bits) = Z.of_nat (List.length bits) + 1).
  { apply size_t_small. lia. }
  destruct (decode_loop_room root bits None (output_buffer bits) (cursor, b))
    as (decoded & Hd & Hall); try exact H.
  - cbn [output_buffer current_idx]. lia.
  - rewrite Hcap. cbn [output_buffer current_idx]. lia.
  - rewrite Hcap. lia.
  - rewrite Hall in H.
    + injection H as <-. cbn [capacity current_idx written].
      split; [exact Hcap|]. cbn [output_buffer current_idx written app]. lia.
    + cbn [output_buffer current_idx]. lia.
    + rewrite Hcap. cbn [output_buffer current_idx]. lia.
    + rewrite Hcap. lia.
Qed.

Lemma huffman_decode_never_grows_witness :
  decode_loop (bytes_of_string "011")
    (Some (create_parent_node (create_node 97 1) (create_node 98 1))) None
    (output_buffer (bytes_of_string "011"))
  = Done (None, {| capacity := 4; current_idx := 3; written := bytes_of_string "abb" |})
  /\ capacity {| capacity := 4; current_idx := 3; written := bytes_of_string "abb" |}
     = Z.of_nat (List.length (bytes_of_string "011")) + 1.
Proof.
  split; [reflexivity|].
  apply (huffman_decode_never_grows (bytes_of_string "011")
           (Some (create_parent_node (create_node 97 1) (create_node 98 1))) None
           {| capacity := 4; current_idx := 3; written := bytes_of_string "abb" |}).
  - vm_compute. reflexivity.
  - reflexivity.
Defined.

(** Two inputs that [huffman_decode] decodes are decoded, one after the
    other, to the two messages one after the other. *)
Theorem huffman_decode_app (bits1 bits2 m1 m2 : list Z) (root : option Node) :
  Z.of_nat (List.length (bits1 ++ bits2)) < SIZE_MAX ->
  huffman_decode bits1 root = Done (Some m1) ->
  huffman_decode bits2 root = Done (Some m2) ->
  huffman_decode (bits1 ++ bits2) root = Done (Some (m1 ++ m2)).
Proof.
  intros Hlen H1 H2. rewrite length_app in Hlen.
  assert (Hparts : forall bits m,
            Z.of_nat (List.length bits) < SIZE_MAX ->
            huffman_decode bits root = Done (Some m) ->
            (List.length m <= List.length bits)%nat
            /\ forall b2,
                 0 <= current_idx b2 ->
                 current_idx b2 + Z.of_nat (List.length bits) < capacity b2 ->
                 capacity b2 <= SIZE_MAX ->
                 decode_loop bits root None b2
                 = Done (None, {| capacity := capacity b2;
                                  current_idx := current_idx b2 + Z.of_nat (List.length m);
                                  written := written b2 ++ m |})).
  { intros bits m Hb H. unfold huffman_decode in H.
    destruct (decode_loop bits root None (output_buffer bits)) as [[cursor b]|] eqn:E;
      [|discriminate].
    cbn [bind fst snd] in H. destruct cursor as [n|]; [discriminate|].
    assert (Hcap : capacity (output_buffer bits) = Z.of_nat (List.length bits) + 1).
    { apply size_t_small. lia. }
    destruct (decode_loop_room root bits None (output_buffer bits) (None, b))
      as (decoded & Hd & Hall); try exact E.
    - cbn [output_buffer current_idx]. lia.
    - rewrite Hcap. cbn [output_buffer current_idx]. lia.
    - rewrite Hcap. lia.
    - assert (Hm : m = decoded).
      { rewrite Hall in E.
        - injection E as <-. unfold store_terminator in H.
          cbn [capacity current_idx written output_buffer app] in H.
          destruct (_ <? _) in H; [|discriminate]. cbn [bind written] in H.
          now injection H as <-.
        - cbn [output_buffer current_idx]. lia.
        - rewrite Hcap. cbn [output_buffer current_idx]. lia.
        - rewrite Hcap. lia. }
      subst decoded. split; [exact Hd | exact Hall]. }
  destruct (Hparts bits1 m1 ltac:(lia) H1) as [Hl1 Hd1].
  destruct (Hparts bits2 m2 ltac:(lia) H2) as [Hl2 Hd2].
  unfold huffman_decode.
  assert (Hcap : capacity (output_buffer (bits1 ++ bits2))
                 = Z.of_nat (List.length bits1 + List.length bits2) + 1).
  { unfold output_buffer. cbn [capacity]. rewrite length_app. apply size_t_small. lia. }
  rewrite decode_loop_app, Hd1.
  - cbn [bind fst snd]. rewrite Hd2.
    + cbn [bind fst snd]. unfold store_terminator.
      cbn [capacity current_idx written output_buffer app] in *.
      rewrite Hcap.
      destruct (Z.ltb_spec (0 + Z.of_nat (List.length m1) + Z.of_nat (List.length m2))
                  (Z.of_nat (List.length bits1 + List.length bits2) + 1)); [|lia].
      reflexivity.
    + cbn [current_idx output_buffer]. lia.
    + cbn [capacity current_idx]. rewrite Hcap. cbn [output_buffer current_idx]. lia.
    + cbn [capacity]. rewrite Hcap. lia.
  - cbn [output_buffer current_idx]. lia.
  - rewrite Hcap. cbn [output_buffer current_idx]. lia.
  - rewrite Hcap. lia.
Qed.

Lemma huffman_decode_app_witness :
  huffman_decode (bytes_of_string "01" ++ bytes_of_string "1")
    (Some (create_parent_node (create_node 97 1) (create_node 98 1)))
  = Done (Some (bytes_of_string "ab" ++ bytes_of_string "b")).
Proof.
  apply (huffman_decode_app (bytes_of_string "01") (bytes_of_string "1")
           (bytes_of_string "ab") (bytes_of_string "b")).
  - vm_compute. reflexivity.
  - reflexivity.
  - reflexivity.
Defined.

(** ** Releasing the tree *)

Lemma free_node_annotate (node : Node) :
  forall p,
    free_node (annotate node p)
    = Done (flat_map (fun x => [CodeBlock (fst x); NodeBlock (n_c (snd x)) (n_freq (snd x))])
              (subtrees node p)).
Proof.
  induction node as [c f code | l c f code IHl | r c f code IHr | l r c f code IHl IHr]
    using Node_induction; intros p; cbn [annotate free_node subtrees flat_map fst snd n_c n_freq].
  - reflexivity.
  - rewrite IHl. cbn [bind app]. now rewrite !app_nil_r.
  - rewrite IHr. cbn [bind app]. reflexivity.
  - rewrite IHl. cbn [bind]. rewrite IHr. cbn [bind app]. now rewrite flat_map_app.
Qed.

(** [free_node] on the tree of [generate_tree] reads a [code] field that
    was never set, as long as [generate_huffman] has not run: so it does in
    the error path of [generate_tree] itself.  After [generate_huffman] it
    releases, node by node in the order of the traversal, the code and the
    node, each once. *)
Theorem free_node_codes qsort (message_info : MessageInfo) :
  sorts qsort -> 1 <= mi_length message_info <= 2 ^ 59 ->
  exists root,
    generate_tree qsort message_info = Done (Some root)
    /\ free_node root = Fault
    /\ forall table root',
         generate_huffman message_info (Some root) = Done (table, Some root') ->
         free_node root'
         = Done (flat_map (fun x => [CodeBlock (fst x);
                                     NodeBlock (n_c (snd x)) (n_freq (snd x))])
                   (subtrees root [])).
Proof.
  intros Hsort Hlen.
  destruct (generate_tree_nodes qsort message_info (fun n => n_code n = None) Hsort Hlen)
    as (root & Hgen & _ & Hq).
  - reflexivity.
  - reflexivity.
  - exists root. split; [exact Hgen|]. split.
    + rewrite Forall_forall in Hq. specialize (Hq root (root_in_nodes root [])).
      destruct root as [l r c f code]. cbn [n_code] in Hq. subst code. reflexivity.
    + intros table root' H. apply generate_huffman_done in H.
      injection H as _ ->. apply free_node_annotate.
Qed.

Lemma free_node_codes_witness :
  exists root,
    generate_tree stable_qsort (create_message true (bytes_of_string "ab")) = Done (Some root)
    /\ free_node root = Fault
    /\ forall table root',
         generate_huffman (create_message true (bytes_of_string "ab")) (Some root)
         = Done (table, Some root') ->
         free_node root'
         = Done (flat_map (fun x => [CodeBlock (fst x);
                                     NodeBlock (n_c (snd x)) (n_freq (snd x))])
                   (subtrees root [])).
Proof.
  apply (free_node_codes stable_qsort (create_message true (bytes_of_string "ab"))
           stable_qsort_sorts).
  vm_compute. split; discriminate.
Defined.

(** ** The weights of the tree of any table *)

Lemma total_freq_initial (message_info : MessageInfo) :
  total_freq (initial_leaves message_info)
  = zsum (map (fun e => size_t (mc_freq e)) (chars message_info)).
Proof.
  unfold initial_leaves. induction (chars message_info) as [|e es IH]; [reflexivity|].
  cbn [map total_freq fold_right zsum create_node n_freq].
  fold (total_freq (map (fun e => create_node (mc_c e) (mc_freq e)) es)).
  fold (zsum (map (fun e => size_t (mc_freq e)) es)). now rewrite IH.
Qed.

(** For every table whose frequencies, as [size_t], add up to at most
    [SIZE_MAX], the tree of [generate_tree] carries at every node with
    children the sum of the frequencies of its two children, and at the root
    the sum of the frequencies of the table. *)
Theorem generate_tree_weights qsort (message_info : MessageInfo) :
  sorts qsort -> 1 <= mi_length message_info <= 2 ^ 59 ->
  zsum (map (fun e => size_t (mc_freq e)) (chars message_info)) <= SIZE_MAX ->
  exists root,
    generate_tree qsort message_info = Done (Some root)
    /\ weighted root
    /\ n_freq root = zsum (map (fun e => size_t (mc_freq e)) (chars message_info)).
Proof.
  intros Hsort Hlen Hsum. rewrite <- total_freq_initial in *.
  destruct (generate_tree_rule qsort Hsort
              (forest_inv (initial_leaves message_info)
                 (total_freq (initial_leaves message_info))) message_info)
    as (root & Hgen & Hinv).
  - intros f f'. apply forest_inv_perm.
  - intros t1 t2 rest. apply forest_inv_merge. exact Hsum.
  - exact Hlen.
  - apply forest_inv_initial. unfold initial_leaves. apply Forall_forall.
    intros t Ht. apply in_map_iff in Ht. destruct Ht as (e & <- & _). eauto.
  - exists root. split; [exact Hgen|]. destruct Hinv as [_ Hw Ht _ _]. split.
    + inversion Hw; assumption.
    + rewrite <- Ht. cbn [total_freq fold_right]. lia.
Qed.

Lemma generate_tree_weights_witness :
  exists root,
    generate_tree stable_qsort
      {| chars := [{| mc_c := 120; mc_freq := 7; mc_code := None |};
                   {| mc_c := 121; mc_freq := 0; mc_code := None |};
                   {| mc_c := 122; mc_freq := 5; mc_code := None |}] |}
    = Done (Some root)
    /\ weighted root
    /\ n_freq root = 12.
Proof.
  apply (generate_tree_weights stable_qsort
           {| chars := [{| mc_c := 120; mc_freq := 7; mc_code := None |};
                        {| mc_c := 121; mc_freq := 0; mc_code := None |};
                        {| mc_c := 122; mc_freq := 5; mc_code := None |}] |}
           stable_qsort_sorts).
  - vm_compute. split; discriminate.
  - vm_compute. discriminate.
Defined.
